(** * libopenssh: ECDH server key exchange, proxy session engine, keysign validator

    A shallow embedding of [kexecdhs.c], [ssh-proxy.c] and [ssh-keysign.c].
    C functions that run many fallible calls in sequence are written in a
    small state-and-exit monad; calls into OpenSSL, libevent, the kernel and
    the parts of libopenssh outside these three files are answered by an
    explicit environment record, so that every path of the code is reachable
    by choosing the environment. *)

From Stdlib Require Import ZArith Lia List.
From Stdlib Require Import Strings.String Strings.Ascii Strings.Byte.
From stdpp Require Import base tactics option list gmap strings.

Local Open Scope Z_scope.

(** ** State-and-exit monad

    [M S E A]: a computation over a state [S] that either yields an [A] or
    leaves early with an exit reason [E] ([goto out], [fatal], [return]).
    The state reached so far is kept on an early exit. *)
Module SE.

Definition M (S E A : Type) : Type := S → (E + A) * S.

Definition ret {S E A} (a : A) : M S E A := λ s, (inr a, s).

Definition bind {S E A B} (f : A → M S E B) (m : M S E A) : M S E B :=
  λ s, match m s with
       | (inl e, s') => (inl e, s')
       | (inr a, s') => f a s'
       end.

Definition exit {S E A} (e : E) : M S E A := λ s, (inl e, s).
Definition get {S E} : M S E S := λ s, (inr s, s).
Definition gets {S E A} (f : S → A) : M S E A := λ s, (inr (f s), s).
Definition modify {S E} (f : S → S) : M S E unit := λ s, (inr tt, f s).

(** [when c m]: the C statement [if (c) m;] *)
Definition when {S E} (c : bool) (m : M S E unit) : M S E unit :=
  if c then m else ret tt.

End SE.

Global Instance SE_ret {S E} : MRet (SE.M S E) := @SE.ret S E.
Global Instance SE_bind {S E} : MBind (SE.M S E) := @SE.bind S E.

(** ** Wire codec (RFC 4251 section 5) *)
Global Instance byte_eq_dec : EqDecision byte := Byte.byte_eq_dec.

Module Wire.

Definition byte_to_Z (b : byte) : Z := Z.of_N (Byte.to_N b).

(** Conversion of an integer to [u_char]: the low eight bits. *)
Definition Z_to_byte (z : Z) : byte :=
  default x00 (Byte.of_N (Z.to_N (z mod 256))).

Definition UINT32_MAX : Z := 4294967295.

(** Modelled from the spec: sshbuf_put_u32 (sshbuf.c is not among the
    sources); "uint32: big-endian 32-bit". *)
Definition put_u32 (v : Z) : list byte :=
  [Z_to_byte (Z.shiftr v 24); Z_to_byte (Z.shiftr v 16);
   Z_to_byte (Z.shiftr v 8); Z_to_byte v].

(** Modelled from the spec: sshbuf_get_u8; "byte: single octet", short input
    is an error and leaves the buffer as it was. *)
Definition get_u8 (b : list byte) : option (byte * list byte) :=
  match b with
  | x :: rest => Some (x, rest)
  | [] => None
  end.

(** Modelled from the spec: sshbuf_get_u32. *)
Definition get_u32 (b : list byte) : option (Z * list byte) :=
  match b with
  | b0 :: b1 :: b2 :: b3 :: rest =>
      Some (Z.lor (Z.shiftl (byte_to_Z b0) 24)
             (Z.lor (Z.shiftl (byte_to_Z b1) 16)
               (Z.lor (Z.shiftl (byte_to_Z b2) 8) (byte_to_Z b3))), rest)
  | _ => None
  end.

(** Modelled from the spec: sshbuf_put_string; "string: uint32 length
    followed by length bytes". *)
Definition put_string (s : list byte) : list byte :=
  put_u32 (Z.of_nat (length s)) ++ s.

(** Modelled from the spec: sshbuf_get_string; a length field that exceeds
    the remaining bytes is an error. *)
Definition get_string (b : list byte) : option (list byte * list byte) :=
  match get_u32 b with
  | Some (len, rest) =>
      if decide (len ≤ Z.of_nat (length rest))
      then Some (take (Z.to_nat len) rest, drop (Z.to_nat len) rest)
      else None
  | None => None
  end.

(** Modelled from the spec: sshbuf_skip_string. *)
Definition skip_string (b : list byte) : option (list byte) :=
  snd <$> get_string b.

(** Modelled from the spec: sshbuf_get_cstring; the cstring variant "rejects
    embedded NUL" and returns an owned character string together with its
    length.  The spec's UTF-8 requirement is a predicate of the bytes. *)
Definition get_cstring (utf8 : list byte → bool) (b : list byte)
  : option (string * Z * list byte) :=
  match get_string b with
  | Some (s, rest) =>
      if bool_decide (x00 ∈ s) || negb (utf8 s) then None
      else Some (string_of_list_byte s, Z.of_nat (length s), rest)
  | None => None
  end.

Definition put_cstring (s : string) : list byte :=
  put_string (list_byte_of_string s).

(** [n] as [len] big-endian octets (the low [8*len] bits). *)
Definition I2OSP (len : nat) (n : Z) : list byte :=
  (λ i : nat, Z_to_byte (Z.shiftr n (8 * Z.of_nat i))) <$> reverse (seq 0 len).

(** BN_num_bytes and BN_bn2bin of a non-negative number: the minimal
    big-endian magnitude, empty for zero. *)
Definition BN_num_bytes (n : Z) : nat :=
  if decide (n ≤ 0) then 0%nat else Z.to_nat ((Z.log2 n + 8) / 8).

Definition BN_bn2bin (n : Z) : list byte := I2OSP (BN_num_bytes n) n.

(** BN_bin2bn: a big-endian magnitude as a non-negative number. *)
Definition BN_bin2bn (b : list byte) : Z :=
  fold_left (λ acc x, acc * 256 + byte_to_Z x) b 0.

(** Modelled from the spec: sshbuf_put_bignum2; "mpint: uint32 length
    followed by two's-complement big-endian integer bytes.  Positive integers
    with a high bit set are prefixed with 0x00; value 0 is encoded as
    zero-length". *)
Definition put_bignum2 (n : Z) : list byte :=
  let d := BN_bn2bin n in
  match d with
  | msb :: _ => if decide (128 ≤ byte_to_Z msb) then put_string (x00 :: d)
                else put_string d
  | [] => put_string []
  end.

(** An elliptic-curve point: the point at infinity or affine coordinates. *)
Inductive EC_POINT := Infinity | Affine (x y : Z).

(** EC_POINT_point2oct, uncompressed form: [0x04 || X || Y] with coordinates
    of [klen] octets; the point at infinity is the single octet zero. *)
Definition point2oct (klen : nat) (Q : EC_POINT) : list byte :=
  match Q with
  | Infinity => [x00]
  | Affine x y => x04 :: I2OSP klen x ++ I2OSP klen y
  end.

(** Modelled from the spec: sshbuf_put_ec; "ec_point: encoded as a string
    whose contents are an uncompressed SEC1 point". *)
Definition put_ec (klen : nat) (Q : EC_POINT) : list byte :=
  put_string (point2oct klen Q).

End Wire.

(** ** ECDH server key exchange ([kexecdhs.c]) *)
Module Kex.
Import Wire.

(** The return codes of err.h that the handler names. *)
Inductive ssh_err :=
| SSH_ERR_SUCCESS
| SSH_ERR_INTERNAL_ERROR
| SSH_ERR_ALLOC_FAIL
| SSH_ERR_MESSAGE_INCOMPLETE
| SSH_ERR_INVALID_FORMAT
| SSH_ERR_INVALID_ARGUMENT
| SSH_ERR_KEY_TYPE_MISMATCH
| SSH_ERR_LIBCRYPTO_ERROR.

Global Instance ssh_err_eq_dec : EqDecision ssh_err.
Proof. solve_decision. Defined.

(** The curve NIDs that [kex_ecdh_name_to_nid] can return. *)
Inductive curve := NID_X9_62_prime256v1 | NID_secp384r1 | NID_secp521r1.

Inductive EVP_MD := EVP_sha1 | EVP_sha256 | EVP_sha384 | EVP_sha512.

Global Instance EVP_MD_eq_dec : EqDecision EVP_MD.
Proof. solve_decision. Defined.

(** Modelled from the spec: kex_ecdh_name_to_nid (kexecdh.c is not among the
    sources); "curve_from_name maps ecdh-sha2-nistp{256,384,521} to curve and
    digest", [None] standing for the -1 of an unknown name. *)
Definition kex_ecdh_name_to_nid (name : string) : option curve :=
  if decide (name = "ecdh-sha2-nistp256") then Some NID_X9_62_prime256v1
  else if decide (name = "ecdh-sha2-nistp384") then Some NID_secp384r1
  else if decide (name = "ecdh-sha2-nistp521") then Some NID_secp521r1
  else None.

(** Modelled from the spec: kex_ecdh_name_to_evpmd (kex.c, which fills in
    [kex->evp_md] when the algorithms are chosen, is not among the sources);
    "ecdh-sha2-nistp256 (digest SHA-256), ecdh-sha2-nistp384 (SHA-384),
    ecdh-sha2-nistp521 (SHA-512)". *)
Definition kex_ecdh_name_to_evpmd (name : string) : option EVP_MD :=
  match kex_ecdh_name_to_nid name with
  | Some NID_X9_62_prime256v1 => Some EVP_sha256
  | Some NID_secp384r1 => Some EVP_sha384
  | Some NID_secp521r1 => Some EVP_sha512
  | None => None
  end.

(** EC_GROUP_get_degree of the three groups. *)
Definition EC_GROUP_get_degree (group : curve) : Z :=
  match group with
  | NID_X9_62_prime256v1 => 256
  | NID_secp384r1 => 384
  | NID_secp521r1 => 521
  end.

Definition SSH2_MSG_KEX_ECDH_INIT : Z := 30.
Definition SSH2_MSG_KEX_ECDH_REPLY : Z := 31.

(** A heap object seen through one pointer variable: [Null] before it is
    allocated, [Live] with its contents, [Released] after [free], with the
    bytes that were left in the memory handed back. *)
Inductive cell (A : Type) :=
| Null
| Live (contents : A)
| Released (residue : A).
Arguments Null {A}.
Arguments Live {A} contents.
Arguments Released {A} residue.

(** [free(p)] under [if (p)]. *)
Definition free {A} (c : cell A) : cell A :=
  match c with
  | Live v => Released v
  | c => c
  end.

(** BN_clear_free: the number is overwritten before its memory is returned. *)
Definition BN_clear_free (c : cell Z) : cell Z :=
  match c with
  | Live _ => Released 0
  | c => c
  end.

(** bzero(buf, n) *)
Definition bzero (buf : list byte) (n : nat) : list byte :=
  replicate (min n (length buf)) x00 ++ drop n buf.

(** An OpenSSL EC_KEY: its group, the private scalar (a BIGNUM the key owns)
    and the public point. *)
Record EC_KEY := { ek_group : curve; ek_priv : cell Z; ek_pub : option EC_POINT }.

(** EC_KEY_free: OpenSSL clears the private scalar with BN_clear_free before
    releasing the key. *)
Definition EC_KEY_free (c : cell EC_KEY) : cell EC_KEY :=
  match c with
  | Live k => Released {| ek_group := ek_group k;
                          ek_priv := BN_clear_free (ek_priv k);
                          ek_pub := ek_pub k |}
  | c => c
  end.

Record sshkey := { sk_type : Z; sk_material : list byte }.

(** [struct Kex], the fields the handler reads or writes.  [peer] and [my]
    are the KEXINIT payloads received and sent; on the server the peer is
    the client. *)
Record Kex := {
  name : string;
  evp_md : EVP_MD;
  hostkey_type : Z;
  client_version_string : string;
  server_version_string : string;
  peer : list byte;
  my : list byte;
  session_id : option (list byte);
  ec_client_key : cell EC_KEY;
  load_host_public_key : option (Z → option sshkey);
  load_host_private_key : option (Z → option sshkey)
}.

(** What the handler's collaborators answer during one run. *)
Record Env := {
  e_EC_KEY_new : bool;
  e_EC_KEY_generate_key : option (Z * EC_POINT);
  e_EC_POINT_new : bool;
  e_sshpkt_get_ec : ssh_err * EC_POINT;
  e_sshpkt_get_end : ssh_err;
  e_on_curve : curve → Z → Z → bool;
  e_malloc_kbuf : option byte;
  e_BN_new : bool;
  e_ECDH_compute_key : Z → EC_POINT → option (list byte);
  e_BN_bin2bn : bool;
  e_sshkey_to_blob : sshkey → ssh_err * list byte;
  e_digest : EVP_MD → list byte → list byte;
  e_kex_ecdh_hash : ssh_err;
  e_malloc_session_id : bool;
  e_sshkey_sign : sshkey → list byte → option (list byte);
  e_sshpkt_start : ssh_err;
  e_sshpkt_put_blob : ssh_err;
  e_sshpkt_put_ec : ssh_err;
  e_sshpkt_put_signature : ssh_err;
  e_sshpkt_send : ssh_err
}.

(** Calls that the claims speak about, in the order they were made. *)
Inductive event :=
| EvGenerateKey (group : curve)
| EvValidatePublic (Q : EC_POINT) (ok : bool)
| EvDisconnect (reason : string)
| EvComputeKey (Q : EC_POINT)
| EvHash (md : EVP_MD) (enc : list byte)
| EvSign (data : list byte)
| EvSend (type : Z) (payload : list byte)
| EvDeriveKeys (hash : list byte) (K : Z)
| EvFinish.

(** The handler's local variables, the Kex it works on and the calls made. *)
Record state := {
  kex : Kex;
  server_key : cell EC_KEY;
  client_public : option EC_POINT;
  shared_secret : cell Z;
  server_host_key_blob : cell (list byte);
  signature : cell (list byte);
  kbuf : cell (list byte);
  klen : nat;
  hash : option (list byte);
  trace : list event
}.

(** Why the body of the handler stops early. *)
Inductive early := GotoOut (r : ssh_err) | Fatal (msg : string).

(** How a run of the handler ends: it returns [r], or [fatal] ends the
    process. *)
Inductive outcome :=
| Returned (r : ssh_err) (st : state)
| Exited (msg : string) (st : state).

Definition set_kex (v : Kex) (s : state) : state :=
  {| kex := v; server_key := server_key s; client_public := client_public s;
     shared_secret := shared_secret s;
     server_host_key_blob := server_host_key_blob s; signature := signature s;
     kbuf := kbuf s; klen := klen s; hash := hash s; trace := trace s |}.
Definition set_server_key (v : cell EC_KEY) (s : state) : state :=
  {| kex := kex s; server_key := v; client_public := client_public s;
     shared_secret := shared_secret s;
     server_host_key_blob := server_host_key_blob s; signature := signature s;
     kbuf := kbuf s; klen := klen s; hash := hash s; trace := trace s |}.
Definition set_client_public (v : option EC_POINT) (s : state) : state :=
  {| kex := kex s; server_key := server_key s; client_public := v;
     shared_secret := shared_secret s;
     server_host_key_blob := server_host_key_blob s; signature := signature s;
     kbuf := kbuf s; klen := klen s; hash := hash s; trace := trace s |}.
Definition set_shared_secret (v : cell Z) (s : state) : state :=
  {| kex := kex s; server_key := server_key s; client_public := client_public s;
     shared_secret := v;
     server_host_key_blob := server_host_key_blob s; signature := signature s;
     kbuf := kbuf s; klen := klen s; hash := hash s; trace := trace s |}.
Definition set_server_host_key_blob (v : cell (list byte)) (s : state) : state :=
  {| kex := kex s; server_key := server_key s; client_public := client_public s;
     shared_secret := shared_secret s;
     server_host_key_blob := v; signature := signature s;
     kbuf := kbuf s; klen := klen s; hash := hash s; trace := trace s |}.
Definition set_signature (v : cell (list byte)) (s : state) : state :=
  {| kex := kex s; server_key := server_key s; client_public := client_public s;
     shared_secret := shared_secret s;
     server_host_key_blob := server_host_key_blob s; signature := v;
     kbuf := kbuf s; klen := klen s; hash := hash s; trace := trace s |}.
Definition set_kbuf (v : cell (list byte)) (s : state) : state :=
  {| kex := kex s; server_key := server_key s; client_public := client_public s;
     shared_secret := shared_secret s;
     server_host_key_blob := server_host_key_blob s; signature := signature s;
     kbuf := v; klen := klen s; hash := hash s; trace := trace s |}.
Definition set_klen (v : nat) (s : state) : state :=
  {| kex := kex s; server_key := server_key s; client_public := client_public s;
     shared_secret := shared_secret s;
     server_host_key_blob := server_host_key_blob s; signature := signature s;
     kbuf := kbuf s; klen := v; hash := hash s; trace := trace s |}.
Definition set_hash (v : option (list byte)) (s : state) : state :=
  {| kex := kex s; server_key := server_key s; client_public := client_public s;
     shared_secret := shared_secret s;
     server_host_key_blob := server_host_key_blob s; signature := signature s;
     kbuf := kbuf s; klen := klen s; hash := v; trace := trace s |}.
Definition set_trace (v : list event) (s : state) : state :=
  {| kex := kex s; server_key := server_key s; client_public := client_public s;
     shared_secret := shared_secret s;
     server_host_key_blob := server_host_key_blob s; signature := signature s;
     kbuf := kbuf s; klen := klen s; hash := hash s; trace := v |}.

Definition set_session_id (v : option (list byte)) (k : Kex) : Kex :=
  {| name := name k; evp_md := evp_md k; hostkey_type := hostkey_type k;
     client_version_string := client_version_string k;
     server_version_string := server_version_string k;
     peer := peer k; my := my k; session_id := v;
     ec_client_key := ec_client_key k;
     load_host_public_key := load_host_public_key k;
     load_host_private_key := load_host_private_key k |}.
Definition set_ec_client_key (v : cell EC_KEY) (k : Kex) : Kex :=
  {| name := name k; evp_md := evp_md k; hostkey_type := hostkey_type k;
     client_version_string := client_version_string k;
     server_version_string := server_version_string k;
     peer := peer k; my := my k; session_id := session_id k;
     ec_client_key := v;
     load_host_public_key := load_host_public_key k;
     load_host_private_key := load_host_private_key k |}.

Abbreviation K := (SE.M state early).

Definition goto_out {A} (r : ssh_err) : K A := SE.exit (GotoOut r).
Definition fatal {A} (msg : string) : K A := SE.exit (Fatal msg).
Definition emit (ev : event) : K unit :=
  SE.modify (λ s, set_trace (trace s ++ [ev]) s).

(** [if ((r = call) != 0) goto out;] *)
Definition try (r : ssh_err) : K unit :=
  if decide (r = SSH_ERR_SUCCESS) then mret tt else goto_out r.

(** Modelled from the spec: sshkey_ec_validate_public (key.c is not among the
    sources); "rejects the point at infinity, coordinates not in [0, p-1],
    and points not on the curve".  The range and curve-equation test of the
    group is [e_on_curve]. *)
Definition sshkey_ec_validate_public (e : Env) (group : curve) (Q : EC_POINT)
  : bool :=
  match Q with
  | Infinity => false
  | Affine x y => e_on_curve e group x y
  end.

(** Modelled from the spec: the buffer that kex_ecdh_hash digests (kexecdh.c
    is not among the sources); "enc is the concatenation of the following
    fields in order: string V_C, string V_S, string I_C, string I_S,
    string K_S, string Q_C, string Q_S, mpint K". *)
Definition kex_ecdh_hash_input (group : curve)
    (client_version_string server_version_string : string)
    (ckexinit skexinit serverhostkeyblob : list byte)
    (client_dh_pub server_dh_pub : EC_POINT) (shared_secret : Z) : list byte :=
  let klen := Z.to_nat ((EC_GROUP_get_degree group + 7) / 8) in
  put_cstring client_version_string ++
  put_cstring server_version_string ++
  put_string ckexinit ++
  put_string skexinit ++
  put_string serverhostkeyblob ++
  put_ec klen client_dh_pub ++
  put_ec klen server_dh_pub ++
  put_bignum2 shared_secret.

(** The statements of [input_kex_ecdh_init] from its first line to [r = 0]
    before the label [out]. *)
Definition input_kex_ecdh_init_body (e : Env) : K ssh_err :=
  k ← SE.gets kex;
  match kex_ecdh_name_to_nid (name k) with
  | None => goto_out SSH_ERR_INVALID_ARGUMENT
  | Some curve_nid =>
  (if e_EC_KEY_new e
   then SE.modify (set_server_key
          (Live {| ek_group := curve_nid; ek_priv := Null; ek_pub := None |}))
   else goto_out SSH_ERR_ALLOC_FAIL);;
  emit (EvGenerateKey curve_nid);;
  match e_EC_KEY_generate_key e with
  | None => goto_out SSH_ERR_LIBCRYPTO_ERROR
  | Some (priv, pub) =>
  SE.modify (set_server_key
    (Live {| ek_group := curve_nid; ek_priv := Live priv; ek_pub := Some pub |}));;
  let group := curve_nid in
  match load_host_public_key k, load_host_private_key k with
  | Some load_public, Some load_private =>
  match load_public (hostkey_type k) with
  | None => goto_out SSH_ERR_KEY_TYPE_MISMATCH
  | Some server_host_public =>
  match load_private (hostkey_type k) with
  | None => goto_out SSH_ERR_KEY_TYPE_MISMATCH
  | Some server_host_private =>
  (if e_EC_POINT_new e then SE.modify (set_client_public (Some Infinity))
   else goto_out SSH_ERR_ALLOC_FAIL);;
  try (fst (e_sshpkt_get_ec e));;
  let Q_C := snd (e_sshpkt_get_ec e) in
  SE.modify (set_client_public (Some Q_C));;
  try (e_sshpkt_get_end e);;
  let valid := sshkey_ec_validate_public e group Q_C in
  emit (EvValidatePublic Q_C valid);;
  (if valid then mret tt
   else emit (EvDisconnect "invalid client public key");;
        goto_out SSH_ERR_MESSAGE_INCOMPLETE);;
  (* Calculate shared_secret *)
  let len := Z.to_nat ((EC_GROUP_get_degree group + 7) / 8) in
  SE.modify (set_klen len);;
  match e_malloc_kbuf e with
  | None => goto_out SSH_ERR_ALLOC_FAIL
  | Some junk =>
  SE.modify (set_kbuf (Live (replicate len junk)));;
  (if e_BN_new e then SE.modify (set_shared_secret (Live 0))
   else goto_out SSH_ERR_ALLOC_FAIL);;
  emit (EvComputeKey Q_C);;
  match e_ECDH_compute_key e priv Q_C with
  | None => goto_out SSH_ERR_LIBCRYPTO_ERROR
  | Some secret =>
  let written := take len secret in
  let buf := written ++ drop (length written) (replicate len junk) in
  SE.modify (set_kbuf (Live buf));;
  (if decide (length written = len) then mret tt
   else goto_out SSH_ERR_LIBCRYPTO_ERROR);;
  (if e_BN_bin2bn e then SE.modify (set_shared_secret (Live (BN_bin2bn buf)))
   else goto_out SSH_ERR_LIBCRYPTO_ERROR);;
  let K_ := BN_bin2bn buf in
  (* calc H *)
  try (fst (e_sshkey_to_blob e server_host_public));;
  let blob := snd (e_sshkey_to_blob e server_host_public) in
  SE.modify (set_server_host_key_blob (Live blob));;
  try (e_kex_ecdh_hash e);;
  let enc := kex_ecdh_hash_input group
               (client_version_string k) (server_version_string k)
               (peer k) (my k) blob Q_C pub K_ in
  let H := e_digest e (evp_md k) enc in
  emit (EvHash (evp_md k) enc);;
  SE.modify (set_hash (Some H));;
  (* save session id := H *)
  (match session_id k with
   | None =>
       if e_malloc_session_id e
       then SE.modify (λ s, set_kex (set_session_id (Some H) (kex s)) s)
       else goto_out SSH_ERR_ALLOC_FAIL
   | Some _ => mret tt
   end);;
  (* sign H *)
  emit (EvSign H);;
  match e_sshkey_sign e server_host_private H with
  | None => fatal "kexdh_server: sshkey_sign failed"
  | Some sig =>
  SE.modify (set_signature (Live sig));;
  (* send server hostkey, ECDH pubkey 'Q_S' and signed H *)
  try (e_sshpkt_start e);;
  try (e_sshpkt_put_blob e);;
  try (e_sshpkt_put_ec e);;
  try (e_sshpkt_put_signature e);;
  try (e_sshpkt_send e);;
  emit (EvSend SSH2_MSG_KEX_ECDH_REPLY
          (put_string blob ++ put_ec len pub ++ put_string sig));;
  (* have keys *)
  emit (EvDeriveKeys H K_);;
  emit EvFinish;;
  mret SSH_ERR_SUCCESS
  end end end end end
  | _, _ => goto_out SSH_ERR_INVALID_ARGUMENT
  end end end.

(** The statements after the label [out]. *)
Definition out (s : state) : state :=
  let s := set_kex (set_ec_client_key
                      (match ec_client_key (kex s) with
                       | Live _ => Null
                       | c => c
                       end) (kex s)) s in
  let s := set_server_host_key_blob (free (server_host_key_blob s)) s in
  let s := set_server_key (EC_KEY_free (server_key s)) s in
  let s := set_kbuf (match kbuf s with
                     | Live b => Released (bzero b (klen s))
                     | c => c
                     end) s in
  let s := set_shared_secret (BN_clear_free (shared_secret s)) s in
  set_signature (free (signature s)) s.

Definition init (k : Kex) : state :=
  {| kex := k; server_key := Null; client_public := None;
     shared_secret := Null; server_host_key_blob := Null; signature := Null;
     kbuf := Null; klen := 0; hash := None; trace := [] |}.

(** [input_kex_ecdh_init(type, seq, ssh)] on [ssh->kex = k]; the message type
    and the sequence number are not used by the function. *)
Definition input_kex_ecdh_init (e : Env) (k : Kex) : outcome :=
  match input_kex_ecdh_init_body e (init k) with
  | (inr r, s) => Returned r (out s)
  | (inl (GotoOut r), s) => Returned r (out s)
  | (inl (Fatal msg), s) => Exited msg s
  end.

Definition final (o : outcome) : state :=
  match o with
  | Returned _ st => st
  | Exited _ st => st
  end.

(** Successive KEX_ECDH_INIT messages handled on one connection, the Kex of
    one run being the Kex of the next. *)
Definition handshakes (k : Kex) (es : list Env) : Kex :=
  fold_left (λ k e, kex (final (input_kex_ecdh_init e k))) es k.

(** *** What the cleanup is to achieve *)

(** A buffer of secret bytes is gone: never allocated, or released with only
    zero bytes left in it. *)
Definition wiped_bytes (c : cell (list byte)) : Prop :=
  match c with
  | Null => True
  | Live _ => False
  | Released residue => Forall (λ x, x = x00) residue
  end.

Definition wiped_bn (c : cell Z) : Prop :=
  match c with
  | Null => True
  | Live _ => False
  | Released residue => residue = 0
  end.

Definition wiped_key (c : cell EC_KEY) : Prop :=
  match c with
  | Null => True
  | Live _ => False
  | Released key => wiped_bn (ek_priv key)
  end.

Definition released {A} (c : cell A) : Prop :=
  match c with
  | Live _ => False
  | _ => True
  end.

Definition cleaned_up (st : state) : Prop :=
  wiped_bytes (kbuf st) ∧ wiped_bn (shared_secret st)
  ∧ wiped_key (server_key st)
  ∧ released (server_host_key_blob st) ∧ released (signature st).

(** The exchange hash [H] of a run, spelled out field by field. *)
Definition hash_fields (e : Env) (k : Kex) (H : list byte) : Prop :=
  ∃ group md load_public host_public priv Q_S secret,
    kex_ecdh_name_to_nid (name k) = Some group
    ∧ kex_ecdh_name_to_evpmd (name k) = Some md
    ∧ load_host_public_key k = Some load_public
    ∧ load_public (hostkey_type k) = Some host_public
    ∧ e_EC_KEY_generate_key e = Some (priv, Q_S)
    ∧ e_ECDH_compute_key e priv (e_sshpkt_get_ec e).2 = Some secret
    ∧ let klen := Z.to_nat ((EC_GROUP_get_degree group + 7) / 8) in
      let V_C := client_version_string k in
      let V_S := server_version_string k in
      let I_C := peer k in
      let I_S := my k in
      let K_S := (e_sshkey_to_blob e host_public).2 in
      let Q_C := (e_sshpkt_get_ec e).2 in
      let K := BN_bin2bn (take klen secret) in
      H = e_digest e md
            (put_cstring V_C ++ put_cstring V_S ++ put_string I_C ++
             put_string I_S ++ put_string K_S ++ put_ec klen Q_C ++
             put_ec klen Q_S ++ put_bignum2 K).

(** *** What a run of the handler did *)

(** The calls of a run that ends in success, in the order of the code. *)
Definition reply_trace (e : Env) (k : Kex) (group : curve) (Q_S : EC_POINT)
    (blob H sig : list byte) (K_ : Z) : list event :=
  let Q_C := (e_sshpkt_get_ec e).2 in
  let klen := Z.to_nat ((EC_GROUP_get_degree group + 7) / 8) in
  [EvGenerateKey group;
   EvValidatePublic Q_C true;
   EvComputeKey Q_C;
   EvHash (evp_md k)
     (kex_ecdh_hash_input group (client_version_string k)
        (server_version_string k) (peer k) (my k) blob Q_C Q_S K_);
   EvSign H;
   EvSend SSH2_MSG_KEX_ECDH_REPLY
     (put_string blob ++ put_ec klen Q_S ++ put_string sig);
   EvDeriveKeys H K_;
   EvFinish].

(** The run returned [r] right after the server key pair was generated:
    nothing was read from the packet, hashed or signed, and the key pair is
    wiped. *)
Definition stopped_after_keygen (o : outcome) (group : curve) (r : ssh_err)
  : Prop :=
  ∃ st, o = Returned r st ∧ trace st = [EvGenerateKey group]
        ∧ client_public st = None ∧ hash st = None ∧ signature st = Null
        ∧ wiped_key (server_key st).

(** [ECDH_compute_key(kbuf, klen, Q, key, NULL) != (int)klen]: the call
    fails or yields fewer than [klen] octets. *)
Definition ECDH_short (e : Env) (priv : Z) (Q : EC_POINT) (klen : nat) : Prop :=
  match e_ECDH_compute_key e priv Q with
  | Some secret => (length secret < klen)%nat
  | None => True
  end.

End Kex.

(** ** Proxy session engine ([ssh-proxy.c]) *)
Module Proxy.

Record packet := { p_type : Z; p_data : list byte }.

(** Modelled from the spec: the transport engine behind [struct ssh *]
    (ssh_api.c is not among the sources), by the interface the proxy uses:
    input_append feeds input, packet_get returns one packet if available,
    packet_put enqueues a packet, output_ptr lends the outbound window,
    output_consume advances it.  [inq] holds the packets that the input
    appended so far makes available, [put_log] every packet enqueued so far,
    [olen] the length of the outbound window. *)
Record engine := {
  is_server : bool;
  hostkey : option (list byte);
  inq : list packet;
  payload : list byte;
  put_log : list packet;
  olen : Z
}.

Definition ssh_init (is_server : bool) : engine :=
  {| is_server := is_server; hostkey := None; inq := []; payload := [];
     put_log := []; olen := 0 |}.

Definition ssh_add_hostkey (e : engine) (key : list byte) : engine :=
  {| is_server := is_server e; hostkey := Some key; inq := inq e;
     payload := payload e; put_log := put_log e; olen := olen e |}.

Definition ssh_input_append (e : engine) (pkts : list packet) : engine :=
  {| is_server := is_server e; hostkey := hostkey e; inq := inq e ++ pkts;
     payload := payload e; put_log := put_log e; olen := olen e |}.

(** The type of the next packet, or 0 when there is none. *)
Definition ssh_packet_get (e : engine) : Z * engine :=
  match inq e with
  | [] => (0, e)
  | p :: rest =>
      (p_type p,
       {| is_server := is_server e; hostkey := hostkey e; inq := rest;
          payload := p_data p; put_log := put_log e; olen := olen e |})
  end.

Definition ssh_packet_payload (e : engine) : list byte := payload e.

(** The outbound window grows by the framed packet: at least the length
    field, the type octet and the payload. *)
Definition ssh_packet_put (e : engine) (type : Z) (data : list byte) : engine :=
  {| is_server := is_server e; hostkey := hostkey e; inq := inq e;
     payload := payload e;
     put_log := put_log e ++ [{| p_type := type; p_data := data |}];
     olen := olen e + 5 + Z.of_nat (length data) |}.

Definition ssh_output_consume (e : engine) (len : Z) : engine :=
  {| is_server := is_server e; hostkey := hostkey e; inq := inq e;
     payload := payload e; put_log := put_log e; olen := olen e - len |}.

(** [struct side]; [input] and [output] tell whether the event is pending in
    the event base. *)
Record side := { fd : Z; input : bool; output : bool; ssh : option engine }.

Record session := { client : side; server : side; connected : Z }.

Inductive which := Client | Server.
Inductive evkind := Input | Output.

Global Instance which_eq_dec : EqDecision which.
Proof. solve_decision. Defined.
Global Instance evkind_eq_dec : EqDecision evkind.
Proof. solve_decision. Defined.

Definition other (d : which) : which :=
  match d with Client => Server | Server => Client end.

Definition get_side (d : which) (x : session) : side :=
  match d with Client => client x | Server => server x end.

Definition set_side (d : which) (v : side) (x : session) : session :=
  match d with
  | Client => {| client := v; server := server x; connected := connected x |}
  | Server => {| client := client x; server := v; connected := connected x |}
  end.

Definition set_connected (v : Z) (x : session) : session :=
  {| client := client x; server := server x; connected := v |}.

Definition set_fd (v : Z) (sd : side) : side :=
  {| fd := v; input := input sd; output := output sd; ssh := ssh sd |}.
Definition set_ssh (v : option engine) (sd : side) : side :=
  {| fd := fd sd; input := input sd; output := output sd; ssh := v |}.
Definition set_event (k : evkind) (v : bool) (sd : side) : side :=
  match k with
  | Input => {| fd := fd sd; input := v; output := output sd; ssh := ssh sd |}
  | Output => {| fd := fd sd; input := input sd; output := v; ssh := ssh sd |}
  end.

(** Releases of resources, in the order they happen. *)
Inductive action :=
| Close (fd : Z)
| EventDel (s : positive) (d : which) (k : evkind)
| SshFree (s : positive) (d : which)
| TailqRemove (s : positive)
| Xfree (s : positive).

Global Instance action_eq_dec : EqDecision action.
Proof. solve_decision. Defined.

(** The process: the session records that are allocated, by address; the
    global list [sessions]; the open descriptors; the listener's event; the
    two global key buffers; the releases made so far. *)
Record world := {
  heap : gmap positive session;
  sessions : list positive;
  open_fds : gset Z;
  listener : bool;
  keybuf : list byte;
  known_keybuf : list byte;
  log : list action
}.

Definition set_heap (v : gmap positive session) (w : world) : world :=
  {| heap := v; sessions := sessions w; open_fds := open_fds w;
     listener := listener w; keybuf := keybuf w;
     known_keybuf := known_keybuf w; log := log w |}.
Definition set_sessions (v : list positive) (w : world) : world :=
  {| heap := heap w; sessions := v; open_fds := open_fds w;
     listener := listener w; keybuf := keybuf w;
     known_keybuf := known_keybuf w; log := log w |}.
Definition set_open_fds (v : gset Z) (w : world) : world :=
  {| heap := heap w; sessions := sessions w; open_fds := v;
     listener := listener w; keybuf := keybuf w;
     known_keybuf := known_keybuf w; log := log w |}.
Definition set_listener (v : bool) (w : world) : world :=
  {| heap := heap w; sessions := sessions w; open_fds := open_fds w;
     listener := v; keybuf := keybuf w;
     known_keybuf := known_keybuf w; log := log w |}.
Definition set_log (v : list action) (w : world) : world :=
  {| heap := heap w; sessions := sessions w; open_fds := open_fds w;
     listener := listener w; keybuf := keybuf w;
     known_keybuf := known_keybuf w; log := v |}.

(** Why a callback does not run to its end: [fatal] ends the process, or the
    callback touches a session record that was freed, or an engine pointer
    that is NULL. *)
Inductive abort :=
| ProcessFatal (msg : string)
| UseAfterFree (s : positive)
| NullEngine (s : positive) (d : which).

Abbreviation P := (SE.M world abort).

Definition fatal {A} (msg : string) : P A := SE.exit (ProcessFatal msg).
Definition record (a : action) : P unit :=
  SE.modify (λ w, set_log (log w ++ [a]) w).

(** Reading [*s]. *)
Definition deref (s : positive) : P session :=
  λ w, match heap w !! s with
       | Some x => (inr x, w)
       | None => (inl (UseAfterFree s), w)
       end.

(** Writing through [s]. *)
Definition update (s : positive) (f : session → session) : P unit :=
  x ← deref s;
  SE.modify (λ w, set_heap (<[s := f x]> (heap w)) w).

(** xcalloc(1, sizeof(struct session)): a new record at an address not in
    use, all fields zero. *)
Definition xcalloc : P positive :=
  λ w, let s := fresh (dom (heap w)) in
       let zero := {| fd := 0; input := false; output := false; ssh := None |} in
       (inr s, set_heap (<[s := {| client := zero; server := zero;
                                   connected := 0 |}]> (heap w)) w).

Definition xfree (s : positive) : P unit :=
  deref s;;
  SE.modify (λ w, set_heap (delete s (heap w)) w);;
  record (Xfree s).

(** A descriptor handed out by accept or socket. *)
Definition opened (fd : Z) : P unit :=
  SE.modify (λ w, set_open_fds ({[fd]} ∪ open_fds w) w).

Definition close (fd : Z) : P unit :=
  SE.modify (λ w, set_open_fds (open_fds w ∖ {[fd]}) w);;
  record (Close fd).

Definition event_add (s : positive) (d : which) (k : evkind) : P unit :=
  update s (λ x, set_side d (set_event k true (get_side d x)) x).

Definition event_del (s : positive) (d : which) (k : evkind) : P unit :=
  update s (λ x, set_side d (set_event k false (get_side d x)) x);;
  record (EventDel s d k).

(** [if (s->d.ssh) { ssh_free(s->d.ssh); s->d.ssh = NULL; }] *)
Definition free_engine (s : positive) (d : which) : P unit :=
  x ← deref s;
  match ssh (get_side d x) with
  | Some _ =>
      record (SshFree s d);;
      update s (λ x, set_side d (set_ssh None (get_side d x)) x)
  | None => mret tt
  end.

Definition TAILQ_REMOVE (s : positive) : P unit :=
  SE.modify (λ w, set_sessions (filter (λ t, t ≠ s) (sessions w)) w);;
  record (TailqRemove s).

Definition TAILQ_INSERT_TAIL (s : positive) : P unit :=
  SE.modify (λ w, set_sessions (sessions w ++ [s]) w).

Definition session_close (s : positive) : P unit :=
  x ← deref s;
  SE.when (bool_decide (fd (client x) ≠ -1)) (close (fd (client x)));;
  SE.when (bool_decide (fd (server x) ≠ -1)) (close (fd (server x)));;
  SE.when (bool_decide (connected x = 1))
    (event_del s Client Input;;
     event_del s Client Output;;
     event_del s Server Input;;
     event_del s Server Output;;
     free_engine s Client;;
     free_engine s Server;;
     TAILQ_REMOVE s);;
  xfree s.

(** One entry of the getaddrinfo result as [do_connect] meets it: whether
    the family is AF_INET or AF_INET6, and what socket, fcntl and connect
    return for it ([ai_EINPROGRESS]: errno after connect is EINPROGRESS). *)
Record addrinfo := {
  ai_inet : bool;
  ai_socket : Z;
  ai_fcntl : Z;
  ai_connect : Z;
  ai_EINPROGRESS : bool
}.

(** The [for] loop of [do_connect] followed by [if (!ai) return -1]. *)
Fixpoint do_connect_loop (ais : list addrinfo) : P Z :=
  match ais with
  | [] => mret (-1)
  | ai :: rest =>
      if negb (ai_inet ai) then do_connect_loop rest
      else if decide (ai_socket ai < 0) then do_connect_loop rest
      else
        opened (ai_socket ai);;
        if decide (ai_fcntl ai < 0)
        then close (ai_socket ai);; do_connect_loop rest
        else if bool_decide (ai_connect ai < 0) && negb (ai_EINPROGRESS ai)
        then close (ai_socket ai);; do_connect_loop rest
        else mret (ai_socket ai)
  end.

(** [do_connect(addr, port)]; [None] is a getaddrinfo error. *)
Definition do_connect (gai : option (list addrinfo)) : P Z :=
  match gai with
  | None => mret (-1)
  | Some ais => do_connect_loop ais
  end.

(** What the kernel answers during one [accept_cb]. *)
Record accept_env := {
  a_accept : Z;
  a_fcntl : Z;
  a_getaddrinfo : option (list addrinfo)
}.

(** The statements after the label [fail] of [accept_cb]. *)
Definition accept_fail (s : positive) : P unit :=
  x ← deref s;
  SE.when (bool_decide (fd (client x) ≠ -1)) (close (fd (client x)));;
  xfree s.

Definition accept_cb (e : accept_env) : P unit :=
  s ← xcalloc;
  update s (set_connected 0);;
  update s (λ x, set_side Server (set_fd (-1) (server x)) x);;
  update s (λ x, set_side Client (set_fd (-1) (client x)) x);;
  update s (λ x, set_side Server (set_ssh None (server x)) x);;
  update s (λ x, set_side Client (set_ssh None (client x)) x);;
  SE.modify (set_listener true);;
  SE.when (bool_decide (0 ≤ a_accept e)) (opened (a_accept e));;
  update s (λ x, set_side Client (set_fd (a_accept e) (client x)) x);;
  if decide (a_accept e < 0) then fatal "accept"
  else if decide (a_fcntl e < 0) then accept_fail s
  else
    r ← do_connect (a_getaddrinfo e);
    update s (λ x, set_side Server (set_fd r (server x)) x);;
    if decide (r < 0) then accept_fail s
    else event_add s Server Output.

(** [ssh_input_append(r->ssh, buf, len)] and the like: a call through the
    engine pointer of one side. *)
Definition with_engine (s : positive) (d : which) (f : engine → engine)
  : P unit :=
  x ← deref s;
  match ssh (get_side d x) with
  | Some e => update s (λ x, set_side d (set_ssh (Some (f e)) (get_side d x)) x)
  | None => SE.exit (NullEngine s d)
  end.

(** What the kernel and the engine answer during one [connect_cb]. *)
Record connect_env := {
  c_getsockopt : Z;
  c_SO_ERROR : Z;
  c_errno : Z;
  c_add_hostkey_client : Z;
  c_add_hostkey_server : Z
}.

Definition connect_cb (e : connect_env) (s : positive) : P unit :=
  event_del s Server Output;;
  let soerr := if decide (c_getsockopt e < 0) then c_errno e
               else c_SO_ERROR e in
  if decide (soerr ≠ 0) then
    x ← deref s;
    close (fd (server x));;
    update s (λ x, set_side Server (set_fd (-1) (server x)) x);;
    session_close s
  else
    update s (λ x, set_side Client (set_ssh (Some (ssh_init true)) (client x)) x);;
    update s (λ x, set_side Server (set_ssh (Some (ssh_init false)) (server x)) x);;
    kb ← SE.gets keybuf;
    (if decide (c_add_hostkey_client e < 0)
     then fatal "could not load server hostkey"
     else with_engine s Client (λ e, ssh_add_hostkey e kb));;
    kkb ← SE.gets known_keybuf;
    (if decide (c_add_hostkey_server e < 0)
     then fatal "could not load client hostkey"
     else with_engine s Server (λ e, ssh_add_hostkey e kkb));;
    event_add s Server Input;;
    event_add s Client Input;;
    update s (set_connected 1);;
    TAILQ_INSERT_TAIL s.

Definition ssh_packet_fwd (s : positive) (from to : which) : P unit :=
  x ← deref s;
  match ssh (get_side from x), ssh (get_side to x) with
  | Some ef, Some et =>
      let ef' := snd (ssh_packet_get ef) in
      let type := fst (ssh_packet_get ef) in
      let et' := if decide (type ≠ 0)
                 then ssh_packet_put et type (ssh_packet_payload ef')
                 else et in
      update s (λ x, set_side from (set_ssh (Some ef') (get_side from x)) x);;
      update s (λ x, set_side to (set_ssh (Some et') (get_side to x)) x);;
      SE.when (bool_decide (olen ef' ≠ 0)) (event_add s from Output);;
      SE.when (bool_decide (olen et' ≠ 0)) (event_add s to Output)
  | _, _ => mret tt
  end.

(** What [read] or [write] returns: the length, whether errno is EINTR or
    EAGAIN, and for a read of [len > 0] bytes the packets that these bytes
    complete in the reader's engine. *)
Record io_ret := { io_len : Z; io_again : bool; io_packets : list packet }.

Definition input_cb (fd_ : Z) (rd : io_ret) (s : positive) : P unit :=
  x ← deref s;
  let r := if decide (fd_ = fd (client x)) then Client else Server in
  let w := other r in
  if bool_decide (io_len rd < 0) && io_again rd then
    event_add s r Input;;
    ssh_packet_fwd s r w;;
    ssh_packet_fwd s w r
  else if decide (io_len rd ≤ 0) then
    session_close s
  else
    event_add s r Input;;
    with_engine s r (λ e, ssh_input_append e (io_packets rd));;
    ssh_packet_fwd s r w;;
    ssh_packet_fwd s w r.

(** A pattern of 64 bits read as [ssize_t]. *)
Definition to_ssize (v : Z) : Z :=
  let u := Z.land v (Z.ones 64) in
  if decide (u < 2 ^ 63) then u else u - 2 ^ 64.

(** [olen] of [output_cb] when it is tested.  The variable is an [ssize_t],
    64 bits wide, and is not initialized; ssh_output_ptr is handed its
    address cast to a pointer to [u_int] and stores the length of the
    window there, in 32 bits: on a little-endian machine these are the low
    four octets of [olen].  The upper four octets keep what the stack slot
    held when the callback was entered, [slot]. *)
Definition olen_read (slot : Z) (e : engine) : Z :=
  to_ssize (Z.lor (Z.land slot (Z.shiftl (Z.ones 32) 32))
                  (Z.land (olen e) (Z.ones 32))).

(** [slot] is the content of the stack slot of [olen] on entry, [wr] what
    [write] returns if it is called. *)
Definition output_cb (fd_ : Z) (slot : Z) (wr : io_ret) (s : positive)
  : P unit :=
  x ← deref s;
  let w := if decide (fd_ = fd (client x)) then Client else Server in
  let r := other w in
  match ssh (get_side w x) with
  | None => SE.exit (NullEngine s w)
  | Some e =>
      let olen := olen_read slot e in
      if decide (0 < olen) then
        (* len = write(fd, obuf, olen) *)
        if bool_decide (io_len wr < 0) && io_again wr then
          event_add s w Output;;
          ssh_packet_fwd s r w;;
          ssh_packet_fwd s w r
        else if decide (io_len wr ≤ 0) then
          session_close s
        else if decide (io_len wr < olen) then
          with_engine s w (λ e, ssh_output_consume e (io_len wr));;
          ssh_packet_fwd s r w;;
          ssh_packet_fwd s w r
        else
          with_engine s w (λ e, ssh_output_consume e (io_len wr));;
          ssh_packet_fwd s r w;;
          ssh_packet_fwd s w r
      else
        ssh_packet_fwd s r w;;
        ssh_packet_fwd s w r
  end.

(** An I/O notification for a connected session, with what the callback
    finds outside the session: the result of the read, or the content of
    the stack slot of [olen] and the result of the write.  The events are
    not persistent: the event base drops one before it runs its callback. *)
Inductive io_event :=
| Readable (fd : Z) (rd : io_ret)
| Writable (fd : Z) (slot : Z) (wr : io_ret).

Definition deliver (s : positive) (ev : io_event) : P unit :=
  x ← deref s;
  match ev with
  | Readable fd_ rd =>
      let d := if decide (fd_ = fd (client x)) then Client else Server in
      update s (λ x, set_side d (set_event Input false (get_side d x)) x);;
      input_cb fd_ rd s
  | Writable fd_ slot wr =>
      let d := if decide (fd_ = fd (client x)) then Client else Server in
      update s (λ x, set_side d (set_event Output false (get_side d x)) x);;
      output_cb fd_ slot wr s
  end.

(** The event loop as far as one session is concerned. *)
Fixpoint event_dispatch (s : positive) (evs : list io_event) : P unit :=
  match evs with
  | [] => mret tt
  | ev :: rest => deliver s ev;; event_dispatch s rest
  end.

(** The packets that the reads for side [d] made available, [cfd] being the
    client's descriptor: a callback takes any other descriptor for the
    server's. *)
Definition arrived (d : which) (cfd : Z) (evs : list io_event) : list packet :=
  concat (omap (λ ev,
    match ev with
    | Readable f rd =>
        if decide ((if decide (f = cfd) then Client else Server) = d
                   ∧ 0 < io_len rd)
        then Some (io_packets rd) else None
    | Writable _ _ _ => None
    end) evs).

(** The number of packets that wait in the engine of side [d] after the
    events [evs], when [n] waited before: each event first adds what its
    read made available to [d], then one packet is forwarded if one
    waits. *)
Fixpoint queued (d : which) (cfd : Z) (n : nat) (evs : list io_event) : nat :=
  match evs with
  | [] => n
  | ev :: rest =>
      queued d cfd (Nat.pred (n + length (arrived d cfd [ev]))) rest
  end.

(** *** Teardown *)

(** The releases that [session_close] makes for the record [x] at [s]. *)
Definition teardown (s : positive) (x : session) : list action :=
  (if decide (fd (client x) ≠ -1) then [Close (fd (client x))] else []) ++
  (if decide (fd (server x) ≠ -1) then [Close (fd (server x))] else []) ++
  (if decide (connected x = 1)
   then [EventDel s Client Input; EventDel s Client Output;
         EventDel s Server Input; EventDel s Server Output] ++
        (if ssh (client x) is Some _ then [SshFree s Client] else []) ++
        (if ssh (server x) is Some _ then [SshFree s Server] else []) ++
        [TailqRemove s]
   else []) ++
  [Xfree s].

Definition closed_fds (x : session) : gset Z :=
  (if decide (fd (client x) ≠ -1) then {[fd (client x)]} else ∅) ∪
  (if decide (fd (server x) ≠ -1) then {[fd (server x)]} else ∅).

(** The order of the code: sockets, events, engines, list, record. *)
Definition teardown_phase (a : action) : nat :=
  match a with
  | Close _ => 0
  | EventDel _ _ _ => 1
  | SshFree _ _ => 2
  | TailqRemove _ => 3
  | Xfree _ => 4
  end.

(** The order of the specification: events, engines, sockets, list. *)
Definition spec_teardown_phase (a : action) : nat :=
  match a with
  | EventDel _ _ _ => 0
  | SshFree _ _ => 1
  | Close _ => 2
  | TailqRemove _ => 3
  | Xfree _ => 4
  end.

Fixpoint ordered (l : list nat) : bool :=
  match l with
  | a :: (b :: _) as t => (a <=? b)%nat && ordered t
  | _ => true
  end.

(** *** Failures of session setup *)

(** An addrinfo entry on which [do_connect] does not succeed. *)
Definition ai_fails (ai : addrinfo) : bool :=
  negb (ai_inet ai) || bool_decide (ai_socket ai < 0)
  || bool_decide (ai_fcntl ai < 0)
  || (bool_decide (ai_connect ai < 0) && negb (ai_EINPROGRESS ai)).

Definition do_connect_fails (gai : option (list addrinfo)) : Prop :=
  match gai with
  | None => True
  | Some ais => forallb ai_fails ais = true
  end.

(** The kernel hands out descriptors that are not open. *)
Definition sockets_fresh (gai : option (list addrinfo)) (fds : gset Z) : Prop :=
  match gai with
  | None => True
  | Some ais => Forall (λ ai, ai_socket ai ∉ fds) ais
  end.

(** [soerr] of [connect_cb] after the getsockopt call. *)
Definition connect_soerr (e : connect_env) : Z :=
  if decide (c_getsockopt e < 0) then c_errno e else c_SO_ERROR e.

Definition zero_session : session :=
  let zero := {| fd := 0; input := false; output := false; ssh := None |} in
  {| client := zero; server := zero; connected := 0 |}.

(** *** Forwarding *)

(** The world with the record at [s] replaced by [x]. *)
Definition put (s : positive) (x : session) (w : world) : world :=
  set_heap (<[s := x]> (heap w)) w.

Definition eng (d : which) (x : session) : option engine := ssh (get_side d x).

Definition engine_of (s : positive) (d : which) (w : world) : option engine :=
  heap w !! s ≫= eng d.

(** One [ssh_packet_fwd(from, to)] on the two engines. *)
Definition fwd_engines (ef et : engine) : engine * engine :=
  let g := ssh_packet_get ef in
  (g.2, if decide (g.1 ≠ 0)
        then ssh_packet_put et g.1 (ssh_packet_payload g.2) else et).

(** [ssh_packet_fwd(r, w); ssh_packet_fwd(w, r);] on the two engines. *)
Definition fwd_both (er ew : engine) : engine * engine :=
  let p := fwd_engines er ew in
  let q := fwd_engines p.2 p.1 in
  (q.2, q.1).

(** SSH has no message number 0; [ssh_packet_get] returns 0 for "none". *)
Definition nonzero (p : packet) : Prop := p_type p ≠ 0.

Definition event_nonzero (ev : io_event) : Prop :=
  match ev with
  | Readable _ rd => Forall nonzero (io_packets rd)
  | Writable _ _ _ => True
  end.

(** The packets [fw] that went from engine [f] to engine [t] since the two
    were [f0] and [t0], when [A] has been appended to the input of [f]
    since and [q] packets wait in [f]. *)
Definition flow (f0 t0 : engine) (A : list packet) (q : nat) (f t : engine)
  : Prop :=
  ∃ fw, put_log t = put_log t0 ++ fw
        ∧ inq f0 ++ A = fw ++ inq f
        ∧ Forall nonzero (inq f)
        ∧ length (inq f) = q.

Definition tracks (ec0 es0 : engine) (Ac As : list packet) (qc qs : nat)
    (x : session) : Prop :=
  ∃ ec es, eng Client x = Some ec ∧ eng Server x = Some es
           ∧ flow ec0 es0 Ac qc ec es ∧ flow es0 ec0 As qs es ec.

(** *** Listening, and what a callback did *)

(** One entry of the getaddrinfo result as [do_listen] meets it: whether the
    family is AF_INET or AF_INET6, and what socket, setsockopt, bind and
    listen return for it. *)
Record listen_addrinfo := {
  la_inet : bool;
  la_socket : Z;
  la_setsockopt : Z;
  la_bind : Z;
  la_listen : Z
}.

(** The [for] loop of [do_listen]; [sock] is the variable of that name. *)
Fixpoint do_listen_loop (ais : list listen_addrinfo) (sock : Z) : P Z :=
  match ais with
  | [] => mret sock
  | ai :: rest =>
      if negb (la_inet ai) then do_listen_loop rest sock
      else if decide (la_socket ai < 0) then do_listen_loop rest (la_socket ai)
      else
        opened (la_socket ai);;
        if decide (la_setsockopt ai = -1)
        then close (la_socket ai);; do_listen_loop rest (-1)
        else if decide (la_bind ai < 0)
        then close (la_socket ai);; do_listen_loop rest (-1)
        else if decide (la_listen ai < 0)
        then close (la_socket ai);; do_listen_loop rest (-1)
        else mret (la_socket ai)
  end.

(** [do_listen(addr, port)]; [None] is a getaddrinfo error. *)
Definition do_listen (gai : option (list listen_addrinfo)) : P Z :=
  match gai with
  | None => mret (-1)
  | Some ais => do_listen_loop ais (-1)
  end.

(** An addrinfo entry on which [do_listen] succeeds. *)
Definition la_works (ai : listen_addrinfo) : bool :=
  la_inet ai && bool_decide (0 ≤ la_socket ai)
  && bool_decide (la_setsockopt ai ≠ -1)
  && bool_decide (0 ≤ la_bind ai) && bool_decide (0 ≤ la_listen ai).

(** The first entry that works, for [do_connect] and for [do_listen]. *)
Definition connect_choice (gai : option (list addrinfo)) : option addrinfo :=
  gai ≫= List.find (λ ai, negb (ai_fails ai)).

Definition listen_choice (gai : option (list listen_addrinfo))
  : option listen_addrinfo :=
  gai ≫= List.find la_works.

Definition listen_fresh (gai : option (list listen_addrinfo)) (fds : gset Z)
  : Prop :=
  match gai with
  | None => True
  | Some ais => Forall (λ ai, la_socket ai ∉ fds) ais
  end.

(** Two worlds that differ in the open descriptors and the log of releases
    at most. *)
Definition same_sessions (w w' : world) : Prop :=
  heap w' = heap w ∧ sessions w' = sessions w ∧ listener w' = listener w
  ∧ keybuf w' = keybuf w ∧ known_keybuf w' = known_keybuf w.

(** A session between [accept_cb] and [connect_cb]: the client's socket is
    accepted, the connection to the server is under way, and the write event
    of the server's socket is pending. *)
Definition pending (cfd sfd : Z) : session :=
  {| client := {| fd := cfd; input := false; output := false; ssh := None |};
     server := {| fd := sfd; input := false; output := true; ssh := None |};
     connected := 0 |}.

(** The descriptors that accept and socket hand out during one [accept_cb]
    are not open. *)
Definition accept_fresh (e : accept_env) (w : world) : Prop :=
  (a_accept e ∉ open_fds w)
  ∧ sockets_fresh (a_getaddrinfo e) ({[a_accept e]} ∪ open_fds w).

(** The session [x] after [connect_cb] has set it up: both engines exist
    and hold their host keys, both read events are pending, the write event
    of the server's socket was consumed. *)
Definition established (x : session) (w : world) : session :=
  {| client := {| fd := fd (client x); input := true;
                  output := output (client x);
                  ssh := Some (ssh_add_hostkey (ssh_init true) (keybuf w)) |};
     server := {| fd := fd (server x); input := true; output := false;
                  ssh := Some (ssh_add_hostkey (ssh_init false)
                                 (known_keybuf w)) |};
     connected := 1 |}.

(** Each side that has output pending has its write event pending. *)
Definition output_armed (x : session) : Prop :=
  ∀ d e, eng d x = Some e → olen e ≠ 0 → output (get_side d x) = true.

(** The side that an I/O callback takes a descriptor for. *)
Definition side_of (fd_ : Z) (x : session) : which :=
  if decide (fd_ = fd (client x)) then Client else Server.

(** The read or write behind an event failed for good: it returned 0 or
    less and errno is neither EINTR nor EAGAIN.  A write is attempted when
    [olen], as [output_cb] reads it, is positive. *)
Definition io_failed (x : session) (ev : io_event) : Prop :=
  match ev with
  | Readable _ rd => io_len rd ≤ 0 ∧ ¬ (io_len rd < 0 ∧ io_again rd = true)
  | Writable fd_ slot wr =>
      (∃ e, eng (side_of fd_ x) x = Some e ∧ 0 < olen_read slot e)
      ∧ io_len wr ≤ 0 ∧ ¬ (io_len wr < 0 ∧ io_again wr = true)
  end.

(** *** The event loop *)

(** A session record is in one of two states: being set up, with no engine,
    or connected, with both engines and both read events pending. *)
Definition session_ok (x : session) : Prop :=
  (connected x = 0 ∧ ssh (client x) = None ∧ ssh (server x) = None)
  ∨ (connected x = 1
     ∧ (∃ ec es, ssh (client x) = Some ec ∧ ssh (server x) = Some es)
     ∧ input (client x) = true ∧ input (server x) = true).

Definition session_fds (x : session) : gset Z :=
  {[fd (client x); fd (server x)]}.

(** The state of the proxy between two callbacks, [B] being the descriptors
    that were open when the event loop started: the session list holds the
    connected sessions, each once, and no freed record; the records are in
    one of their two states; every record owns two open descriptors of its
    own; and no descriptor is open that belongs to nobody. *)
Definition consistent (B : gset Z) (w : world) : Prop :=
  NoDup (sessions w)
  ∧ (∀ s, s ∈ sessions w ↔ ∃ x, heap w !! s = Some x ∧ connected x = 1)
  ∧ (∀ s x, heap w !! s = Some x →
       session_ok x ∧ 0 ≤ fd (client x) ∧ 0 ≤ fd (server x)
       ∧ fd (client x) ≠ fd (server x)
       ∧ session_fds x ⊆ open_fds w ∧ session_fds x ## B)
  ∧ (∀ s1 s2 x1 x2, s1 ≠ s2 →
       heap w !! s1 = Some x1 → heap w !! s2 = Some x2 →
       session_fds x1 ## session_fds x2)
  ∧ B ⊆ open_fds w
  ∧ (∀ fd_, fd_ ∈ open_fds w →
       fd_ ∈ B ∨ ∃ s x, heap w !! s = Some x ∧ fd_ ∈ session_fds x).

(** One turn of the event loop: a connection arrives at the listener, the
    connect of a session that is being set up completes, or a descriptor of
    a connected session becomes readable or writable.  The event base runs
    a callback only for an event that is pending, and the kernel hands out
    descriptors that are not open.  The events are fields of the session
    record: [connect_cb] is the callback of the server's write event until
    the session is connected, [input_cb] and [output_cb] are set by
    [connect_cb]; [session_close] deregisters the four events of a
    connected record before it frees it, and [connect_cb] deregisters the
    one event of a record that is being set up first thing, so that no
    event of a freed record is pending. *)
Inductive proxy_step : world → world → Prop :=
| step_accept e w w' :
    listener w = true → accept_fresh e w →
    accept_cb e w = (inr tt, w') → proxy_step w w'
| step_connect e s x w w' :
    heap w !! s = Some x → connected x = 0 → output (server x) = true →
    connect_cb e s w = (inr tt, w') → proxy_step w w'
| step_io s x ev w w' :
    heap w !! s = Some x → connected x = 1 →
    match ev with
    | Readable fd_ _ => fd_ ∈ session_fds x
                        ∧ input (get_side (side_of fd_ x) x) = true
    | Writable fd_ _ _ => fd_ ∈ session_fds x
                          ∧ output (get_side (side_of fd_ x) x) = true
    end →
    deliver s ev w = (inr tt, w') → proxy_step w w'.

(** The world at the start of the event loop: no session yet, the
    listener's event pending. *)
Definition initial (B : gset Z) (kb kkb : list byte) : world :=
  {| heap := ∅; sessions := []; open_fds := B; listener := true;
     keybuf := kb; known_keybuf := kkb; log := [] |}.

(** A callback ended the way the code provides for: it returned, or it
    called [fatal]; it did not read a freed record or call through a NULL
    engine pointer. *)
Definition ended_well (o : abort + unit) : Prop :=
  match o with
  | inr _ => True
  | inl (ProcessFatal _) => True
  | inl _ => False
  end.

(** *** Starting the proxy *)

(** [#define BUFSZ 16*1024], the size of [keybuf] and [known_keybuf]. *)
Definition BUFSZ : Z := 16 * 1024.

(** The log levels of log.h that [main] steps through. *)
Inductive LogLevel :=
| SYSLOG_LEVEL_VERBOSE
| SYSLOG_LEVEL_DEBUG1
| SYSLOG_LEVEL_DEBUG2
| SYSLOG_LEVEL_DEBUG3.

(** [Forward] of readconf.h. *)
Record Forward := {
  listen_host : option string;
  listen_port : Z;
  connect_host : option string;
  connect_port : Z
}.

(** What getopt returns for the option string "dfC:L:S:", with [optarg];
    [Opt_unknown] is the '?' of any other option. *)
Inductive getopt_ret :=
| Opt_d
| Opt_f
| Opt_C (optarg : string)
| Opt_L (optarg : string)
| Opt_S (optarg : string)
| Opt_unknown.

(** The local variables of [main] that the options set, and the global
    [fwd]. *)
Record main_vars := {
  log_level : LogLevel;
  foreground : bool;
  hostkey_file : option string;
  known_hostkey_file : option string;
  fwd : Forward
}.

(** What the system answers to [main]: parse_forward on an argument
    ([None]: it returns 0), open on a path, read on the file at that path
    ([None]: it returns a negative value; otherwise the bytes of the file,
    of which one read takes at most the size of the buffer), and getaddrinfo
    for the listen address. *)
Record main_env := {
  m_parse_forward : string → option Forward;
  m_open : string → Z;
  m_read : string → option (list byte);
  m_getaddrinfo : option string → Z → option (list listen_addrinfo)
}.

(** How [main] ends before the event loop: [usage] exits with status 1,
    or [fatal]. *)
Inductive main_exit :=
| Usage
| MainFatal (msg : string)
| Aborted (a : abort).

(** The process as [main] leaves it: the world of the proxy, and the stores
    that went beyond the end of an array, each with the name of the array
    and the index, in the order they were made. *)
Record process := { p_world : world; p_beyond : list (string * Z) }.

Definition set_world (w : world) (p : process) : process :=
  {| p_world := w; p_beyond := p_beyond p |}.

Definition start_vars : main_vars :=
  {| log_level := SYSLOG_LEVEL_VERBOSE; foreground := false;
     hostkey_file := None; known_hostkey_file := None;
     fwd := {| listen_host := None; listen_port := 0;
               connect_host := None; connect_port := 0 |} |}.

(** One turn of the [while ((ch = getopt(...)) != -1) switch (ch)] loop. *)
Definition getopt_case (e : main_env) (ch : getopt_ret) (v : main_vars)
  : main_exit + main_vars :=
  match ch with
  | Opt_d =>
      let l := match log_level v with
               | SYSLOG_LEVEL_VERBOSE => SYSLOG_LEVEL_DEBUG1
               | SYSLOG_LEVEL_DEBUG1 => SYSLOG_LEVEL_DEBUG2
               | SYSLOG_LEVEL_DEBUG2 => SYSLOG_LEVEL_DEBUG3
               | SYSLOG_LEVEL_DEBUG3 => SYSLOG_LEVEL_DEBUG3
               end in
      inr {| log_level := l; foreground := foreground v;
             hostkey_file := hostkey_file v;
             known_hostkey_file := known_hostkey_file v; fwd := fwd v |}
  | Opt_f =>
      inr {| log_level := log_level v; foreground := true;
             hostkey_file := hostkey_file v;
             known_hostkey_file := known_hostkey_file v; fwd := fwd v |}
  | Opt_C optarg =>
      inr {| log_level := log_level v; foreground := foreground v;
             hostkey_file := hostkey_file v;
             known_hostkey_file := Some optarg; fwd := fwd v |}
  | Opt_L optarg =>
      match m_parse_forward e optarg with
      | None => inl (MainFatal "cannot parse")
      | Some f =>
          let f := if listen_host f is None
                   then {| listen_host := Some "0.0.0.0"%string;
                           listen_port := listen_port f;
                           connect_host := connect_host f;
                           connect_port := connect_port f |}
                   else f in
          inr {| log_level := log_level v; foreground := foreground v;
                 hostkey_file := hostkey_file v;
                 known_hostkey_file := known_hostkey_file v; fwd := f |}
      end
  | Opt_S optarg =>
      inr {| log_level := log_level v; foreground := foreground v;
             hostkey_file := Some optarg;
             known_hostkey_file := known_hostkey_file v; fwd := fwd v |}
  | Opt_unknown => inl Usage
  end.

Fixpoint getopt_loop (e : main_env) (opts : list getopt_ret) (v : main_vars)
  : main_exit + main_vars :=
  match opts with
  | [] => inr v
  | ch :: rest =>
      match getopt_case e ch v with
      | inl x => inl x
      | inr v' => getopt_loop e rest v'
      end
  end.

Abbreviation Mp := (SE.M process main_exit).

(** A function of the proxy called from [main], or an access to the world
    of the proxy. *)
Definition lift {A} (m : P A) : Mp A :=
  λ p, match m (p_world p) with
       | (inl a, w') => (inl (Aborted a), set_world w' p)
       | (inr x, w') => (inr x, set_world w' p)
       end.

(** A store to [name[index]] where [index] is not below the size of the
    array. *)
Definition store_beyond (name : string) (index : Z) : Mp unit :=
  SE.modify (λ p, {| p_world := p_world p;
                     p_beyond := p_beyond p ++ [(name, index)] |}).

(** [open; read(fd, buf, sizeof(buf)); buf[len] = 0; close(fd)] for one of
    the two key files; [buf] is the array before, the result the array
    after, and [sizeof(buf)] is the length of [buf].  The code does not
    compare [len] with the size of the array: when the read fills the
    array, the NUL is stored in the octet that follows it.  Such a store is
    recorded, the array is as the read left it, and [main] goes on; what
    lies behind the array is for the linker to decide and is not part of
    this model. *)
Definition read_keyfile (e : main_env) (path : string)
    (open_msg read_msg name : string) (buf : list byte) : Mp (list byte) :=
  let fd := m_open e path in
  if decide (fd < 0) then SE.exit (MainFatal open_msg)
  else
    lift (opened fd);;
    match m_read e path with
    | None => SE.exit (MainFatal read_msg)
    | Some bytes =>
        let got := take (length buf) bytes in
        let len := length got in
        let buf := got ++ drop len buf in
        (if decide (Z.of_nat len < Z.of_nat (length buf)) then mret tt
         else store_beyond name (Z.of_nat len));;
        lift (close fd);;
        mret (<[len := x00]> buf)
    end.

Definition set_keybuf (v : list byte) (w : world) : world :=
  {| heap := heap w; sessions := sessions w; open_fds := open_fds w;
     listener := listener w; keybuf := v;
     known_keybuf := known_keybuf w; log := log w |}.
Definition set_known_keybuf (v : list byte) (w : world) : world :=
  {| heap := heap w; sessions := sessions w; open_fds := open_fds w;
     listener := listener w; keybuf := keybuf w;
     known_keybuf := v; log := log w |}.

(** [main] up to the call of event_dispatch: the variables as the options
    left them, in the world in which the event loop starts.  log_init,
    daemon and event_init leave the state that is modelled as it is; what
    follows event_dispatch is [proxy_step]. *)
Definition main (e : main_env) (opts : list getopt_ret) : Mp main_vars :=
  lift (SE.modify (set_sessions []));;
  match getopt_loop e opts start_vars with
  | inl x => SE.exit x
  | inr v =>
      (match hostkey_file v with
       | Some path =>
           buf ← lift (SE.gets keybuf);
           buf ← read_keyfile e path "open" "read" "keybuf" buf;
           lift (SE.modify (set_keybuf buf))
       | None => mret tt
       end);;
      (match known_hostkey_file v with
       | Some path =>
           buf ← lift (SE.gets known_keybuf);
           buf ← read_keyfile e path "open" "kh: read" "known_keybuf" buf;
           lift (SE.modify (set_known_keybuf buf))
       | None => mret tt
       end);;
      fd ← lift (do_listen (m_getaddrinfo e (listen_host (fwd v))
                              (listen_port (fwd v))));
      (if decide (fd < 0) then SE.exit (MainFatal " do_listen failed")
       else mret tt);;
      lift (SE.modify (set_listener true));;
      mret v
  end.

(** The statements of [main] for one key file, if it is named: [get] and
    [set] read and write the array that takes the file. *)
Definition keyfile_block (e : main_env) (path : option string)
    (m1 m2 name : string) (get : world → list byte)
    (set : list byte → world → world) : Mp unit :=
  match path with
  | Some f =>
      buf ← lift (SE.gets get);
      buf ← read_keyfile e f m1 m2 name buf;
      lift (SE.modify (set buf))
  | None => mret tt
  end.

(** The process when [main] starts: no session record, the two key buffers
    zeroed, the descriptors [F] open, no store beyond an array. *)
Definition process_start (F : gset Z) : process :=
  {| p_world := {| heap := ∅; sessions := []; open_fds := F;
                   listener := false;
                   keybuf := replicate (Z.to_nat BUFSZ) x00;
                   known_keybuf := replicate (Z.to_nat BUFSZ) x00;
                   log := [] |};
     p_beyond := [] |}.

(** The stores beyond an array of [size] octets that [main] makes for a key
    file: one, at the index [size], if the file is named and the read
    delivers as many octets as the array has. *)
Definition overrun (e : main_env) (path : option string) (name : string)
    (size : Z) : list (string * Z) :=
  match path with
  | Some p =>
      match m_read e p with
      | Some bytes =>
          if decide (size ≤ Z.of_nat (length bytes)) then [(name, size)]
          else []
      | None => []
      end
  | None => []
  end.

Definition overruns (e : main_env) (v : main_vars) : list (string * Z) :=
  overrun e (hostkey_file v) "keybuf" BUFSZ
  ++ overrun e (known_hostkey_file v) "known_keybuf" BUFSZ.

(** What a key file that was read left in its buffer of [size] octets:
    all of the file, which is shorter than the buffer, and zeros after
    it. *)
Definition holds_file (e : main_env) (path : option string) (size : nat)
    (buf : list byte) : Prop :=
  match path with
  | None => buf = replicate size x00
  | Some p =>
      ∃ bytes, m_read e p = Some bytes ∧ (length bytes < size)%nat
               ∧ buf = bytes ++ replicate (size - length bytes) x00
  end.

End Proxy.

(** ** Keysign helper ([ssh-keysign.c]) *)
Module Keysign.
Import Wire.

(** [enum sshkey_types] of key.h. *)
Inductive sshkey_types :=
| KEY_RSA1 | KEY_RSA | KEY_DSA | KEY_ECDSA
| KEY_RSA_CERT | KEY_DSA_CERT | KEY_ECDSA_CERT
| KEY_RSA_CERT_V00 | KEY_DSA_CERT_V00
| KEY_UNSPEC.

Global Instance sshkey_types_eq_dec : EqDecision sshkey_types.
Proof. solve_decision. Defined.

Record sshkey := { type : sshkey_types; material : list byte }.

Record passwd := { pw_name : string; pw_uid : Z }.

(** The functions of key.c and sshbuf.c that the helper calls and that are
    not among the sources: the key type of an algorithm name, the key in a
    blob ([None]: a return value other than 0), equality of public keys, and
    the UTF-8 test of the cstring reader. *)
Record keylib := {
  sshkey_type_from_name : string → sshkey_types;
  sshkey_from_blob : list byte → option sshkey;
  sshkey_equal_public : sshkey → sshkey → bool;
  valid_utf8 : list byte → bool
}.

Definition SSH2_MSG_USERAUTH_REQUEST : Z := 50.
Definition STDIN_FILENO : Z := 0.
Definition STDOUT_FILENO : Z := 1.

(** [size_t] subtraction wraps around at 2^64. *)
Definition size_sub (a b : Z) : Z := (a - b) mod 2 ^ 64.

Definition tolower (c : ascii) : ascii :=
  let n := nat_of_ascii c in
  if decide (65 ≤ n ≤ 90)%nat then ascii_of_nat (n + 32) else c.

(** [strlen] as a [size_t]. *)
Definition strlen (s : string) : Z := Z.of_nat (String.length s).

(** [strcmp(a, b)] compared with 0, for strings without NUL. *)
Definition strcmp_ne (a b : string) : bool := bool_decide (a ≠ b).

(** [strncasecmp]: the difference of the first pair of characters that
    differ after [tolower] among the first [n], 0 when there is none. *)
Fixpoint strncasecmp (s1 s2 : string) (n : nat) : Z :=
  match n with
  | O => 0
  | S n' =>
      match s1, s2 with
      | EmptyString, EmptyString => 0
      | EmptyString, String c2 _ => - Z.of_nat (nat_of_ascii (tolower c2))
      | String c1 _, EmptyString => Z.of_nat (nat_of_ascii (tolower c1))
      | String c1 r1, String c2 r2 =>
          if decide (tolower c1 = tolower c2) then strncasecmp r1 r2 n'
          else Z.of_nat (nat_of_ascii (tolower c1))
               - Z.of_nat (nat_of_ascii (tolower c2))
      end
  end.

(** The buffer [b], the counter [fail] and the variable [key] of
    [valid_request]. *)
Record vstate := { b : list byte; fail : Z; key : option sshkey }.

Definition set_b (v : list byte) (s : vstate) : vstate :=
  {| b := v; fail := fail s; key := key s |}.
Definition set_key (v : option sshkey) (s : vstate) : vstate :=
  {| b := b s; fail := fail s; key := v |}.

(** The exit reason is the message of [fatal]. *)
Abbreviation V := (SE.M vstate string).

(** [if ((r = sshbuf_get_...(b, ...)) != 0) fatal("%s: buffer error: %s", ...)] *)
Definition get {A} (reader : list byte → option (A * list byte)) : V A :=
  λ s, match reader (b s) with
       | Some (a, rest) => (inr a, set_b rest s)
       | None => (inl "valid_request: buffer error", s)
       end.

(** [fail++] *)
Definition fail_incr : V unit :=
  SE.modify (λ s, {| b := b s; fail := fail s + 1; key := key s |}).

Definition valid_request_body (lib : keylib) (pw : passwd) (host : string)
  : V unit :=
  (* session id, currently limited to SHA1 (20 bytes) or SHA256 (32) *)
  sid ← get get_string;
  let len := Z.of_nat (length sid) in
  SE.when (bool_decide (len ≠ 20) && bool_decide (len ≠ 32)) fail_incr;;
  type_ ← get get_u8;
  SE.when (bool_decide (byte_to_Z type_ ≠ SSH2_MSG_USERAUTH_REQUEST)) fail_incr;;
  (* server user *)
  get (λ b, (λ rest, (tt, rest)) <$> skip_string b);;
  (* service *)
  p ← get (get_cstring (valid_utf8 lib));
  SE.when (strcmp_ne "ssh-connection" (fst p)) fail_incr;;
  (* method *)
  p ← get (get_cstring (valid_utf8 lib));
  SE.when (strcmp_ne "hostbased" (fst p)) fail_incr;;
  (* pubkey *)
  pkalg ← get (get_cstring (valid_utf8 lib));
  pkblob ← get get_string;
  let pktype := sshkey_type_from_name lib (fst pkalg) in
  (if decide (pktype = KEY_UNSPEC) then fail_incr
   else match sshkey_from_blob lib pkblob with
        | None => fail_incr
        | Some k =>
            SE.modify (set_key (Some k));;
            SE.when (bool_decide (type k ≠ pktype)) fail_incr
        end);;
  (* client host name, handle trailing dot *)
  chost ← get (get_cstring (valid_utf8 lib));
  let p := fst chost in
  let len := snd chost in
  (if decide (strlen host ≠ size_sub len 1) then fail_incr
   else if decide (String.get (Z.to_nat (size_sub len 1)) p ≠ Some "."%char)
   then fail_incr
   else if decide (strncasecmp host p (Z.to_nat (size_sub len 1)) ≠ 0)
   then fail_incr
   else mret tt);;
  (* local user *)
  luser ← get (get_cstring (valid_utf8 lib));
  SE.when (strcmp_ne (pw_name pw) (fst luser)) fail_incr;;
  (* end of message *)
  rest ← SE.gets b;
  SE.when (bool_decide (length rest ≠ 0%nat)) fail_incr.

(** How [valid_request] ends: [fatal], or a return value together with what
    [*ret] holds then. *)
Inductive vresult :=
| VFatal (msg : string)
| VReturn (r : Z) (ret : option sshkey).

(** [valid_request(pw, host, ret, data, datalen)]; [ret0] is what [*ret]
    holds at the call. *)
Definition valid_request (lib : keylib) (pw : passwd) (host : string)
    (ret0 : option sshkey) (data : list byte) : vresult :=
  match valid_request_body lib pw host {| b := data; fail := 0; key := None |} with
  | (inl msg, _) => VFatal msg
  | (inr _, s) =>
      let ret := if bool_decide (fail s ≠ 0) && bool_decide (key s ≠ None)
                 then ret0 else key s in
      VReturn (if decide (fail s ≠ 0) then -1 else 0) ret
  end.

(** What the system answers during one run of the helper: the descriptors
    returned by the four [open] calls, the password entry of the real uid,
    the EnableSSHKeysign option after reading the configuration, the key
    loaded from each descriptor, the body of the message received on stdin
    ([None]: ssh_msg_recv failed), the local name of a descriptor, the
    signature of a key over data, and the return value of ssh_msg_send. *)
Record Env := {
  e_open_devnull : Z;
  e_open_dsa : Z;
  e_open_ecdsa : Z;
  e_open_rsa : Z;
  e_getpwuid : option passwd;
  e_enable_ssh_keysign : Z;
  e_sshkey_load_private_pem : Z → option sshkey;
  e_ssh_msg_recv : option (list byte);
  e_get_local_name : Z → option string;
  e_sshkey_sign : sshkey → list byte → option (list byte);
  e_ssh_msg_send : Z;
  e_lib : keylib
}.

(** The request buffer [b] of [main], the signatures made and the message
    bodies written to stdout. *)
Record mstate := {
  buf : list byte;
  signatures : list (list byte);
  stdout : list (list byte)
}.

Definition set_buf (v : list byte) (s : mstate) : mstate :=
  {| buf := v; signatures := signatures s; stdout := stdout s |}.

Inductive mexit := Fatal (msg : string) | Exit (code : Z).

Abbreviation Mn := (SE.M mstate mexit).

Definition fatal {A} (msg : string) : Mn A := SE.exit (Fatal msg).

Definition mget {A} (reader : list byte → option (A * list byte)) : Mn A :=
  λ s, match reader (buf s) with
       | Some (a, rest) => (inr a, set_buf rest s)
       | None => (inl (Fatal "main: buffer error"), s)
       end.

(** A [u_int32_t] stored into the [int] variable [fd] through a cast of its
    address, and read back as [int]. *)
Definition to_int (v : Z) : Z :=
  if decide (v < 2 ^ 31) then v else v - 2 ^ 32.

Definition version : Z := 2.

(** [main] up to the loading of the host keys: the password entry and the
    array [keys]. *)
Definition startup (e : Env) : Mn (passwd * list (option sshkey)) :=
  (* Ensure that stdin and stdout are connected *)
  (if decide (e_open_devnull e < 2) then SE.exit (Exit 1) else mret tt);;
  let key_fd := [e_open_dsa e; e_open_ecdsa e; e_open_rsa e] in
  pw ← match e_getpwuid e with
       | None => fatal "getpwuid failed"
       | Some pw => mret pw
       end;
  (* verify that ssh-keysign is enabled by the admin *)
  (if decide (e_enable_ssh_keysign e ≠ 1)
   then fatal "ssh-keysign not enabled"
   else mret tt);;
  (if existsb (λ f, bool_decide (f ≠ -1)) key_fd then mret tt
   else fatal "could not open any host key");;
  let keys := (λ f, if decide (f = -1) then None
                    else e_sshkey_load_private_pem e f) <$> key_fd in
  (if existsb (λ k, bool_decide (k ≠ None)) keys then mret tt
   else fatal "no hostkey found");;
  mret (pw, keys).

(** [main] from ssh_msg_recv on. *)
Definition serve (e : Env) (pw : passwd) (keys : list (option sshkey))
  : Mn Z :=
  match e_ssh_msg_recv e with
  | None => fatal "ssh_msg_recv failed"
  | Some m =>
  SE.modify (set_buf m);;
  rver ← mget get_u8;
  (if decide (byte_to_Z rver ≠ version) then fatal "bad version" else mret tt);;
  v ← mget get_u32;
  let fd := to_int v in
  (if bool_decide (fd < 0) || bool_decide (fd = STDIN_FILENO)
      || bool_decide (fd = STDOUT_FILENO)
   then fatal "bad fd" else mret tt);;
  match e_get_local_name e fd with
  | None => fatal "cannot get local name for fd"
  | Some host =>
  data ← mget get_string;
  match valid_request (e_lib e) pw host None data with
  | VFatal msg => fatal msg
  | VReturn r key =>
  (if decide (r < 0) then fatal "not a valid request" else mret tt);;
  let matches := λ k : option sshkey,
    match k, key with
    | Some hk, Some k => sshkey_equal_public (e_lib e) k hk
    | _, _ => false
    end in
  match List.find matches keys with
  | None | Some None => fatal "no matching hostkey found"
  | Some (Some hostkey) =>
  match e_sshkey_sign e hostkey data with
  | None => fatal "sshkey_sign failed"
  | Some sig =>
  SE.modify (λ s, {| buf := buf s; signatures := signatures s ++ [sig];
                     stdout := stdout s |});;
  (* send reply *)
  SE.modify (set_buf (put_string sig));;
  (if decide (e_ssh_msg_send e = -1) then fatal "ssh_msg_send failed"
   else SE.modify (λ s, {| buf := buf s; signatures := signatures s;
                           stdout := stdout s ++ [Z_to_byte version :: buf s] |}));;
  mret 0
  end end end end end.

Definition main (e : Env) : Mn Z :=
  '(pw, keys) ← startup e;
  serve e pw keys.

Definition start : mstate := {| buf := []; signatures := []; stdout := [] |}.

(** *** The request that [valid_request] accepts *)

(** The signed data of a host-based authentication request, field by
    field. *)
Record signed_data := {
  sd_session_id : list byte;
  sd_type : byte;
  sd_server_user : list byte;
  sd_service : string;
  sd_method : string;
  sd_pkalg : string;
  sd_pkblob : list byte;
  sd_chost : string;
  sd_luser : string
}.

(** The layout of the specification: string session_id, byte type, string
    server_user, string service, string method, string pubkey_alg, string
    pubkey_blob, string client_host, string local_user; what is left of the
    data is returned as well. *)
Definition decode_signed_data (lib : keylib) (data : list byte)
  : option (signed_data * list byte) :=
  '(sid, b1) ← get_string data;
  '(ty, b2) ← get_u8 b1;
  '(user, b3) ← get_string b2;
  '(service, _, b4) ← get_cstring (valid_utf8 lib) b3;
  '(method, _, b5) ← get_cstring (valid_utf8 lib) b4;
  '(pkalg, _, b6) ← get_cstring (valid_utf8 lib) b5;
  '(pkblob, b7) ← get_string b6;
  '(chost, _, b8) ← get_cstring (valid_utf8 lib) b7;
  '(luser, _, b9) ← get_cstring (valid_utf8 lib) b8;
  Some ({| sd_session_id := sid; sd_type := ty; sd_server_user := user;
           sd_service := service; sd_method := method; sd_pkalg := pkalg;
           sd_pkblob := pkblob; sd_chost := chost; sd_luser := luser |}, b9).

Fixpoint lowercase (s : string) : string :=
  match s with
  | EmptyString => EmptyString
  | String c r => String (tolower c) (lowercase r)
  end.

(** The conditions of the specification on the fields, [k] being the key
    that the request yields. *)
Definition acceptable (lib : keylib) (pw : passwd) (host : string)
    (sd : signed_data) (k : sshkey) : Prop :=
  (length (sd_session_id sd) = 20%nat ∨ length (sd_session_id sd) = 32%nat)
  ∧ byte_to_Z (sd_type sd) = SSH2_MSG_USERAUTH_REQUEST
  ∧ sd_service sd = "ssh-connection"
  ∧ sd_method sd = "hostbased"
  ∧ sshkey_type_from_name lib (sd_pkalg sd) ≠ KEY_UNSPEC
  ∧ sshkey_from_blob lib (sd_pkblob sd) = Some k
  ∧ type k = sshkey_type_from_name lib (sd_pkalg sd)
  ∧ (∃ h, sd_chost sd = (h ++ ".")%string ∧ lowercase h = lowercase host)
  ∧ sd_luser sd = pw_name pw.

(** *** The counter [fail] *)

Definition add_fail (n : Z) (s : vstate) : vstate :=
  {| b := b s; fail := fail s + n; key := key s |}.

(** What the public-key step adds to [fail], and the key it leaves in
    [key]. *)
Definition pubkey_fail (lib : keylib) (pkalg : string) (pkblob : list byte) : Z :=
  if decide (sshkey_type_from_name lib pkalg = KEY_UNSPEC) then 1
  else match sshkey_from_blob lib pkblob with
       | None => 1
       | Some k =>
           Z.b2z (bool_decide (type k ≠ sshkey_type_from_name lib pkalg))
       end.

Definition pubkey_key (lib : keylib) (pkalg : string) (pkblob : list byte)
  : option sshkey :=
  if decide (sshkey_type_from_name lib pkalg = KEY_UNSPEC) then None
  else sshkey_from_blob lib pkblob.

(** What the host-name step adds to [fail]. *)
Definition chost_fail (host p : string) (len : Z) : Z :=
  if decide (strlen host ≠ size_sub len 1) then 1
  else if decide (String.get (Z.to_nat (size_sub len 1)) p ≠ Some "."%char)
  then 1
  else if decide (strncasecmp host p (Z.to_nat (size_sub len 1)) ≠ 0) then 1
  else 0.

(** The value of [fail] at the end of [valid_request]. *)
Definition total_fail (lib : keylib) (pw : passwd) (host : string)
    (sd : signed_data) (rest : list byte) : Z :=
  0 + Z.b2z (bool_decide (Z.of_nat (length (sd_session_id sd)) ≠ 20)
             && bool_decide (Z.of_nat (length (sd_session_id sd)) ≠ 32))
  + Z.b2z (bool_decide (byte_to_Z (sd_type sd) ≠ SSH2_MSG_USERAUTH_REQUEST))
  + Z.b2z (strcmp_ne "ssh-connection" (sd_service sd))
  + Z.b2z (strcmp_ne "hostbased" (sd_method sd))
  + pubkey_fail lib (sd_pkalg sd) (sd_pkblob sd)
  + chost_fail host (sd_chost sd) (Z.of_nat (String.length (sd_chost sd)))
  + Z.b2z (strcmp_ne (pw_name pw) (sd_luser sd))
  + Z.b2z (bool_decide (length rest ≠ 0%nat)).

(** *** What a run of the helper did *)

(** The array [keys] of [main] after the host key files were loaded: for
    each of the three files that opened, what sshkey_load_private_pem made
    of it. *)
Definition loaded_keys (e : Env) : list (option sshkey) :=
  (λ f, if decide (f = -1) then None else e_sshkey_load_private_pem e f)
    <$> [e_open_dsa e; e_open_ecdsa e; e_open_rsa e].

(** The run made exactly one signature [sig], and this is how: the request
    named a descriptor above stdout whose local name is [host], its signed
    data passed [valid_request] for [pw] and [host] with the key [key], [hk]
    is a loaded host key with the same public key, and [sig] is the
    signature of the signed data by [hk].  Nothing but the reply that
    carries [sig] was written. *)
Definition signed_for (e : Env) (pw : passwd) (keys : list (option sshkey))
    (st : mstate) : Prop :=
  ∃ body rver m v rest host data rest' key hk sig,
    e_ssh_msg_recv e = Some body
    ∧ get_u8 body = Some (rver, m) ∧ byte_to_Z rver = version
    ∧ get_u32 m = Some (v, rest) ∧ 1 < to_int v
    ∧ e_get_local_name e (to_int v) = Some host
    ∧ get_string rest = Some (data, rest')
    ∧ valid_request (e_lib e) pw host None data = VReturn 0 (Some key)
    ∧ In (Some hk) keys
    ∧ sshkey_equal_public (e_lib e) key hk = true
    ∧ e_sshkey_sign e hk data = Some sig
    ∧ signatures st = [sig]
    ∧ (stdout st = [] ∨ stdout st = [Z_to_byte version :: put_string sig]).

End Keysign.

(** ** Concrete inputs *)
Module Examples.
Import Wire.

(** *** Key exchange *)

Definition host_key : Kex.sshkey :=
  {| Kex.sk_type := 1; Kex.sk_material := [x01] |}.

Definition kex_named (name : string) : Kex.Kex :=
  {| Kex.name := name; Kex.evp_md := Kex.EVP_sha256; Kex.hostkey_type := 1;
     Kex.client_version_string := "SSH-2.0-c";
     Kex.server_version_string := "SSH-2.0-s";
     Kex.peer := [x14]; Kex.my := [x14; x01];
     Kex.session_id := None; Kex.ec_client_key := Kex.Null;
     Kex.load_host_public_key := Some (λ _, Some host_key);
     Kex.load_host_private_key := Some (λ _, Some host_key) |}.

Definition k_p256 : Kex.Kex := kex_named "ecdh-sha2-nistp256".
Definition k_foo : Kex.Kex := kex_named "ecdh-sha2-foo".

(** An environment in which every call succeeds, except that the client's
    point passes validation only if [valid] and the host key signs only if
    [signs].  The digest is a stand-in that keeps the first four octets. *)
Definition env_with (valid signs : bool) : Kex.Env :=
  {| Kex.e_EC_KEY_new := true;
     Kex.e_EC_KEY_generate_key := Some (7, Affine 3 4);
     Kex.e_EC_POINT_new := true;
     Kex.e_sshpkt_get_ec := (Kex.SSH_ERR_SUCCESS, Affine 5 6);
     Kex.e_sshpkt_get_end := Kex.SSH_ERR_SUCCESS;
     Kex.e_on_curve := λ _ _ _, valid;
     Kex.e_malloc_kbuf := Some xaa;
     Kex.e_BN_new := true;
     Kex.e_ECDH_compute_key := λ _ _, Some (replicate 32 x81);
     Kex.e_BN_bin2bn := true;
     Kex.e_sshkey_to_blob := λ k, (Kex.SSH_ERR_SUCCESS, Kex.sk_material k);
     Kex.e_digest := λ _ b, take 4 b;
     Kex.e_kex_ecdh_hash := Kex.SSH_ERR_SUCCESS;
     Kex.e_malloc_session_id := true;
     Kex.e_sshkey_sign := λ _ d, if signs then Some d else None;
     Kex.e_sshpkt_start := Kex.SSH_ERR_SUCCESS;
     Kex.e_sshpkt_put_blob := Kex.SSH_ERR_SUCCESS;
     Kex.e_sshpkt_put_ec := Kex.SSH_ERR_SUCCESS;
     Kex.e_sshpkt_put_signature := Kex.SSH_ERR_SUCCESS;
     Kex.e_sshpkt_send := Kex.SSH_ERR_SUCCESS |}.

Definition e_ok : Kex.Env := env_with true true.
Definition e_off_curve : Kex.Env := env_with false true.
Definition e_sign_fails : Kex.Env := env_with true false.

(** *** Proxy *)

Definition p1 : Proxy.packet := {| Proxy.p_type := 2; Proxy.p_data := [x61] |}.
Definition p2 : Proxy.packet := {| Proxy.p_type := 2; Proxy.p_data := [x62] |}.

(** A connected session: client on descriptor 5, server on 6. *)
Definition x_connected : Proxy.session :=
  {| Proxy.client := {| Proxy.fd := 5; Proxy.input := true;
                        Proxy.output := false;
                        Proxy.ssh := Some (Proxy.ssh_init true) |};
     Proxy.server := {| Proxy.fd := 6; Proxy.input := true;
                        Proxy.output := false;
                        Proxy.ssh := Some (Proxy.ssh_init false) |};
     Proxy.connected := 1 |}.

(** A session whose connect to the backend is pending. *)
Definition x_pending : Proxy.session :=
  {| Proxy.client := {| Proxy.fd := 5; Proxy.input := false;
                        Proxy.output := false; Proxy.ssh := None |};
     Proxy.server := {| Proxy.fd := 6; Proxy.input := false;
                        Proxy.output := true; Proxy.ssh := None |};
     Proxy.connected := 0 |}.

Definition world_of (x : Proxy.session) (listed : list positive) : Proxy.world :=
  {| Proxy.heap := {[ 1%positive := x ]}; Proxy.sessions := listed;
     Proxy.open_fds := {[ 3; 5; 6 ]}; Proxy.listener := true;
     Proxy.keybuf := [x6b]; Proxy.known_keybuf := [x6b; x6b];
     Proxy.log := [] |}.

Definition w_connected : Proxy.world := world_of x_connected [1%positive].
Definition w_pending : Proxy.world := world_of x_pending [].

(** A read of 64 bytes that completes two packets. *)
Definition two_packets : Proxy.io_ret :=
  {| Proxy.io_len := 64; Proxy.io_again := false;
     Proxy.io_packets := [p1; p2] |}.

(** A write of six octets. *)
Definition wrote_six : Proxy.io_ret :=
  {| Proxy.io_len := 6; Proxy.io_again := false; Proxy.io_packets := [] |}.

(** The connect succeeded but the server host key does not load. *)
Definition e_hostkey_fails : Proxy.connect_env :=
  {| Proxy.c_getsockopt := 0; Proxy.c_SO_ERROR := 0; Proxy.c_errno := 0;
     Proxy.c_add_hostkey_client := -1; Proxy.c_add_hostkey_server := 0 |}.

(** The connect was refused (ECONNREFUSED). *)
Definition e_refused : Proxy.connect_env :=
  {| Proxy.c_getsockopt := 0; Proxy.c_SO_ERROR := 111; Proxy.c_errno := 0;
     Proxy.c_add_hostkey_client := 0; Proxy.c_add_hostkey_server := 0 |}.

(** The accepted socket is descriptor 7 and fcntl fails on it. *)
Definition e_fcntl_fails : Proxy.accept_env :=
  {| Proxy.a_accept := 7; Proxy.a_fcntl := -1; Proxy.a_getaddrinfo := None |}.

(** *** Keysign *)

Definition rsa_key : Keysign.sshkey :=
  {| Keysign.type := Keysign.KEY_RSA; Keysign.material := [x01] |}.

Definition lib0 : Keysign.keylib :=
  {| Keysign.sshkey_type_from_name := λ n,
       if decide (n = "ssh-rsa") then Keysign.KEY_RSA else Keysign.KEY_UNSPEC;
     Keysign.sshkey_from_blob := λ blob,
       if decide (blob = [x01]) then Some rsa_key else None;
     Keysign.sshkey_equal_public := λ a b,
       bool_decide (Keysign.material a = Keysign.material b);
     Keysign.valid_utf8 := λ _, true |}.

Definition alice : Keysign.passwd :=
  {| Keysign.pw_name := "alice"; Keysign.pw_uid := 1000 |}.

Definition request_fields : Keysign.signed_data :=
  {| Keysign.sd_session_id := replicate 20 x00;
     Keysign.sd_type := x32;
     Keysign.sd_server_user := list_byte_of_string "root";
     Keysign.sd_service := "ssh-connection";
     Keysign.sd_method := "hostbased";
     Keysign.sd_pkalg := "ssh-rsa";
     Keysign.sd_pkblob := [x01];
     Keysign.sd_chost := "Host.Example.";
     Keysign.sd_luser := "alice" |}.

Definition request : list byte :=
  put_string (replicate 20 x00) ++ [x32] ++ put_cstring "root" ++
  put_cstring "ssh-connection" ++ put_cstring "hostbased" ++
  put_cstring "ssh-rsa" ++ put_string [x01] ++
  put_cstring "Host.Example." ++ put_cstring "alice".

(** A helper run whose request names descriptor [fd_index]. *)
Definition keysign_env (fd_index : Z) : Keysign.Env :=
  {| Keysign.e_open_devnull := 3;
     Keysign.e_open_dsa := -1; Keysign.e_open_ecdsa := -1;
     Keysign.e_open_rsa := 4;
     Keysign.e_getpwuid := Some alice;
     Keysign.e_enable_ssh_keysign := 1;
     Keysign.e_sshkey_load_private_pem := λ _, Some rsa_key;
     Keysign.e_ssh_msg_recv :=
       Some (x02 :: put_u32 fd_index ++ put_string request);
     Keysign.e_get_local_name := λ _, Some "host.example";
     Keysign.e_sshkey_sign := λ _ d, Some (take 2 d);
     Keysign.e_ssh_msg_send := 0;
     Keysign.e_lib := lib0 |}.

(** *** Key exchange, host key missing *)

(** A Kex without the callback that loads the private host key, and one
    whose callback finds no key. *)
Definition k_no_callback : Kex.Kex :=
  {| Kex.name := "ecdh-sha2-nistp384"; Kex.evp_md := Kex.EVP_sha384;
     Kex.hostkey_type := 1;
     Kex.client_version_string := "SSH-2.0-c";
     Kex.server_version_string := "SSH-2.0-s";
     Kex.peer := [x14]; Kex.my := [x14; x01];
     Kex.session_id := None; Kex.ec_client_key := Kex.Null;
     Kex.load_host_public_key := Some (λ _, Some host_key);
     Kex.load_host_private_key := None |}.

Definition k_no_private_key : Kex.Kex :=
  {| Kex.name := "ecdh-sha2-nistp384"; Kex.evp_md := Kex.EVP_sha384;
     Kex.hostkey_type := 1;
     Kex.client_version_string := "SSH-2.0-c";
     Kex.server_version_string := "SSH-2.0-s";
     Kex.peer := [x14]; Kex.my := [x14; x01];
     Kex.session_id := None; Kex.ec_client_key := Kex.Null;
     Kex.load_host_public_key := Some (λ _, Some host_key);
     Kex.load_host_private_key := Some (λ _, None) |}.

(** Every call succeeds, but ECDH_compute_key yields 31 octets. *)
Definition e_short_secret : Kex.Env :=
  {| Kex.e_EC_KEY_new := true;
     Kex.e_EC_KEY_generate_key := Some (7, Affine 3 4);
     Kex.e_EC_POINT_new := true;
     Kex.e_sshpkt_get_ec := (Kex.SSH_ERR_SUCCESS, Affine 5 6);
     Kex.e_sshpkt_get_end := Kex.SSH_ERR_SUCCESS;
     Kex.e_on_curve := λ _ _ _, true;
     Kex.e_malloc_kbuf := Some xaa;
     Kex.e_BN_new := true;
     Kex.e_ECDH_compute_key := λ _ _, Some (replicate 31 x81);
     Kex.e_BN_bin2bn := true;
     Kex.e_sshkey_to_blob := λ k, (Kex.SSH_ERR_SUCCESS, Kex.sk_material k);
     Kex.e_digest := λ _ b, take 4 b;
     Kex.e_kex_ecdh_hash := Kex.SSH_ERR_SUCCESS;
     Kex.e_malloc_session_id := true;
     Kex.e_sshkey_sign := λ _ d, Some d;
     Kex.e_sshpkt_start := Kex.SSH_ERR_SUCCESS;
     Kex.e_sshpkt_put_blob := Kex.SSH_ERR_SUCCESS;
     Kex.e_sshpkt_put_ec := Kex.SSH_ERR_SUCCESS;
     Kex.e_sshpkt_put_signature := Kex.SSH_ERR_SUCCESS;
     Kex.e_sshpkt_send := Kex.SSH_ERR_SUCCESS |}.

(** Every call succeeds, the client's point is [Q] and is on the curve if it
    is not the point at infinity, and sshpkt_send answers [send]. *)
Definition env_sending (Q : EC_POINT) (send : Kex.ssh_err) : Kex.Env :=
  {| Kex.e_EC_KEY_new := true;
     Kex.e_EC_KEY_generate_key := Some (7, Affine 3 4);
     Kex.e_EC_POINT_new := true;
     Kex.e_sshpkt_get_ec := (Kex.SSH_ERR_SUCCESS, Q);
     Kex.e_sshpkt_get_end := Kex.SSH_ERR_SUCCESS;
     Kex.e_on_curve := λ _ _ _, true;
     Kex.e_malloc_kbuf := Some xaa;
     Kex.e_BN_new := true;
     Kex.e_ECDH_compute_key := λ _ _, Some (replicate 32 x81);
     Kex.e_BN_bin2bn := true;
     Kex.e_sshkey_to_blob := λ k, (Kex.SSH_ERR_SUCCESS, Kex.sk_material k);
     Kex.e_digest := λ _ b, take 4 b;
     Kex.e_kex_ecdh_hash := Kex.SSH_ERR_SUCCESS;
     Kex.e_malloc_session_id := true;
     Kex.e_sshkey_sign := λ _ d, Some d;
     Kex.e_sshpkt_start := Kex.SSH_ERR_SUCCESS;
     Kex.e_sshpkt_put_blob := Kex.SSH_ERR_SUCCESS;
     Kex.e_sshpkt_put_ec := Kex.SSH_ERR_SUCCESS;
     Kex.e_sshpkt_put_signature := Kex.SSH_ERR_SUCCESS;
     Kex.e_sshpkt_send := send |}.

(** The client sent the point at infinity. *)
Definition e_infinity : Kex.Env := env_sending Infinity Kex.SSH_ERR_SUCCESS.

(** The hash is computed and signed, but the reply cannot be sent. *)
Definition e_send_fails : Kex.Env :=
  env_sending (Affine 5 6) Kex.SSH_ERR_INTERNAL_ERROR.

(** A helper run in which only the RSA key file may open (descriptor
    [rsa_fd]) and no file holds a key. *)
Definition keysign_no_keys (rsa_fd : Z) : Keysign.Env :=
  {| Keysign.e_open_devnull := 3;
     Keysign.e_open_dsa := -1; Keysign.e_open_ecdsa := -1;
     Keysign.e_open_rsa := rsa_fd;
     Keysign.e_getpwuid := Some alice;
     Keysign.e_enable_ssh_keysign := 1;
     Keysign.e_sshkey_load_private_pem := λ _, None;
     Keysign.e_ssh_msg_recv :=
       Some (x02 :: put_u32 5 ++ put_string request);
     Keysign.e_get_local_name := λ _, Some "host.example";
     Keysign.e_sshkey_sign := λ _ d, Some (take 2 d);
     Keysign.e_ssh_msg_send := 0;
     Keysign.e_lib := lib0 |}.

(** A helper run that receives the message [body]. *)
Definition keysign_receiving (body : list byte) : Keysign.Env :=
  {| Keysign.e_open_devnull := 3;
     Keysign.e_open_dsa := -1; Keysign.e_open_ecdsa := -1;
     Keysign.e_open_rsa := 4;
     Keysign.e_getpwuid := Some alice;
     Keysign.e_enable_ssh_keysign := 1;
     Keysign.e_sshkey_load_private_pem := λ _, Some rsa_key;
     Keysign.e_ssh_msg_recv := Some body;
     Keysign.e_get_local_name := λ _, Some "host.example";
     Keysign.e_sshkey_sign := λ _ d, Some (take 2 d);
     Keysign.e_ssh_msg_send := 0;
     Keysign.e_lib := lib0 |}.

(** *** Proxy, setting up a session *)

(** Two addresses for the server: the connect to the first is refused, the
    connect to the second is in progress. *)
Definition two_addresses : list Proxy.addrinfo :=
  [ {| Proxy.ai_inet := true; Proxy.ai_socket := 8; Proxy.ai_fcntl := 0;
       Proxy.ai_connect := -1; Proxy.ai_EINPROGRESS := false |};
    {| Proxy.ai_inet := true; Proxy.ai_socket := 9; Proxy.ai_fcntl := 0;
       Proxy.ai_connect := -1; Proxy.ai_EINPROGRESS := true |} ].

(** Two addresses to listen on: the first cannot be bound. *)
Definition two_listen_addresses : list Proxy.listen_addrinfo :=
  [ {| Proxy.la_inet := true; Proxy.la_socket := 4; Proxy.la_setsockopt := 0;
       Proxy.la_bind := -1; Proxy.la_listen := 0 |};
    {| Proxy.la_inet := true; Proxy.la_socket := 4; Proxy.la_setsockopt := 0;
       Proxy.la_bind := 0; Proxy.la_listen := 0 |} ].

(** The accepted socket is descriptor 7; the server is reached on 9. *)
Definition e_accepts : Proxy.accept_env :=
  {| Proxy.a_accept := 7; Proxy.a_fcntl := 0;
     Proxy.a_getaddrinfo := Some two_addresses |}.

(** The connect succeeded and both host keys load. *)
Definition e_connects : Proxy.connect_env :=
  {| Proxy.c_getsockopt := 0; Proxy.c_SO_ERROR := 0; Proxy.c_errno := 0;
     Proxy.c_add_hostkey_client := 0; Proxy.c_add_hostkey_server := 0 |}.

(** End of file on a read. *)
Definition eof : Proxy.io_ret :=
  {| Proxy.io_len := 0; Proxy.io_again := false; Proxy.io_packets := [] |}.

(** The proxy before the first connection: the listener is descriptor 3. *)
Definition w_start : Proxy.world := Proxy.initial {[3]} [x6b] [x6b; x6b].

(** A run of the event loop from [w_start]: a connection is accepted, the
    connect to the server completes, a read from the client completes two
    packets, and the server's socket is writable while the stack slot of
    [olen] holds -1. *)
Definition w_run : Proxy.world :=
  (Proxy.deliver 1 (Proxy.Writable 9 (-1) wrote_six)
     (Proxy.deliver 1 (Proxy.Readable 7 two_packets)
        (Proxy.connect_cb e_connects 1
           (Proxy.accept_cb e_accepts w_start).2).2).2).2.

(** A proxy started as [ssh-proxy -d -d -f -S hostkey -L 2222:server:22]
    whose host key file holds [key]. *)
Definition proxy_env (key : list byte) : Proxy.main_env :=
  {| Proxy.m_parse_forward := λ _,
       Some {| Proxy.listen_host := None; Proxy.listen_port := 2222;
               Proxy.connect_host := Some "server";
               Proxy.connect_port := 22 |};
     Proxy.m_open := λ _, 5;
     Proxy.m_read := λ _, Some key;
     Proxy.m_getaddrinfo := λ _ _, Some two_listen_addresses |}.

Definition proxy_options : list Proxy.getopt_ret :=
  [Proxy.Opt_d; Proxy.Opt_d; Proxy.Opt_f; Proxy.Opt_S "hostkey";
   Proxy.Opt_L "2222:server:22"].

End Examples.

(** * Properties *)

(* stdpp's set_solver clears hypotheses that are already gone *)
#[local] Set Warnings "-clear-no-such-hyp".

(** ** Running the monad *)

Lemma bind_ok {S E A B} (m : SE.M S E A) (f : A → SE.M S E B) w a w' :
  m w = (inr a, w') → (m ≫= f) w = f a w'.
Proof. intros H. unfold mbind, SE_bind, SE.bind. by rewrite H. Qed.

Lemma bind_abort {S E A B} (m : SE.M S E A) (f : A → SE.M S E B) w e w' :
  m w = (inl e, w') → (m ≫= f) w = (inl e, w').
Proof. intros H. unfold mbind, SE_bind, SE.bind. by rewrite H. Qed.

Lemma bind_assoc {S E A B C} (m : SE.M S E A) (f : A → SE.M S E B)
    (g : B → SE.M S E C) w :
  ((m ≫= f) ≫= g) w = (m ≫= λ a, f a ≫= g) w.
Proof. unfold mbind, SE_bind, SE.bind. by destruct (m w) as [[]]. Qed.

Lemma decide_same {A} (P : Prop) `{Decision P} (a : A) :
  (if decide P then a else a) = a.
Proof. by destruct (decide P). Qed.

Lemma mret_run {S E A} (a : A) (w : S) : (mret a : SE.M S E A) w = (inr a, w).
Proof. done. Qed.

Lemma ret_run {S E A} (a : A) (w : S) : (SE.ret a : SE.M S E A) w = (inr a, w).
Proof. done. Qed.

Lemma gets_run {S E A} (f : S → A) (w : S) :
  (SE.gets f : SE.M S E A) w = (inr (f w), w).
Proof. done. Qed.

(** Case analysis on the innermost scrutinee of the goal: one step of a
    symbolic run. *)
Ltac split_atom t :=
  lazymatch t with
  | context [match ?y with _ => _ end] => split_atom y
  | _ => first [is_var t; destruct t | destruct t eqn:?]
  end.
Ltac step :=
  lazymatch goal with
  | |- context [match ?x with _ => _ end] => split_atom x
  end; cbn.

(** ** Wire codec *)
Section WireFacts.
Import Wire.

Lemma byte_to_Z_range b : 0 ≤ byte_to_Z b < 256.
Proof. unfold byte_to_Z. pose proof (Byte.to_N_bounded b). lia. Qed.

Lemma lor_shiftl hi lo k :
  0 ≤ k → 0 ≤ lo < 2 ^ k → Z.lor (Z.shiftl hi k) lo = hi * 2 ^ k + lo.
Proof.
  intros Hk Hlo. rewrite Z.shiftl_mul_pow2 by done.
  symmetry. apply Z.add_nocarry_lor.
  apply Z.bits_inj'. intros n Hn. rewrite Z.land_spec, Z.bits_0.
  destruct (decide (n < k)).
  - by rewrite Z.mul_pow2_bits_low by lia.
  - rewrite <- (Z.mod_small lo (2 ^ k)) by done.
    rewrite Z.mod_pow2_bits_high by lia. apply andb_false_r.
Qed.

Lemma get_u32_value b0 b1 b2 b3 rest :
  get_u32 (b0 :: b1 :: b2 :: b3 :: rest)
  = Some (byte_to_Z b0 * 2 ^ 24 + byte_to_Z b1 * 2 ^ 16
          + byte_to_Z b2 * 2 ^ 8 + byte_to_Z b3, rest).
Proof.
  pose proof (byte_to_Z_range b0). pose proof (byte_to_Z_range b1).
  pose proof (byte_to_Z_range b2). pose proof (byte_to_Z_range b3).
  unfold get_u32.
  rewrite (lor_shiftl (byte_to_Z b2)) by lia.
  rewrite (lor_shiftl (byte_to_Z b1)) by lia.
  rewrite (lor_shiftl (byte_to_Z b0)) by lia.
  do 2 f_equal. lia.
Qed.

Lemma get_u32_range b v rest : get_u32 b = Some (v, rest) → 0 ≤ v < 2 ^ 32.
Proof.
  destruct b as [|b0 [|b1 [|b2 [|b3 r]]]]; try done.
  rewrite get_u32_value. intros [= <- <-].
  pose proof (byte_to_Z_range b0). pose proof (byte_to_Z_range b1).
  pose proof (byte_to_Z_range b2). pose proof (byte_to_Z_range b3).
  lia.
Qed.

Lemma get_string_length b s rest :
  get_string b = Some (s, rest) → Z.of_nat (length s) < 2 ^ 32.
Proof.
  unfold get_string. destruct (get_u32 b) as [[len r]|] eqn:Hu; [|done].
  apply get_u32_range in Hu. case_decide; [|done]. intros [= <- <-].
  rewrite length_take. lia.
Qed.

Lemma string_of_list_byte_length s :
  String.length (string_of_list_byte s) = length s.
Proof.
  unfold string_of_list_byte. induction s as [|c s IH]; cbn; [done|].
  by rewrite IH.
Qed.

Lemma get_cstring_length utf8 bs p len rest :
  get_cstring utf8 bs = Some (p, len, rest) →
  len = Z.of_nat (String.length p) ∧ len < 2 ^ 32.
Proof.
  unfold get_cstring. destruct (get_string bs) as [[s r]|] eqn:Hs; [|done].
  destruct (_ || _); [done|]. intros [= <- <- <-].
  rewrite string_of_list_byte_length. split; [done|].
  by eapply get_string_length.
Qed.

(** The high-bit rule of the mpint encoding, and the empty encoding of 0. *)
Example put_bignum2_0x80 :
  put_bignum2 128 = [x00; x00; x00; x02; x00; x80].
Proof. reflexivity. Qed.

Example put_bignum2_zero : put_bignum2 0 = [x00; x00; x00; x00].
Proof. reflexivity. Qed.

Example get_string_abc :
  get_string [x00; x00; x00; x02; x61; x62; x63] = Some ([x61; x62], [x63]).
Proof. reflexivity. Qed.

End WireFacts.

(** ** ECDH server key exchange *)
Section KexFacts.
Import Wire Kex Examples.

#[local] Arguments kex_ecdh_hash_input : simpl never.
#[local] Arguments put_string : simpl never.
#[local] Arguments put_ec : simpl never.
#[local] Arguments BN_bin2bn : simpl never.

Ltac run_body :=
  unfold input_kex_ecdh_init, input_kex_ecdh_init_body;
  unfold try, goto_out, fatal, emit;
  unfold mbind, mret, SE_bind, SE_ret, SE.bind, SE.ret, SE.exit, SE.gets,
    SE.get, SE.modify, SE.when;
  cbn.

Ltac not_in :=
  let Hin := fresh "Hin" in
  intros Hin;
  repeat (apply elem_of_cons in Hin as [Hin|Hin]; [discriminate Hin|]);
  apply elem_of_nil in Hin; exact Hin.

Lemma bzero_all b n : length b = n → Forall (λ x, x = x00) (bzero b n).
Proof.
  intros <-. unfold bzero. rewrite drop_all, app_nil_r.
  apply Forall_replicate; done.
Qed.

Lemma kbuf_after_compute (len : nat) (secret : list byte) (junk : byte) :
  length (take len secret
          ++ drop (length (take len secret)) (replicate len junk)) = len.
Proof. rewrite length_app, length_drop, length_replicate, length_take. lia. Qed.

Lemma kbuf_full (len : nat) (secret : list byte) (junk : byte) :
  length (take len secret) = len →
  take len secret ++ drop (length (take len secret)) (replicate len junk)
  = take len secret.
Proof.
  intros ->. rewrite drop_ge, app_nil_r; [done|]. by rewrite length_replicate.
Qed.

(** Every path through the handler: what holds of the memory at the end. *)
Lemma cleanup_paths e k o :
  input_kex_ecdh_init e k = o →
  match o with
  | Returned _ st => cleaned_up st
  | Exited msg _ => msg = "kexdh_server: sshkey_sign failed"
  end.
Proof.
  revert o. run_body. repeat step.
  all: intros ? <-; try done; unfold cleaned_up; cbn.
  all: repeat split; try done.
  all: apply bzero_all; rewrite ?length_replicate, ?kbuf_after_compute; done.
Qed.

(** The run of the handler on a point that decodes and is turned down. *)
Lemma rejected_point_paths e k group priv Q_S load_public load_private
    host_public host_private Q :
  kex_ecdh_name_to_nid (name k) = Some group →
  e_EC_KEY_new e = true → e_EC_KEY_generate_key e = Some (priv, Q_S) →
  load_host_public_key k = Some load_public →
  load_public (hostkey_type k) = Some host_public →
  load_host_private_key k = Some load_private →
  load_private (hostkey_type k) = Some host_private →
  e_EC_POINT_new e = true →
  e_sshpkt_get_ec e = (SSH_ERR_SUCCESS, Q) →
  e_sshpkt_get_end e = SSH_ERR_SUCCESS →
  Q = Infinity ∨ sshkey_ec_validate_public e group Q = false →
  ∃ st, input_kex_ecdh_init e k = Returned SSH_ERR_MESSAGE_INCOMPLETE st
        ∧ trace st = [EvGenerateKey group; EvValidatePublic Q false;
                      EvDisconnect "invalid client public key"]
        ∧ (∀ Q', EvComputeKey Q' ∉ trace st)
        ∧ (∀ type payload, EvSend type payload ∉ trace st)
        ∧ kbuf st = Null ∧ shared_secret st = Null ∧ hash st = None.
Proof.
  intros Hg Hnew Hgen Hlp Hhp Hlq Hhq Hpt Hec Hend Hbad.
  assert (sshkey_ec_validate_public e group Q = false) as Hv.
  { destruct Hbad as [->|?]; [reflexivity|done]. }
  run_body. rewrite Hg. cbn. rewrite Hnew. cbn. rewrite Hgen. cbn.
  rewrite Hlp, Hlq. cbn. rewrite Hhp, Hhq. cbn. rewrite Hpt. cbn.
  rewrite Hec. cbn. rewrite Hend. cbn. rewrite Hv. cbn.
  eexists. split; [reflexivity|]. cbn.
  split; [reflexivity|]. split; [intros; not_in|]. split; [intros; not_in|].
  done.
Qed.

(** Every path through the handler: what becomes of the session
    identifier. *)
Lemma session_id_paths e k o :
  input_kex_ecdh_init e k = o →
  (∀ sid, session_id k = Some sid → session_id (kex (final o)) = Some sid)
  ∧ (∀ st, o = Returned SSH_ERR_SUCCESS st →
       ∃ H, hash st = Some H
            ∧ session_id (kex st) = Some (default H (session_id k))).
Proof.
  revert o. run_body. repeat step.
  all: intros ? <-; cbn.
  all: split; [intros sid Hsid;
    first [exact Hsid | discriminate Hsid
          | match goal with
            | Hn : session_id _ = Some _ |- _ => rewrite Hn; exact Hsid
            end]|].
  all: intros st' Hst'; try discriminate Hst'.
  all: try (injection Hst' as Hr Hs; contradiction).
  all: injection Hst' as <-; cbn; eauto.
Qed.

Lemma handshakes_keep es k sid :
  session_id k = Some sid → session_id (handshakes k es) = Some sid.
Proof.
  revert k. induction es as [|e es IH]; intros k Hk; [done|].
  apply IH. by apply (session_id_paths e k _ eq_refl).
Qed.

(** Every path through the handler on a connection without a session
    identifier: what becomes of the exchange hash once it is computed. *)
Lemma first_hash_paths e k o H :
  input_kex_ecdh_init e k = o →
  session_id k = None → hash (final o) = Some H →
  if e_malloc_session_id e
  then session_id (kex (final o)) = Some H
  else ∃ st, o = Returned SSH_ERR_ALLOC_FAIL st
             ∧ session_id (kex st) = None
             ∧ (∀ d, EvSign d ∉ trace st)
             ∧ (∀ type payload, EvSend type payload ∉ trace st).
Proof.
  revert o. run_body. intros o Ho Hnone. rewrite Hnone in Ho. revert o Ho.
  repeat step.
  all: intros ? <-; cbn; intros Hh; try discriminate Hh.
  all: injection Hh as <-; try reflexivity.
  all: eexists; split; [reflexivity|]; cbn.
  all: split; [done|]. all: split; intros; not_in.
Qed.

(** Every path through the handler: what the hash was computed from. *)
Lemma hash_paths e k o H :
  input_kex_ecdh_init e k = o →
  hash (final o) = Some H →
  ∃ group load_public host_public priv Q_S secret,
    kex_ecdh_name_to_nid (name k) = Some group
    ∧ load_host_public_key k = Some load_public
    ∧ load_public (hostkey_type k) = Some host_public
    ∧ e_EC_KEY_generate_key e = Some (priv, Q_S)
    ∧ e_ECDH_compute_key e priv (e_sshpkt_get_ec e).2 = Some secret
    ∧ H = e_digest e (evp_md k)
            (kex_ecdh_hash_input group
               (client_version_string k) (server_version_string k)
               (peer k) (my k) (e_sshkey_to_blob e host_public).2
               (e_sshpkt_get_ec e).2 Q_S
               (BN_bin2bn
                  (take (Z.to_nat ((EC_GROUP_get_degree group + 7) / 8))
                     secret))).
Proof.
  revert o. run_body. repeat step.
  all: intros ? <-; cbn; intros Hh; try discriminate Hh.
  all: injection Hh as <-.
  all: rewrite kbuf_full by assumption.
  all: eexists _, _, _, _, _, _;
    repeat (split; [first [reflexivity | eassumption]|]); reflexivity.
Qed.

(** The validator turns the point at infinity down whatever the curve. *)
Lemma infinity_fails_validation e group :
  sshkey_ec_validate_public e group Infinity = false.
Proof. reflexivity. Qed.

(** C1, as amended: on every path on which [input_kex_ecdh_init] returns
    (success, decode error, validation failure, allocation or crypto
    failure), [kbuf] is zeroed and freed, the shared secret is cleared and
    freed, the private scalar of the server key is cleared, and the host-key
    blob and the signature are released; the one path that does not return
    is the [fatal] of a failed signature, which ends the process with the
    message below and without the cleanup. *)
Theorem cleanup_on_return e k :
  match input_kex_ecdh_init e k with
  | Returned _ st => cleaned_up st
  | Exited msg _ => msg = "kexdh_server: sshkey_sign failed"
  end.
Proof. exact (cleanup_paths e k _ eq_refl). Qed.

(** C1 as stated does not hold: when the host key fails to sign, the handler
    leaves through [fatal] with the raw shared secret still in [kbuf]. *)
Lemma cleanup_skipped_on_sign_failure :
  (∃ st, input_kex_ecdh_init e_sign_fails k_p256
         = Exited "kexdh_server: sshkey_sign failed" st)
  ∧ ¬ cleaned_up (final (input_kex_ecdh_init e_sign_fails k_p256)).
Proof.
  split.
  - eexists. vm_compute. reflexivity.
  - intros [H _]. vm_compute in H. exact H.
Qed.

(** C2: if the client's point decodes (sshpkt_get_ec and sshpkt_get_end
    return 0) and the validation turns it down, as it does the point at
    infinity, the handler sends the disconnect "invalid client public key"
    and returns SSH_ERR_MESSAGE_INCOMPLETE.  After the generation of the
    server key the run consists of the validation, which fails, and the
    disconnect: ECDH_compute_key is not run on any point, no buffer for a
    secret was allocated, nothing was hashed and no KEX_ECDH_REPLY is sent.
    The hypotheses on the name, the key generation, the host keys and
    EC_POINT_new say that the handler gets as far as reading the packet. *)
Theorem invalid_client_public_key e k group priv Q_S load_public load_private
    host_public host_private Q :
  kex_ecdh_name_to_nid (name k) = Some group →
  e_EC_KEY_new e = true → e_EC_KEY_generate_key e = Some (priv, Q_S) →
  load_host_public_key k = Some load_public →
  load_public (hostkey_type k) = Some host_public →
  load_host_private_key k = Some load_private →
  load_private (hostkey_type k) = Some host_private →
  e_EC_POINT_new e = true →
  e_sshpkt_get_ec e = (SSH_ERR_SUCCESS, Q) →
  e_sshpkt_get_end e = SSH_ERR_SUCCESS →
  Q = Infinity ∨ sshkey_ec_validate_public e group Q = false →
  ∃ st, input_kex_ecdh_init e k = Returned SSH_ERR_MESSAGE_INCOMPLETE st
        ∧ trace st = [EvGenerateKey group; EvValidatePublic Q false;
                      EvDisconnect "invalid client public key"]
        ∧ (∀ Q', EvComputeKey Q' ∉ trace st)
        ∧ (∀ type payload, EvSend type payload ∉ trace st)
        ∧ kbuf st = Null ∧ shared_secret st = Null ∧ hash st = None.
Proof. apply rejected_point_paths. Qed.

Lemma invalid_client_public_key_witness :
  (∃ st, input_kex_ecdh_init e_infinity k_p256
         = Returned SSH_ERR_MESSAGE_INCOMPLETE st
         ∧ trace st = [EvGenerateKey NID_X9_62_prime256v1;
                       EvValidatePublic Infinity false;
                       EvDisconnect "invalid client public key"]
         ∧ (∀ Q', EvComputeKey Q' ∉ trace st)
         ∧ (∀ type payload, EvSend type payload ∉ trace st)
         ∧ kbuf st = Null ∧ shared_secret st = Null ∧ hash st = None)
  ∧ (∃ st, input_kex_ecdh_init e_off_curve k_p256
           = Returned SSH_ERR_MESSAGE_INCOMPLETE st
           ∧ trace st = [EvGenerateKey NID_X9_62_prime256v1;
                         EvValidatePublic (Affine 5 6) false;
                         EvDisconnect "invalid client public key"]
           ∧ (∀ Q', EvComputeKey Q' ∉ trace st)
           ∧ (∀ type payload, EvSend type payload ∉ trace st)
           ∧ kbuf st = Null ∧ shared_secret st = Null ∧ hash st = None).
Proof.
  split.
  - apply (invalid_client_public_key e_infinity k_p256 NID_X9_62_prime256v1
             7 (Affine 3 4) (λ _, Some host_key) (λ _, Some host_key)
             host_key host_key Infinity); try reflexivity.
    left. reflexivity.
  - apply (invalid_client_public_key e_off_curve k_p256 NID_X9_62_prime256v1
             7 (Affine 3 4) (λ _, Some host_key) (λ _, Some host_key)
             host_key host_key (Affine 5 6)); try reflexivity.
    right. reflexivity.
Defined.



(** C4: when [kex->evp_md] is the digest that belongs to the negotiated
    name, the exchange hash that the handler computes is the digest, under
    that algorithm, of the concatenation of: string V_C, string V_S, string
    I_C, string I_S, string K_S, the client's point Q_C, the server's point
    Q_S, and the shared secret K as an mpint, in this order. *)
Theorem exchange_hash_fields e k H :
  kex_ecdh_name_to_evpmd (name k) = Some (evp_md k) →
  hash (final (input_kex_ecdh_init e k)) = Some H →
  hash_fields e k H.
Proof.
  intros Hmd Hh.
  destruct (hash_paths e k _ H eq_refl Hh)
    as (group & lp & hp & priv & Q_S & secret & Hg & Hl & Hp & Hk & Hc & ->).
  exists group, (evp_md k), lp, hp, priv, Q_S, secret.
  repeat (split; [assumption|]). reflexivity.
Qed.

Lemma exchange_hash_fields_witness :
  kex_ecdh_name_to_evpmd (name k_p256) = Some (evp_md k_p256)
  ∧ hash (final (input_kex_ecdh_init e_ok k_p256)) = Some [x00; x00; x00; x09]
  ∧ hash_fields e_ok k_p256 [x00; x00; x00; x09].
Proof.
  assert (kex_ecdh_name_to_evpmd (name k_p256) = Some (evp_md k_p256))
    as H1 by reflexivity.
  assert (hash (final (input_kex_ecdh_init e_ok k_p256))
          = Some [x00; x00; x00; x09]) as H2 by (vm_compute; reflexivity).
  exact (conj H1 (conj H2 (exchange_hash_fields e_ok k_p256 _ H1 H2))).
Defined.

(** C9: if the negotiated name is none of ecdh-sha2-nistp256,
    ecdh-sha2-nistp384 and ecdh-sha2-nistp521, the handler returns
    SSH_ERR_INVALID_ARGUMENT having made no call at all: no key pair, no
    shared secret, no hash, no signature. *)
Theorem unsupported_name_no_crypto e k :
  name k ≠ "ecdh-sha2-nistp256" → name k ≠ "ecdh-sha2-nistp384" →
  name k ≠ "ecdh-sha2-nistp521" →
  ∃ st, input_kex_ecdh_init e k = Returned SSH_ERR_INVALID_ARGUMENT st
        ∧ trace st = [] ∧ server_key st = Null ∧ kbuf st = Null
        ∧ shared_secret st = Null ∧ hash st = None ∧ signature st = Null.
Proof.
  intros H1 H2 H3.
  assert (kex_ecdh_name_to_nid (name k) = None) as Hn.
  { unfold kex_ecdh_name_to_nid. by repeat case_decide. }
  run_body. rewrite Hn. cbn. eauto 10.
Qed.

Lemma unsupported_name_no_crypto_witness :
  name k_foo ≠ "ecdh-sha2-nistp256" ∧ name k_foo ≠ "ecdh-sha2-nistp384"
  ∧ name k_foo ≠ "ecdh-sha2-nistp521"
  ∧ ∃ st, input_kex_ecdh_init e_ok k_foo
          = Returned SSH_ERR_INVALID_ARGUMENT st
          ∧ trace st = [] ∧ server_key st = Null ∧ kbuf st = Null
          ∧ shared_secret st = Null ∧ hash st = None ∧ signature st = Null.
Proof.
  assert (name k_foo ≠ "ecdh-sha2-nistp256") as H1 by discriminate.
  assert (name k_foo ≠ "ecdh-sha2-nistp384") as H2 by discriminate.
  assert (name k_foo ≠ "ecdh-sha2-nistp521") as H3 by discriminate.
  exact (conj H1 (conj H2 (conj H3
           (unsupported_name_no_crypto e_ok k_foo H1 H2 H3)))).
Defined.

(** *** Further properties of the handler *)

#[local] Arguments ECDH_short : simpl never.

Ltac in_cases Hin :=
  repeat (apply elem_of_cons in Hin as [Hin|Hin]; [try discriminate Hin|]);
  try (apply elem_of_nil in Hin; contradiction).

(** Every path through the handler: what a return value of 0 entails. *)
Lemma success_paths e k o :
  input_kex_ecdh_init e k = o →
  ∀ st, o = Returned SSH_ERR_SUCCESS st →
  ∃ group load_public host_public load_private host_private priv Q_S H sig K_,
    kex_ecdh_name_to_nid (name k) = Some group
    ∧ e_EC_KEY_generate_key e = Some (priv, Q_S)
    ∧ load_host_public_key k = Some load_public
    ∧ load_public (hostkey_type k) = Some host_public
    ∧ load_host_private_key k = Some load_private
    ∧ load_private (hostkey_type k) = Some host_private
    ∧ hash st = Some H
    ∧ e_sshkey_sign e host_private H = Some sig
    ∧ trace st = reply_trace e k group Q_S
                   (e_sshkey_to_blob e host_public).2 H sig K_.
Proof.
  revert o. run_body. repeat step.
  all: intros ? <- st Hst; try discriminate Hst.
  all: try (injection Hst as Hr Hs; contradiction).
  all: injection Hst as <-; cbn.
  all: eexists _, _, _, _, _, _, _, _, _, _.
  all: repeat (split; [first [reflexivity | eassumption]|]).
  all: reflexivity.
Qed.

(** Every path through the handler: what any other outcome excludes. *)
Lemma failure_paths e k o :
  input_kex_ecdh_init e k = o →
  (∀ st, o ≠ Returned SSH_ERR_SUCCESS st) →
  (EvFinish ∉ trace (final o))
  ∧ (∀ H K_, EvDeriveKeys H K_ ∉ trace (final o))
  ∧ (∀ type payload, EvSend type payload ∉ trace (final o)).
Proof.
  revert o. run_body. repeat step.
  all: intros ? <- Hne; cbn.
  all: try (exfalso; eapply Hne; reflexivity).
  all: try (exfalso;
            match goal with
            | H : ?r = SSH_ERR_SUCCESS |- _ => eapply Hne; by rewrite H
            end).
  all: repeat split; intros; not_in.
Qed.

(** Every path through the handler: when a disconnect is sent. *)
Lemma disconnect_paths e k o reason :
  input_kex_ecdh_init e k = o →
  EvDisconnect reason ∈ trace (final o) →
  reason = "invalid client public key"%string
  ∧ ∃ st, o = Returned SSH_ERR_MESSAGE_INCOMPLETE st.
Proof.
  revert o. run_body. repeat step.
  all: intros ? <-; cbn; intros Hin.
  all: repeat (apply elem_of_cons in Hin as [Hin|Hin]; [try discriminate Hin|]).
  all: try (apply elem_of_nil in Hin; contradiction).
  all: injection Hin as ->; split; [reflexivity|]; by eexists.
Qed.

(** Every path through the handler after the key pair was generated: the
    host key is not to be had. *)
Lemma host_key_paths e k o group priv Q_S :
  input_kex_ecdh_init e k = o →
  kex_ecdh_name_to_nid (name k) = Some group →
  e_EC_KEY_new e = true → e_EC_KEY_generate_key e = Some (priv, Q_S) →
  (load_host_public_key k = None ∨ load_host_private_key k = None →
   stopped_after_keygen o group SSH_ERR_INVALID_ARGUMENT)
  ∧ (∀ load_public load_private,
       load_host_public_key k = Some load_public →
       load_host_private_key k = Some load_private →
       load_public (hostkey_type k) = None
       ∨ load_private (hostkey_type k) = None →
       stopped_after_keygen o group SSH_ERR_KEY_TYPE_MISMATCH).
Proof.
  unfold stopped_after_keygen.
  revert o. run_body. intros o Ho Hg Hn Hk. rewrite Hg, Hn in Ho.
  cbn in Ho. rewrite Hk in Ho. cbn in Ho. revert o Ho.
  repeat step.
  all: intros ? <-; split.
  all: try (intros [Hc|Hc]; discriminate Hc).
  all: try (intros lp lq [= <-] [= <-] [Hc|Hc]; congruence).
  all: try (intros lp lq Hp Hq; discriminate).
  all: try (intros _; eexists; split; [reflexivity|]; cbn; done).
  all: try (intros lp lq [= <-] [= <-] _; eexists; split; [reflexivity|];
            cbn; done).
Qed.

(** Every path through the handler: what an ECDH computation presupposes. *)
Lemma compute_paths e k o Q :
  input_kex_ecdh_init e k = o →
  EvComputeKey Q ∈ trace (final o) →
  ∃ group,
    kex_ecdh_name_to_nid (name k) = Some group
    ∧ e_sshpkt_get_ec e = (SSH_ERR_SUCCESS, Q)
    ∧ e_sshpkt_get_end e = SSH_ERR_SUCCESS
    ∧ sshkey_ec_validate_public e group Q = true
    ∧ EvValidatePublic Q true ∈ trace (final o).
Proof.
  revert o. run_body. repeat step.
  all: intros ? <-; cbn; intros Hin.
  all: in_cases Hin.
  all: injection Hin as ->.
  all: eexists; split; [reflexivity|].
  all: split; [destruct (e_sshpkt_get_ec e); cbn in *; congruence|].
  all: split; [done|]. all: split; [done|].
  all: apply list_elem_of_further, list_elem_of_here.
Qed.

(** Every path through the handler: what is signed. *)
Lemma sign_paths e k o d :
  input_kex_ecdh_init e k = o →
  EvSign d ∈ trace (final o) →
  hash (final o) = Some d
  ∧ session_id (kex (final o)) = Some (default d (session_id k)).
Proof.
  revert o. run_body. repeat step.
  all: intros ? <-; cbn; intros Hin.
  all: in_cases Hin.
  all: injection Hin as <-.
  all: split; [reflexivity|].
  all: first [reflexivity
             | match goal with Hs : session_id _ = _ |- _ => by rewrite Hs end].
Qed.

(** Every path through the handler: the fields of the Kex it leaves alone. *)
Lemma frame_paths e k o :
  input_kex_ecdh_init e k = o →
  let k' := kex (final o) in
  name k' = name k ∧ evp_md k' = evp_md k ∧ hostkey_type k' = hostkey_type k
  ∧ client_version_string k' = client_version_string k
  ∧ server_version_string k' = server_version_string k
  ∧ peer k' = peer k ∧ my k' = my k
  ∧ load_host_public_key k' = load_host_public_key k
  ∧ load_host_private_key k' = load_host_private_key k
  ∧ (∀ r st, o = Returned r st → ∀ key, ec_client_key k' ≠ Live key).
Proof.
  revert o. run_body. repeat step.
  all: intros ? <-; cbn.
  all: repeat (split; [first [reflexivity | assumption | symmetry; assumption]|]).
  all: intros r st Hst key; try discriminate Hst.
  all: destruct (ec_client_key k); discriminate.
Qed.

Lemma take_short {A} (n : nat) (l : list A) :
  (length l < n)%nat → length (take n l) ≠ n.
Proof. rewrite length_take. lia. Qed.

(** Every path through the handler: an ECDH result that does not fill
    [kbuf]. *)
Lemma short_paths e k o group priv Q_S Q :
  input_kex_ecdh_init e k = o →
  kex_ecdh_name_to_nid (name k) = Some group →
  e_EC_KEY_generate_key e = Some (priv, Q_S) →
  EvComputeKey Q ∈ trace (final o) →
  ECDH_short e priv Q (Z.to_nat ((EC_GROUP_get_degree group + 7) / 8)) →
  ∃ st, o = Returned SSH_ERR_LIBCRYPTO_ERROR st
        ∧ hash st = None ∧ (∀ d, EvSign d ∉ trace st)
        ∧ wiped_bytes (kbuf st) ∧ wiped_bn (shared_secret st).
Proof.
  revert o. run_body. intros o Ho Hg Hk. rewrite Hg in Ho. cbn in Ho.
  rewrite Hk in Ho. cbn in Ho. revert o Ho.
  repeat step.
  all: intros ? <-; cbn; intros Hin Hshort.
  all: in_cases Hin.
  all: injection Hin as ->.
  all: unfold ECDH_short in Hshort.
  all: repeat match goal with
              | H : e_ECDH_compute_key _ _ _ = _ |- _ =>
                  rewrite H in Hshort; clear H
              end.
  all: try (exfalso; eapply take_short; eassumption).
  all: eexists; split; [reflexivity|]; cbn.
  all: split; [reflexivity|]. all: split; [intros; not_in|].
  all: split; [|reflexivity].
  all: apply bzero_all; rewrite ?length_replicate, ?kbuf_after_compute; done.
Qed.

(** X1: when the handler returns 0, it made these calls and no others, in
    this order: key generation, validation of the client's point (passed),
    ECDH on that point, the exchange hash, the signature of the hash [H] by
    the private host key, the sending of one KEX_ECDH_REPLY made of the
    host-key blob, the server's public point and that signature, the key
    derivation from [H] and the shared secret, and kex_finish. *)
Theorem reply_on_success e k st :
  input_kex_ecdh_init e k = Returned SSH_ERR_SUCCESS st →
  ∃ group load_public host_public load_private host_private priv Q_S H sig K_,
    kex_ecdh_name_to_nid (name k) = Some group
    ∧ e_EC_KEY_generate_key e = Some (priv, Q_S)
    ∧ load_host_public_key k = Some load_public
    ∧ load_public (hostkey_type k) = Some host_public
    ∧ load_host_private_key k = Some load_private
    ∧ load_private (hostkey_type k) = Some host_private
    ∧ hash st = Some H
    ∧ e_sshkey_sign e host_private H = Some sig
    ∧ trace st = reply_trace e k group Q_S
                   (e_sshkey_to_blob e host_public).2 H sig K_.
Proof. intros H. exact (success_paths e k _ H st eq_refl). Qed.

Lemma reply_on_success_witness :
  ∃ st, input_kex_ecdh_init e_ok k_p256 = Returned SSH_ERR_SUCCESS st
  ∧ ∃ group load_public host_public load_private host_private priv Q_S H sig K_,
    kex_ecdh_name_to_nid (name k_p256) = Some group
    ∧ e_EC_KEY_generate_key e_ok = Some (priv, Q_S)
    ∧ load_host_public_key k_p256 = Some load_public
    ∧ load_public (hostkey_type k_p256) = Some host_public
    ∧ load_host_private_key k_p256 = Some load_private
    ∧ load_private (hostkey_type k_p256) = Some host_private
    ∧ hash st = Some H
    ∧ e_sshkey_sign e_ok host_private H = Some sig
    ∧ trace st = reply_trace e_ok k_p256 group Q_S
                   (e_sshkey_to_blob e_ok host_public).2 H sig K_.
Proof.
  assert (input_kex_ecdh_init e_ok k_p256
          = Returned SSH_ERR_SUCCESS (final (input_kex_ecdh_init e_ok k_p256)))
    as Hrun by (vm_compute; reflexivity).
  exact (ex_intro _ _ (conj Hrun (reply_on_success e_ok k_p256 _ Hrun))).
Defined.

(** X2: unless the handler returns 0, sshpkt_send has not sent a
    KEX_ECDH_REPLY, and neither kex_derive_keys nor kex_finish is called;
    this covers every error return and the [fatal] exit.  What such a run
    can send is the disconnect of a failed validation, with the reason
    "invalid client public key", on the return with
    SSH_ERR_MESSAGE_INCOMPLETE, and nothing else. *)
Theorem no_keys_without_success e k :
  (∀ st, input_kex_ecdh_init e k ≠ Returned SSH_ERR_SUCCESS st) →
  (EvFinish ∉ trace (final (input_kex_ecdh_init e k)))
  ∧ (∀ H K_, EvDeriveKeys H K_ ∉ trace (final (input_kex_ecdh_init e k)))
  ∧ (∀ type payload,
       EvSend type payload ∉ trace (final (input_kex_ecdh_init e k)))
  ∧ (∀ reason,
       EvDisconnect reason ∈ trace (final (input_kex_ecdh_init e k)) →
       reason = "invalid client public key"%string
       ∧ ∃ st, input_kex_ecdh_init e k
               = Returned SSH_ERR_MESSAGE_INCOMPLETE st).
Proof.
  intros Hne.
  destruct (failure_paths e k _ eq_refl Hne) as (Hf & Hd & Hs).
  repeat (split; [done|]).
  intros reason. apply (disconnect_paths e k _ reason eq_refl).
Qed.

Lemma no_keys_without_success_witness :
  (EvFinish ∉ trace (final (input_kex_ecdh_init e_off_curve k_p256)))
  ∧ (∀ H K_, EvDeriveKeys H K_
             ∉ trace (final (input_kex_ecdh_init e_off_curve k_p256)))
  ∧ (∀ type payload,
       EvSend type payload
       ∉ trace (final (input_kex_ecdh_init e_off_curve k_p256)))
  ∧ (∀ reason,
       EvDisconnect reason
       ∈ trace (final (input_kex_ecdh_init e_off_curve k_p256)) →
       reason = "invalid client public key"%string
       ∧ ∃ st, input_kex_ecdh_init e_off_curve k_p256
               = Returned SSH_ERR_MESSAGE_INCOMPLETE st).
Proof.
  apply (no_keys_without_success e_off_curve k_p256).
  intros st. vm_compute. discriminate.
Defined.

(** X3: with a supported name and a generated key pair, a Kex that lacks
    one of the two callbacks that load the host key makes the handler return
    SSH_ERR_INVALID_ARGUMENT, and callbacks that find no public or no
    private host key make it return SSH_ERR_KEY_TYPE_MISMATCH; either way
    the packet has not been read, nothing was hashed or signed, and the key
    pair that was generated is wiped. *)
Theorem missing_host_key e k group priv Q_S :
  kex_ecdh_name_to_nid (name k) = Some group →
  e_EC_KEY_new e = true → e_EC_KEY_generate_key e = Some (priv, Q_S) →
  (load_host_public_key k = None ∨ load_host_private_key k = None →
   stopped_after_keygen (input_kex_ecdh_init e k) group
     SSH_ERR_INVALID_ARGUMENT)
  ∧ (∀ load_public load_private,
       load_host_public_key k = Some load_public →
       load_host_private_key k = Some load_private →
       load_public (hostkey_type k) = None
       ∨ load_private (hostkey_type k) = None →
       stopped_after_keygen (input_kex_ecdh_init e k) group
         SSH_ERR_KEY_TYPE_MISMATCH).
Proof. exact (host_key_paths e k _ group priv Q_S eq_refl). Qed.

Lemma missing_host_key_witness :
  stopped_after_keygen (input_kex_ecdh_init e_ok k_no_callback)
    NID_secp384r1 SSH_ERR_INVALID_ARGUMENT
  ∧ stopped_after_keygen (input_kex_ecdh_init e_ok k_no_private_key)
      NID_secp384r1 SSH_ERR_KEY_TYPE_MISMATCH.
Proof.
  split.
  - apply (missing_host_key e_ok k_no_callback NID_secp384r1 7 (Affine 3 4));
      try reflexivity.
    right. reflexivity.
  - apply (proj2 (missing_host_key e_ok k_no_private_key NID_secp384r1 7
                    (Affine 3 4) eq_refl eq_refl eq_refl)
             (λ _, Some host_key) (λ _, None)); try reflexivity.
    right. reflexivity.
Defined.

(** X4: ECDH_compute_key is only ever run on a point [Q] that sshpkt_get_ec
    decoded from a packet with nothing after it and that
    sshkey_ec_validate_public accepted. *)
Theorem ecdh_only_on_validated_point e k Q :
  EvComputeKey Q ∈ trace (final (input_kex_ecdh_init e k)) →
  ∃ group,
    kex_ecdh_name_to_nid (name k) = Some group
    ∧ e_sshpkt_get_ec e = (SSH_ERR_SUCCESS, Q)
    ∧ e_sshpkt_get_end e = SSH_ERR_SUCCESS
    ∧ sshkey_ec_validate_public e group Q = true
    ∧ EvValidatePublic Q true ∈ trace (final (input_kex_ecdh_init e k)).
Proof. exact (compute_paths e k _ Q eq_refl). Qed.

Lemma ecdh_only_on_validated_point_witness :
  EvComputeKey (Affine 5 6) ∈ trace (final (input_kex_ecdh_init e_ok k_p256))
  ∧ ∃ group,
      kex_ecdh_name_to_nid (name k_p256) = Some group
      ∧ e_sshpkt_get_ec e_ok = (SSH_ERR_SUCCESS, Affine 5 6)
      ∧ e_sshpkt_get_end e_ok = SSH_ERR_SUCCESS
      ∧ sshkey_ec_validate_public e_ok group (Affine 5 6) = true
      ∧ EvValidatePublic (Affine 5 6) true
        ∈ trace (final (input_kex_ecdh_init e_ok k_p256)).
Proof.
  assert (EvComputeKey (Affine 5 6)
            ∈ trace (final (input_kex_ecdh_init e_ok k_p256))) as H.
  { vm_compute. do 2 apply list_elem_of_further. apply list_elem_of_here. }
  exact (conj H (ecdh_only_on_validated_point e_ok k_p256 (Affine 5 6) H)).
Defined.

(** X5: the private host key is asked to sign nothing but the exchange hash
    [H] of the run, and when it is asked the connection has its session
    identifier: the one it had, or [H] if it had none. *)
Theorem signs_only_exchange_hash e k d :
  EvSign d ∈ trace (final (input_kex_ecdh_init e k)) →
  hash (final (input_kex_ecdh_init e k)) = Some d
  ∧ session_id (kex (final (input_kex_ecdh_init e k)))
    = Some (default d (session_id k)).
Proof. exact (sign_paths e k _ d eq_refl). Qed.

Lemma signs_only_exchange_hash_witness :
  EvSign [x00; x00; x00; x09]
    ∈ trace (final (input_kex_ecdh_init e_sign_fails k_p256))
  ∧ hash (final (input_kex_ecdh_init e_sign_fails k_p256))
    = Some [x00; x00; x00; x09]
  ∧ session_id (kex (final (input_kex_ecdh_init e_sign_fails k_p256)))
    = Some (default [x00; x00; x00; x09] (session_id k_p256)).
Proof.
  assert (EvSign [x00; x00; x00; x09]
            ∈ trace (final (input_kex_ecdh_init e_sign_fails k_p256))) as H.
  { vm_compute. do 4 apply list_elem_of_further. apply list_elem_of_here. }
  exact (conj H (signs_only_exchange_hash e_sign_fails k_p256 _ H)).
Defined.

(** X6: whatever the outcome, the handler leaves the name, the digest, the
    host key type, the two version strings, the two KEXINIT payloads and the
    two callbacks of the Kex as they were; and when it returns,
    [kex->ec_client_key] does not point to a key any more. *)
Theorem kex_fields_kept e k :
  let k' := kex (final (input_kex_ecdh_init e k)) in
  name k' = name k ∧ evp_md k' = evp_md k ∧ hostkey_type k' = hostkey_type k
  ∧ client_version_string k' = client_version_string k
  ∧ server_version_string k' = server_version_string k
  ∧ peer k' = peer k ∧ my k' = my k
  ∧ load_host_public_key k' = load_host_public_key k
  ∧ load_host_private_key k' = load_host_private_key k
  ∧ (∀ r st, input_kex_ecdh_init e k = Returned r st →
             ∀ key, ec_client_key k' ≠ Live key).
Proof. exact (frame_paths e k _ eq_refl). Qed.

(** X7: when ECDH_compute_key fails or yields fewer than [klen] octets, the
    handler returns SSH_ERR_LIBCRYPTO_ERROR; no hash is computed, nothing is
    signed, and the partly filled [kbuf] and the shared secret are wiped. *)
Theorem short_secret_is_error e k group priv Q_S Q :
  kex_ecdh_name_to_nid (name k) = Some group →
  e_EC_KEY_generate_key e = Some (priv, Q_S) →
  EvComputeKey Q ∈ trace (final (input_kex_ecdh_init e k)) →
  ECDH_short e priv Q (Z.to_nat ((EC_GROUP_get_degree group + 7) / 8)) →
  ∃ st, input_kex_ecdh_init e k = Returned SSH_ERR_LIBCRYPTO_ERROR st
        ∧ hash st = None ∧ (∀ d, EvSign d ∉ trace st)
        ∧ wiped_bytes (kbuf st) ∧ wiped_bn (shared_secret st).
Proof. exact (short_paths e k _ group priv Q_S Q eq_refl). Qed.

Lemma short_secret_is_error_witness :
  ∃ st, input_kex_ecdh_init e_short_secret k_p256
        = Returned SSH_ERR_LIBCRYPTO_ERROR st
        ∧ hash st = None ∧ (∀ d, EvSign d ∉ trace st)
        ∧ wiped_bytes (kbuf st) ∧ wiped_bn (shared_secret st).
Proof.
  apply (short_secret_is_error e_short_secret k_p256 NID_X9_62_prime256v1 7
           (Affine 3 4) (Affine 5 6)); try reflexivity.
  - vm_compute. do 2 apply list_elem_of_further. apply list_elem_of_here.
  - vm_compute. lia.
Defined.

End KexFacts.

(** ** Proxy session engine *)
Section ProxyFacts.
Import Proxy Examples.

Lemma put_id w s x : heap w !! s = Some x → put s x w = w.
Proof. intros H. unfold put. rewrite insert_id by done. by destruct w. Qed.

Lemma put_put s x y w : put s y (put s x w) = put s y w.
Proof. unfold put; cbn. by rewrite insert_insert_eq. Qed.

Lemma deref_put s x w : deref s (put s x w) = (inr x, put s x w).
Proof. unfold deref, put; cbn. by rewrite lookup_insert_eq. Qed.

Lemma update_put s f x w : update s f (put s x w) = (inr tt, put s (f x) w).
Proof.
  unfold update. rewrite (bind_ok _ _ _ _ _ (deref_put s x w)).
  unfold SE.modify. f_equal. apply put_put.
Qed.

Lemma record_put a s x w :
  record a (put s x w) = (inr tt, put s x (set_log (log w ++ [a]) w)).
Proof. done. Qed.

Lemma close_put fd_ s x w :
  close fd_ (put s x w)
  = (inr tt, put s x (set_log (log w ++ [Close fd_])
                        (set_open_fds (open_fds w ∖ {[fd_]}) w))).
Proof. done. Qed.

Lemma event_add_put s d k x w :
  event_add s d k (put s x w)
  = (inr tt, put s (set_side d (set_event k true (get_side d x)) x) w).
Proof. unfold event_add. by rewrite update_put. Qed.

Lemma event_del_put s d k x w :
  event_del s d k (put s x w)
  = (inr tt, put s (set_side d (set_event k false (get_side d x)) x)
               (set_log (log w ++ [EventDel s d k]) w)).
Proof.
  unfold event_del. rewrite (bind_ok _ _ _ _ _ (update_put _ _ _ _)). done.
Qed.

Lemma free_engine_put s d x w :
  free_engine s d (put s x w)
  = (inr tt, put s (set_side d (set_ssh None (get_side d x)) x)
               (set_log (log w ++ (if ssh (get_side d x) is Some _
                                   then [SshFree s d] else [])) w)).
Proof.
  unfold free_engine. rewrite (bind_ok _ _ _ _ _ (deref_put _ _ _)).
  destruct (ssh (get_side d x)) eqn:He.
  - rewrite (bind_ok _ _ _ _ _ (record_put _ _ _ _)).
    by rewrite update_put.
  - cbn. rewrite app_nil_r.
    replace (set_log (log w) w) with w by by destruct w.
    f_equal. destruct d, x as [[] []]; cbn in *; by subst.
Qed.

Lemma xfree_put s x w :
  xfree s (put s x w)
  = (inr tt, set_log (log w ++ [Xfree s]) (set_heap (delete s (heap w)) w)).
Proof.
  unfold xfree. rewrite (bind_ok _ _ _ _ _ (deref_put _ _ _)).
  unfold mbind, SE_bind, SE.bind, SE.modify, record, put; cbn.
  by rewrite delete_insert_eq.
Qed.

Lemma tailq_remove_put s x w :
  TAILQ_REMOVE s (put s x w)
  = (inr tt, put s x (set_log (log w ++ [TailqRemove s])
                        (set_sessions (filter (λ t, t ≠ s) (sessions w)) w))).
Proof. done. Qed.

Lemma opened_put fd_ s x w :
  opened fd_ (put s x w)
  = (inr tt, put s x (set_open_fds ({[fd_]} ∪ open_fds w) w)).
Proof. done. Qed.

Lemma listener_put v s x w :
  (SE.modify (set_listener v) : P unit) (put s x w)
  = (inr tt, put s x (set_listener v w)).
Proof. done. Qed.

(** One statement of a callback, run on a world in which the record at [s]
    is known. *)
Ltac pstep :=
  first
  [ rewrite bind_assoc
  | rewrite (bind_ok _ _ _ _ _ (ret_run _ _))
  | rewrite (bind_ok _ _ _ _ _ (deref_put _ _ _))
  | rewrite (bind_ok _ _ _ _ _ (update_put _ _ _ _))
  | rewrite (bind_ok _ _ _ _ _ (close_put _ _ _ _))
  | rewrite (bind_ok _ _ _ _ _ (opened_put _ _ _ _))
  | rewrite (bind_ok _ _ _ _ _ (listener_put _ _ _ _))
  | rewrite (bind_ok _ _ _ _ _ (record_put _ _ _ _))
  | rewrite (bind_ok _ _ _ _ _ (event_add_put _ _ _ _ _))
  | rewrite (bind_ok _ _ _ _ _ (event_del_put _ _ _ _ _))
  | rewrite (bind_ok _ _ _ _ _ (free_engine_put _ _ _ _))
  | rewrite (bind_ok _ _ _ _ _ (tailq_remove_put _ _ _))
  | rewrite (bind_ok _ _ _ _ _ (mret_run _ _)) ].

Lemma session_close_put s x w :
  ∃ w', session_close s (put s x w) = (inr tt, w')
    ∧ log w' = log w ++ teardown s x
    ∧ heap w' = delete s (heap w)
    ∧ open_fds w' = open_fds w ∖ closed_fds x
    ∧ sessions w' = (if decide (connected x = 1)
                     then filter (λ t, t ≠ s) (sessions w) else sessions w)
    ∧ listener w' = listener w.
Proof.
  unfold session_close, teardown, closed_fds. pstep.
  unfold SE.when.
  repeat case_bool_decide; repeat case_decide; try done.
  all: repeat pstep; rewrite xfree_put; eexists; split; [done|]; cbn.
  all: rewrite <- ?app_assoc; cbn.
  all: repeat split; try done; try set_solver.
  all: destruct x as [[? ? ? []] [? ? ? []] ?]; cbn in *; done.
Qed.

Lemma teardown_ordered s x : ordered (teardown_phase <$> teardown s x) = true.
Proof.
  unfold teardown.
  repeat case_decide; destruct (ssh (client x)), (ssh (server x)); done.
Qed.

Lemma teardown_NoDup s x :
  fd (client x) ≠ fd (server x) → NoDup (teardown s x).
Proof.
  intros Hne. unfold teardown.
  repeat case_decide; destruct (ssh (client x)), (ssh (server x)); cbn.
  all: repeat (apply NoDup_cons; split;
               [rewrite ?elem_of_cons, elem_of_nil; intros ?; destruct_or?; congruence|]).
  all: apply NoDup_nil_2.
Qed.

Lemma session_close_freed s w :
  heap w !! s = None → session_close s w = (inl (UseAfterFree s), w).
Proof.
  intros H. unfold session_close.
  apply bind_abort. unfold deref. by rewrite H.
Qed.

(** C5, as amended: on a live session record [session_close] releases each
    resource once and in the order of the code: it closes the two sockets
    (those that are not -1), then, for a connected session, deregisters the
    four events, frees the two engines and unlinks the session from the
    list, then frees the record.  The record is gone afterwards: a second
    [session_close] on the same address reads freed memory. *)
Theorem session_close_releases_once w s x :
  heap w !! s = Some x →
  ∃ w', session_close s w = (inr tt, w')
    ∧ log w' = log w ++ teardown s x
    ∧ ordered (teardown_phase <$> teardown s x) = true
    ∧ (fd (client x) ≠ fd (server x) → NoDup (teardown s x))
    ∧ heap w' !! s = None
    ∧ session_close s w' = (inl (UseAfterFree s), w').
Proof.
  intros Hx. rewrite <- (put_id w s x Hx).
  destruct (session_close_put s x (put s x w)) as (w' & Hrun & Hlog & Hheap & _).
  rewrite put_put in Hrun.
  exists w'. split; [done|]. split; [done|].
  split; [apply teardown_ordered|]. split; [apply teardown_NoDup|].
  assert (heap w' !! s = None) as Hnone by (rewrite Hheap; apply lookup_delete_eq).
  split; [done|]. by apply session_close_freed.
Qed.

Lemma do_connect_loop_cons ai rest :
  do_connect_loop (ai :: rest)
  = if negb (ai_inet ai) then do_connect_loop rest
    else if decide (ai_socket ai < 0) then do_connect_loop rest
    else
      opened (ai_socket ai);;
      if decide (ai_fcntl ai < 0)
      then close (ai_socket ai);; do_connect_loop rest
      else if bool_decide (ai_connect ai < 0) && negb (ai_EINPROGRESS ai)
      then close (ai_socket ai);; do_connect_loop rest
      else mret (ai_socket ai).
Proof. done. Qed.

Lemma do_connect_loop_fails ais s x w :
  forallb ai_fails ais = true →
  Forall (λ ai, ai_socket ai ∉ open_fds w) ais →
  ∃ w2, do_connect_loop ais (put s x w) = (inr (-1), put s x w2)
    ∧ heap w2 = heap w ∧ sessions w2 = sessions w
    ∧ open_fds w2 = open_fds w ∧ listener w2 = listener w.
Proof.
  revert w. induction ais as [|ai ais IH]; intros w Hf Hfresh.
  - by exists w.
  - cbn in Hf. apply andb_true_iff in Hf as [Hai Hf].
    apply Forall_cons in Hfresh as [Hfr Hfresh].
    rewrite do_connect_loop_cons.
    destruct (ai_inet ai) eqn:Hinet; cbn [negb]; [|by apply IH].
    destruct (decide (ai_socket ai < 0)) as [Hsock|Hsock]; [by apply IH|].
    pstep.
    assert (({[ai_socket ai]} ∪ open_fds w) ∖ {[ai_socket ai]} = open_fds w)
      as Hsame by set_solver.
    unfold ai_fails in Hai. rewrite Hinet in Hai. cbn in Hai.
    rewrite (bool_decide_eq_false_2 _ Hsock) in Hai. cbn in Hai.
    destruct (decide (ai_fcntl ai < 0)) as [Hfc|Hfc].
    + pstep.
      match goal with
      | |- ∃ w2, do_connect_loop ais (put s x ?W) = _ ∧ _ =>
          destruct (IH W Hf) as (w2 & Hrun & ? & ? & ? & ?)
      end.
      { eapply Forall_impl; [exact Hfresh|]. cbn. set_solver. }
      exists w2. cbn in *. repeat split; try done. congruence.
    + rewrite (bool_decide_eq_false_2 _ Hfc) in Hai. cbn in Hai. rewrite Hai.
      pstep.
      match goal with
      | |- ∃ w2, do_connect_loop ais (put s x ?W) = _ ∧ _ =>
          destruct (IH W Hf) as (w2 & Hrun & ? & ? & ? & ?)
      end.
      { eapply Forall_impl; [exact Hfresh|]. cbn. set_solver. }
      exists w2. cbn in *. repeat split; try done. congruence.
Qed.

Lemma xcalloc_run w :
  xcalloc w = (inr (fresh (dom (heap w))), put (fresh (dom (heap w))) zero_session w).
Proof. done. Qed.

Lemma fresh_unused w : heap w !! fresh (dom (heap w)) = None.
Proof. apply not_elem_of_dom, is_fresh. Qed.

Lemma accept_fail_put s x w :
  fd (client x) ≠ -1 →
  accept_fail s (put s x w)
  = (inr tt, set_log (log w ++ [Close (fd (client x)); Xfree s])
               (set_heap (delete s (heap w))
                  (set_open_fds (open_fds w ∖ {[fd (client x)]}) w))).
Proof.
  intros Hfd. unfold accept_fail. pstep. unfold SE.when.
  rewrite bool_decide_eq_true_2 by done. pstep. rewrite xfree_put. cbn.
  by rewrite <- app_assoc.
Qed.

Lemma accept_cb_failure w e :
  0 ≤ a_accept e → a_accept e ∉ open_fds w →
  sockets_fresh (a_getaddrinfo e) ({[a_accept e]} ∪ open_fds w) →
  a_fcntl e < 0 ∨ do_connect_fails (a_getaddrinfo e) →
  ∃ w', accept_cb e w = (inr tt, w')
    ∧ heap w' = heap w ∧ sessions w' = sessions w
    ∧ open_fds w' = open_fds w ∧ listener w' = true.
Proof.
  intros Hacc Hnew Hfresh Hfail. unfold accept_cb.
  rewrite (bind_ok _ _ _ _ _ (xcalloc_run w)).
  set (s := fresh (dom (heap w))).
  assert (heap w !! s = None) as Hs by apply fresh_unused.
  do 6 pstep. unfold SE.when. rewrite bool_decide_eq_true_2 by done.
  do 2 pstep.
  destruct (decide (a_accept e < 0)) as [?|_]; [lia|].
  assert (a_accept e ≠ -1) as Hne by lia.
  assert (∀ X : gset Z, a_accept e ∉ X → ({[a_accept e]} ∪ X) ∖ {[a_accept e]} = X)
    as Hset by set_solver.
  destruct (decide (a_fcntl e < 0)) as [Hf|Hf].
  { rewrite accept_fail_put by done. eexists; split; [done|]. cbn.
    rewrite delete_id by done. rewrite Hset by done. done. }
  destruct Hfail as [?|Hfail]; [done|].
  unfold do_connect. destruct (a_getaddrinfo e) as [ais|]; cbn in Hfail, Hfresh.
  - match goal with
    | |- ∃ w', (do_connect_loop ais ≫= _) (put s ?X ?W) = _ ∧ _ =>
        destruct (do_connect_loop_fails ais s X W Hfail Hfresh)
          as (w2 & Hrun & Hh & Hss & Ho & Hl)
    end.
    rewrite (bind_ok _ _ _ _ _ Hrun). pstep.
    destruct (decide (-1 < 0)) as [_|?]; [|lia].
    rewrite accept_fail_put by done. eexists; split; [done|]. cbn in *.
    rewrite Hh, Hss, Ho, delete_id by done. rewrite Hset by done. done.
  - do 2 pstep.
    destruct (decide (-1 < 0)) as [_|?]; [|lia].
    rewrite accept_fail_put by done. eexists; split; [done|]. cbn.
    rewrite delete_id by done. rewrite Hset by done. done.
Qed.

Lemma connect_cb_failure w e s x :
  heap w !! s = Some x → connected x ≠ 1 → fd (client x) ≠ -1 →
  connect_soerr e ≠ 0 →
  ∃ w', connect_cb e s w = (inr tt, w')
    ∧ heap w' = delete s (heap w) ∧ sessions w' = sessions w
    ∧ open_fds w' = open_fds w ∖ {[fd (client x); fd (server x)]}.
Proof.
  intros Hx Hconn Hfd Herr. rewrite <- (put_id w s x Hx).
  unfold connect_cb. pstep. fold (connect_soerr e).
  destruct (decide (connect_soerr e ≠ 0)) as [_|?]; [|done].
  do 3 pstep.
  match goal with
  | |- ∃ w', session_close s (put s ?X ?W) = _ ∧ _ =>
      destruct (session_close_put s X W) as (w' & Hrun & _ & Hh & Ho & Hs & _)
  end.
  exists w'. split; [done|]. cbn in *.
  rewrite Hh, Ho, Hs. unfold closed_fds.
  destruct x as [[cfd ? ? ?] [sfd ? ? ?] c]; cbn in *.
  rewrite (decide_False (P := c = 1)) by done.
  rewrite (decide_True (P := cfd ≠ -1)) by done.
  rewrite (decide_False (P := -1 ≠ -1)) by (intros ?; done).
  rewrite delete_insert_eq. repeat split; try done. set_solver.
Qed.

Lemma with_engine_put s d f x w e :
  ssh (get_side d x) = Some e →
  with_engine s d f (put s x w)
  = (inr tt, put s (set_side d (set_ssh (Some (f e)) (get_side d x)) x) w).
Proof.
  intros He. unfold with_engine. pstep. rewrite He. by rewrite update_put.
Qed.

Lemma with_engine_null s d f x w :
  ssh (get_side d x) = None →
  with_engine s d f (put s x w) = (inl (NullEngine s d), put s x w).
Proof. intros He. unfold with_engine. pstep. by rewrite He. Qed.

Lemma connect_cb_hostkey_fatal w e s x :
  heap w !! s = Some x → connect_soerr e = 0 →
  c_add_hostkey_client e < 0 ∨ c_add_hostkey_server e < 0 →
  ∃ msg w', connect_cb e s w = (inl (ProcessFatal msg), w').
Proof.
  intros Hx Herr Hkey. rewrite <- (put_id w s x Hx).
  unfold connect_cb. pstep. fold (connect_soerr e).
  destruct (decide (connect_soerr e ≠ 0)) as [?|_]; [done|].
  do 2 pstep. rewrite (bind_ok _ _ _ _ _ (gets_run _ _)).
  destruct (decide (c_add_hostkey_client e < 0)) as [Hc|Hc].
  { eexists _, _. by apply bind_abort. }
  destruct Hkey as [?|Hs]; [done|].
  match goal with
  | |- context [(with_engine s Client ?f ≫= _) (put s ?X ?W)] =>
      rewrite (bind_ok _ _ _ _ _
                 (with_engine_put s Client f X W (ssh_init true) eq_refl))
  end.
  rewrite (bind_ok _ _ _ _ _ (gets_run _ _)).
  destruct (decide (c_add_hostkey_server e < 0)); [|done].
  eexists _, _. by apply bind_abort.
Qed.

Lemma ssh_packet_fwd_put s from to x w ef et :
  from ≠ to → eng from x = Some ef → eng to x = Some et →
  ∃ x', ssh_packet_fwd s from to (put s x w) = (inr tt, put s x' w)
    ∧ eng from x' = Some (fwd_engines ef et).1
    ∧ eng to x' = Some (fwd_engines ef et).2
    ∧ fd (client x') = fd (client x) ∧ fd (server x') = fd (server x)
    ∧ connected x' = connected x.
Proof.
  unfold eng. intros Hne Hf Ht. unfold ssh_packet_fwd. pstep.
  rewrite Hf, Ht. do 2 pstep. unfold SE.when.
  destruct from, to; try done; destruct x as [[] []]; cbn in Hf, Ht; subst.
  all: repeat case_bool_decide; repeat pstep.
  all: rewrite ?event_add_put, ?mret_run, ?ret_run.
  all: eexists; (split; [reflexivity|]); cbn; done.
Qed.

Lemma fwd_both_put s r x w er ew :
  eng r x = Some er → eng (other r) x = Some ew →
  ∃ x', (ssh_packet_fwd s r (other r);; ssh_packet_fwd s (other r) r) (put s x w)
        = (inr tt, put s x' w)
    ∧ eng r x' = Some (fwd_both er ew).1
    ∧ eng (other r) x' = Some (fwd_both er ew).2
    ∧ fd (client x') = fd (client x) ∧ fd (server x') = fd (server x)
    ∧ connected x' = connected x.
Proof.
  intros Hr Hw.
  assert (r ≠ other r) as Hne by by destruct r.
  destruct (ssh_packet_fwd_put s r (other r) x w er ew Hne Hr Hw)
    as (x1 & Hrun1 & Hr1 & Hw1 & Hc1 & Hs1 & Hn1).
  destruct (ssh_packet_fwd_put s (other r) r x1 w _ _ (not_eq_sym Hne) Hw1 Hr1)
    as (x2 & Hrun2 & Hw2 & Hr2 & Hc2 & Hs2 & Hn2).
  exists x2. rewrite (bind_ok _ _ _ _ _ Hrun1), Hrun2.
  repeat split; try done; congruence.
Qed.

Lemma flow_fwd f0 t0 A q f t :
  flow f0 t0 A q f t →
  flow f0 t0 A (Nat.pred q) (fwd_engines f t).1 (fwd_engines f t).2.
Proof.
  intros (fw & Hlog & Hin & Hnz & Hlen).
  unfold fwd_engines, ssh_packet_get, ssh_packet_payload.
  destruct (inq f) as [|p rest] eqn:Hq; cbn.
  - rewrite decide_False by (intros ?; done).
    exists fw. rewrite Hq. cbn in Hlen. subst q. repeat split; auto.
  - apply Forall_cons in Hnz as [Hp Hrest].
    rewrite decide_True by done. cbn.
    exists (fw ++ [p]). cbn. rewrite Hlog, <- !app_assoc. cbn.
    cbn in Hlen. subst q. repeat split; try done.
    by destruct p.
Qed.

Lemma flow_rev f0 t0 A q f t :
  flow f0 t0 A q f t →
  flow f0 t0 A q (fwd_engines t f).2 (fwd_engines t f).1.
Proof.
  intros (fw & Hlog & Hin & Hnz & Hlen).
  exists fw. unfold fwd_engines, ssh_packet_get.
  destruct (inq t); cbn; [|case_decide]; cbn; repeat split; done.
Qed.

Lemma flow_both_rw r0 w0 A q er ew :
  flow r0 w0 A q er ew →
  flow r0 w0 A (Nat.pred q) (fwd_both er ew).1 (fwd_both er ew).2.
Proof. intros H. unfold fwd_both; cbn. by apply flow_rev, flow_fwd. Qed.

Lemma flow_both_wr r0 w0 A q er ew :
  flow w0 r0 A q ew er →
  flow w0 r0 A (Nat.pred q) (fwd_both er ew).2 (fwd_both er ew).1.
Proof. intros H. unfold fwd_both; cbn. by apply flow_fwd, flow_rev. Qed.

Lemma flow_append_from f0 t0 A q f t pk :
  Forall nonzero pk → flow f0 t0 A q f t →
  flow f0 t0 (A ++ pk) (q + length pk) (ssh_input_append f pk) t.
Proof.
  intros Hpk (fw & Hlog & Hin & Hnz & Hlen). exists fw. cbn.
  repeat split; try done.
  - by rewrite !app_assoc, Hin.
  - by apply Forall_app.
  - rewrite length_app. by rewrite Hlen.
Qed.

Lemma flow_append_to f0 t0 A q f t pk :
  flow f0 t0 A q f t → flow f0 t0 A q f (ssh_input_append t pk).
Proof. intros (fw & ? & ? & ? & ?). by exists fw. Qed.

Lemma flow_consume_from f0 t0 A q f t len :
  flow f0 t0 A q f t → flow f0 t0 A q (ssh_output_consume f len) t.
Proof. intros (fw & ? & ? & ? & ?). by exists fw. Qed.

Lemma flow_consume_to f0 t0 A q f t len :
  flow f0 t0 A q f t → flow f0 t0 A q f (ssh_output_consume t len).
Proof. intros (fw & ? & ? & ? & ?). by exists fw. Qed.

Lemma tracks_oriented r ec0 es0 Ac As qc qs x :
  tracks ec0 es0 Ac As qc qs x →
  ∃ er ew, eng r x = Some er ∧ eng (other r) x = Some ew
    ∧ match r with
      | Client => flow ec0 es0 Ac qc er ew ∧ flow es0 ec0 As qs ew er
      | Server => flow ec0 es0 Ac qc ew er ∧ flow es0 ec0 As qs er ew
      end.
Proof.
  intros (ec & es & Hc & Hs & H1 & H2). destruct r; cbn; eauto 10.
Qed.

Lemma tracks_build r ec0 es0 Ac As qc qs x er ew :
  eng r x = Some er → eng (other r) x = Some ew →
  match r with
  | Client => flow ec0 es0 Ac qc er ew ∧ flow es0 ec0 As qs ew er
  | Server => flow ec0 es0 Ac qc ew er ∧ flow es0 ec0 As qs er ew
  end →
  tracks ec0 es0 Ac As qc qs x.
Proof. intros Hr Hw H. destruct r; cbn in *; destruct H; by eexists _, _. Qed.

(** Clearing or setting an event flag touches neither engine nor the
    descriptors. *)

Lemma flag_eng d k v d' x :
  eng d' (set_side d (set_event k v (get_side d x)) x) = eng d' x.
Proof. by destruct d, d', k, x as [[] []]. Qed.

Lemma flag_cfd d k v x :
  fd (client (set_side d (set_event k v (get_side d x)) x)) = fd (client x).
Proof. by destruct d, k, x as [[] []]. Qed.

Lemma engine_other d x e :
  eng (other d) (set_side d (set_ssh (Some e) (get_side d x)) x)
  = eng (other d) x.
Proof. by destruct d, x as [[] []]. Qed.

Lemma engine_same d x e :
  eng d (set_side d (set_ssh (Some e) (get_side d x)) x) = Some e.
Proof. by destruct d, x as [[] []]. Qed.

Lemma engine_cfd d x e :
  fd (client (set_side d (set_ssh (Some e) (get_side d x)) x)) = fd (client x).
Proof. by destruct d, x as [[] []]. Qed.

Lemma dispatch_freed s evs w w' :
  heap w !! s = None → event_dispatch s evs w = (inr tt, w') →
  heap w' !! s = None.
Proof.
  intros Hs. destruct evs as [|ev evs]; cbn.
  - by intros [= <-].
  - unfold deliver.
    rewrite bind_assoc.
    erewrite bind_abort; [done|]. unfold deref. by rewrite Hs.
Qed.

Lemma arrived_cons d cfd ev evs :
  arrived d cfd (ev :: evs) = arrived d cfd [ev] ++ arrived d cfd evs.
Proof.
  unfold arrived. cbn. destruct ev; [|done]. case_decide; cbn; [|done].
  by rewrite app_nil_r.
Qed.

Lemma arrived_writable d cfd fd_ slot wr :
  arrived d cfd [Writable fd_ slot wr] = [].
Proof. done. Qed.

Lemma fwd_both_put_w s wd x w er ew :
  eng (other wd) x = Some er → eng wd x = Some ew →
  ∃ x', (ssh_packet_fwd s (other wd) wd;; ssh_packet_fwd s wd (other wd)) (put s x w)
        = (inr tt, put s x' w)
    ∧ eng (other wd) x' = Some (fwd_both er ew).1
    ∧ eng wd x' = Some (fwd_both er ew).2
    ∧ fd (client x') = fd (client x) ∧ fd (server x') = fd (server x)
    ∧ connected x' = connected x.
Proof.
  intros Hr Hw. assert (other (other wd) = wd) as Hoo by by destruct wd.
  pose proof (fwd_both_put s (other wd) x w er ew Hr) as H.
  rewrite Hoo in H. by apply H.
Qed.

Ltac fwd_r r er ew :=
  match goal with
  | |- context [(ssh_packet_fwd _ _ _ ≫= _) (put ?s ?X ?W)] =>
      let Hrun := fresh "Hrun" in
      destruct (fwd_both_put s r X W er ew)
        as (?x' & Hrun & ?Hr' & ?Hw' & ?Hc' & _);
      [..|rewrite Hrun]
  end.

Ltac fwd_w wd er ew :=
  match goal with
  | |- context [(ssh_packet_fwd _ _ _ ≫= _) (put ?s ?X ?W)] =>
      let Hrun := fresh "Hrun" in
      destruct (fwd_both_put_w s wd X W er ew)
        as (?x' & Hrun & ?Hr' & ?Hw' & ?Hc' & _);
      [..|rewrite Hrun]
  end.

Ltac closing :=
  left;
  match goal with
  | |- ∃ w', session_close ?s (put ?s ?X ?W) = _ ∧ _ =>
      let Hh := fresh "Hh" in
      destruct (session_close_put s X W) as (?w' & ?Hrun & _ & Hh & _);
      eexists; split; [eassumption|]; rewrite Hh; apply lookup_delete_eq
  end.

Lemma deliver_tracks s ev x w ec0 es0 Ac As qc qs :
  tracks ec0 es0 Ac As qc qs x → event_nonzero ev →
  (∃ w', deliver s ev (put s x w) = (inr tt, w') ∧ heap w' !! s = None)
  ∨ (∃ x', deliver s ev (put s x w) = (inr tt, put s x' w)
       ∧ fd (client x') = fd (client x)
       ∧ tracks ec0 es0 (Ac ++ arrived Client (fd (client x)) [ev])
           (As ++ arrived Server (fd (client x)) [ev])
           (Nat.pred (qc + length (arrived Client (fd (client x)) [ev])))
           (Nat.pred (qs + length (arrived Server (fd (client x)) [ev])))
           x').
Proof.
  intros Htr Hnz. unfold deliver. pstep.
  destruct ev as [fd_ rd|fd_ slot wr].
  - (* readable *)
    pstep. unfold input_cb. pstep. rewrite flag_cfd.
    set (r := if decide (fd_ = fd (client x)) then Client else Server).
    destruct (tracks_oriented r _ _ _ _ _ _ _ Htr) as (er & ew & Hr & Hw & Hfl).
    destruct (bool_decide (io_len rd < 0) && io_again rd) eqn:Hagain.
    { (* EINTR or EAGAIN *)
      pstep. fwd_r r er ew.
      { rewrite !flag_eng. exact Hr. }
      { rewrite !flag_eng. exact Hw. }
      right. exists x'. split; [done|]. rewrite !flag_cfd in Hc'.
      split; [done|].
      assert (¬ 0 < io_len rd) as Hlen.
      { apply andb_true_iff in Hagain as [Hl _].
        apply bool_decide_eq_true in Hl. lia. }
      unfold arrived; cbn. fold r.
      rewrite !decide_False by (intros [_ ?]; done). cbn.
      rewrite !app_nil_r, !Nat.add_0_r.
      eapply (tracks_build r); [exact Hr'|exact Hw'|].
      destruct r; destruct Hfl; split;
        auto using flow_both_rw, flow_both_wr. }
    destruct (decide (io_len rd ≤ 0)) as [Hle|Hgt]; [closing|].
    (* data *)
    pstep.
    match goal with
    | |- context [(with_engine s r ?f ≫= _) (put s ?X ?W)] =>
        assert (eng r X = Some er) as HX by (rewrite !flag_eng; exact Hr);
        rewrite (bind_ok _ _ _ _ _ (with_engine_put s r f X W er HX))
    end.
    fwd_r r (ssh_input_append er (io_packets rd)) ew.
    { apply engine_same. }
    { rewrite engine_other, !flag_eng. exact Hw. }
    right. exists x'. split; [done|].
    rewrite engine_cfd, !flag_cfd in Hc'. split; [done|].
    unfold arrived; cbn. fold r. cbn in Hnz.
    eapply (tracks_build r); [exact Hr'|exact Hw'|].
    destruct r; destruct Hfl.
    + rewrite decide_True by (split; [done|lia]).
      rewrite decide_False by (intros [? _]; done). cbn.
      rewrite !app_nil_r, !Nat.add_0_r.
      split; [apply flow_both_rw, flow_append_from
             |apply flow_both_wr, flow_append_to]; done.
    + rewrite decide_False by (intros [? _]; done).
      rewrite decide_True by (split; [done|lia]). cbn.
      rewrite !app_nil_r, !Nat.add_0_r.
      split; [apply flow_both_wr, flow_append_to
             |apply flow_both_rw, flow_append_from]; done.
  - (* writable *)
    pstep. unfold output_cb. pstep. rewrite flag_cfd.
    set (wd := if decide (fd_ = fd (client x)) then Client else Server).
    destruct (tracks_oriented wd _ _ _ _ _ _ _ Htr) as (ew & er & Hw & Hr & Hfl).
    match goal with
    | |- context [ssh (get_side wd ?X)] =>
        change (ssh (get_side wd X)) with (eng wd X)
    end.
    rewrite flag_eng, Hw.
    rewrite !arrived_writable, !app_nil_r. cbn [length].
    rewrite !Nat.add_0_r.
    assert (∀ len,
      (∃ w', (with_engine s wd (λ e, ssh_output_consume e len);;
              ssh_packet_fwd s (other wd) wd;; ssh_packet_fwd s wd (other wd))
               (put s (set_side wd (set_event Output false (get_side wd x)) x)
                  w) = (inr tt, w') ∧ heap w' !! s = None)
      ∨ (∃ x', (with_engine s wd (λ e, ssh_output_consume e len);;
                ssh_packet_fwd s (other wd) wd;;
                ssh_packet_fwd s wd (other wd))
                 (put s (set_side wd (set_event Output false (get_side wd x))
                           x) w) = (inr tt, put s x' w)
           ∧ fd (client x') = fd (client x)
           ∧ tracks ec0 es0 Ac As (Nat.pred qc) (Nat.pred qs) x'))
      as Hconsume.
    { intros len.
      match goal with
      | |- context [(with_engine s wd ?f ≫= _) (put s ?X ?W)] =>
          assert (eng wd X = Some ew) as HX by (rewrite !flag_eng; exact Hw);
          rewrite (bind_ok _ _ _ _ _ (with_engine_put s wd f X W ew HX))
      end.
      fwd_w wd er (ssh_output_consume ew len).
      { rewrite engine_other, !flag_eng. exact Hr. }
      { apply engine_same. }
      right. exists x'. split; [done|].
      rewrite engine_cfd, !flag_cfd in Hc'. split; [done|].
      eapply (tracks_build wd); [exact Hw'|exact Hr'|].
      destruct wd; destruct Hfl; split;
        auto using flow_both_rw, flow_both_wr, flow_consume_from,
          flow_consume_to. }
    assert ((∃ w', (ssh_packet_fwd s (other wd) wd;;
                    ssh_packet_fwd s wd (other wd))
               (put s (set_side wd (set_event Output false (get_side wd x)) x)
                  w) = (inr tt, w') ∧ heap w' !! s = None)
      ∨ (∃ x', (ssh_packet_fwd s (other wd) wd;;
                ssh_packet_fwd s wd (other wd))
                 (put s (set_side wd (set_event Output false (get_side wd x))
                           x) w) = (inr tt, put s x' w)
           ∧ fd (client x') = fd (client x)
           ∧ tracks ec0 es0 Ac As (Nat.pred qc) (Nat.pred qs) x'))
      as Hskip.
    { fwd_w wd er ew.
      { rewrite !flag_eng. exact Hr. }
      { rewrite !flag_eng. exact Hw. }
      right. exists x'. split; [done|]. rewrite !flag_cfd in Hc'.
      split; [done|].
      eapply (tracks_build wd); [exact Hw'|exact Hr'|].
      destruct wd; destruct Hfl; split;
        auto using flow_both_rw, flow_both_wr. }
    destruct (decide (0 < olen_read slot ew)) as [Hout|Hout]; [|exact Hskip].
    destruct (bool_decide (io_len wr < 0) && io_again wr) eqn:Hagain.
    { pstep. fwd_w wd er ew.
      { rewrite !flag_eng. exact Hr. }
      { rewrite !flag_eng. exact Hw. }
      right. exists x'. split; [done|]. rewrite !flag_cfd in Hc'.
      split; [done|].
      eapply (tracks_build wd); [exact Hw'|exact Hr'|].
      destruct wd; destruct Hfl; split;
        auto using flow_both_rw, flow_both_wr. }
    destruct (decide (io_len wr ≤ 0)) as [Hle|Hgt]; [closing|].
    destruct (decide (io_len wr < olen_read slot ew)); apply Hconsume.
Qed.

Lemma dispatch_tracks s evs : ∀ x w ec0 es0 Ac As qc qs w' x',
  tracks ec0 es0 Ac As qc qs x → Forall event_nonzero evs →
  event_dispatch s evs (put s x w) = (inr tt, w') →
  heap w' !! s = Some x' →
  fd (client x') = fd (client x)
  ∧ tracks ec0 es0 (Ac ++ arrived Client (fd (client x)) evs)
      (As ++ arrived Server (fd (client x)) evs)
      (queued Client (fd (client x)) qc evs)
      (queued Server (fd (client x)) qs evs) x'.
Proof.
  induction evs as [|ev evs IH];
    intros x w ec0 es0 Ac As qc qs w' x' Htr Hnz Hrun Hx'.
  - cbn in Hrun. injection Hrun as <-. unfold put in Hx'; cbn in Hx'.
    rewrite lookup_insert_eq in Hx'. injection Hx' as <-.
    unfold arrived; cbn. rewrite !app_nil_r. done.
  - apply Forall_cons in Hnz as [Hev Hnz].
    change (event_dispatch s (ev :: evs))
      with (deliver s ev;; event_dispatch s evs) in Hrun.
    destruct (deliver_tracks s ev x w ec0 es0 Ac As qc qs Htr Hev)
      as [(w1 & Hd & Hnone)|(x1 & Hd & Hfd & Htr1)];
      rewrite (bind_ok _ _ _ _ _ Hd) in Hrun.
    + pose proof (dispatch_freed s evs w1 w' Hnone Hrun). congruence.
    + destruct (IH _ _ _ _ _ _ _ _ _ _ Htr1 Hnz Hrun Hx') as [Hfd' Htr'].
      split; [congruence|].
      rewrite !(arrived_cons _ _ ev evs), !app_assoc.
      rewrite Hfd in Htr'. exact Htr'.
Qed.

(** What was forwarded and what waits, from what came in and the number
    that waits. *)
Lemma split_waiting {A} (all fw rest : list A) (q : nat) :
  all = fw ++ rest → length rest = q →
  fw = take (length all - q) all ∧ rest = drop (length all - q) all.
Proof.
  intros -> <-. rewrite length_app.
  replace (length fw + length rest - length rest)%nat with (length fw) by lia.
  by rewrite take_app_length, drop_app_length.
Qed.

(** C7, as amended: in a connected session, under any sequence of readable
    and writable events after which the session is still there, each event
    forwards exactly one packet in each direction if one waits in the
    engine it comes from, and none otherwise.  So the packets handed to the
    peer's engine by [ssh_packet_put] are the first packets that arrived on
    the other side, in arrival order and each once, all but the [queued]
    last ones, and these wait in the reader's engine, where [queued] counts
    one packet less, if there is one, after the arrivals of each event. *)
Theorem forwarding_in_order w s x ec es evs w' x' :
  heap w !! s = Some x →
  ssh (client x) = Some ec → ssh (server x) = Some es →
  Forall nonzero (inq ec) → Forall nonzero (inq es) →
  Forall event_nonzero evs →
  event_dispatch s evs w = (inr tt, w') → heap w' !! s = Some x' →
  ∃ ec' es',
    ssh (client x') = Some ec' ∧ ssh (server x') = Some es'
    ∧ let from_client := inq ec ++ arrived Client (fd (client x)) evs in
      let from_server := inq es ++ arrived Server (fd (client x)) evs in
      let qc := queued Client (fd (client x)) (length (inq ec)) evs in
      let qs := queued Server (fd (client x)) (length (inq es)) evs in
      put_log es' = put_log es ++ take (length from_client - qc) from_client
      ∧ inq ec' = drop (length from_client - qc) from_client
      ∧ put_log ec' = put_log ec ++ take (length from_server - qs) from_server
      ∧ inq es' = drop (length from_server - qs) from_server.
Proof.
  intros Hx Hc Hs Hnc Hns Hev Hrun Hx'.
  rewrite <- (put_id w s x Hx) in Hrun.
  assert (tracks ec es [] [] (length (inq ec)) (length (inq es)) x) as Htr.
  { exists ec, es. repeat split; try done.
    - exists []. by rewrite !app_nil_r.
    - exists []. by rewrite !app_nil_r. }
  destruct (dispatch_tracks s evs x w ec es [] [] _ _ w' x' Htr Hev Hrun Hx')
    as [_ (ec' & es' & Hc' & Hs' & (ts & Hl1 & Ha1 & _ & Hq1)
                               & (tc & Hl2 & Ha2 & _ & Hq2))].
  exists ec', es'. split; [done|]. split; [done|]. cbn zeta. cbn in Ha1, Ha2.
  destruct (split_waiting _ _ _ _ Ha1 Hq1) as [<- <-].
  destruct (split_waiting _ _ _ _ Ha2 Hq2) as [<- <-].
  done.
Qed.

(** C5 as stated does not hold: the sockets are closed before the events are
    deregistered, which is not the order events, engines, sockets, list; and
    the second of two calls on one session aborts on the freed record. *)
Lemma session_close_spec_order_fails :
  log (session_close 1 w_connected).2
  = [Close 5; Close 6;
     EventDel 1 Client Input; EventDel 1 Client Output;
     EventDel 1 Server Input; EventDel 1 Server Output;
     SshFree 1 Client; SshFree 1 Server; TailqRemove 1; Xfree 1]
  ∧ ordered (spec_teardown_phase <$> log (session_close 1 w_connected).2)
    = false
  ∧ (session_close 1 (session_close 1 w_connected).2).1
    = inl (UseAfterFree 1).
Proof. repeat split; vm_compute; reflexivity. Qed.

Lemma session_close_releases_once_witness :
  heap w_connected !! 1%positive = Some x_connected
  ∧ ∃ w', session_close 1 w_connected = (inr tt, w')
      ∧ log w' = log w_connected ++ teardown 1 x_connected
      ∧ ordered (teardown_phase <$> teardown 1 x_connected) = true
      ∧ (fd (client x_connected) ≠ fd (server x_connected) →
         NoDup (teardown 1 x_connected))
      ∧ heap w' !! 1%positive = None
      ∧ session_close 1 w' = (inl (UseAfterFree 1), w').
Proof.
  assert (heap w_connected !! 1%positive = Some x_connected) as H
    by (vm_compute; reflexivity).
  exact (conj H (session_close_releases_once w_connected 1 x_connected H)).
Defined.

(** C6, as amended: a failure of fcntl on the accepted socket or of
    [do_connect] closes the session that was being set up and nothing else:
    the callback returns, the session records, the session list and the open
    descriptors are what they were, and the listener is armed again.  A
    failed connect closes exactly that session: its record is freed, its two
    descriptors are closed, every other record and the list are untouched.
    A host key that cannot be attached ends the whole process through
    [fatal]. *)
Theorem setup_failure_closes_one_session :
  (∀ w e,
     0 ≤ a_accept e → a_accept e ∉ open_fds w →
     sockets_fresh (a_getaddrinfo e) ({[a_accept e]} ∪ open_fds w) →
     a_fcntl e < 0 ∨ do_connect_fails (a_getaddrinfo e) →
     ∃ w', accept_cb e w = (inr tt, w')
       ∧ heap w' = heap w ∧ sessions w' = sessions w
       ∧ open_fds w' = open_fds w ∧ listener w' = true)
  ∧ (∀ w e s x,
       heap w !! s = Some x → connected x ≠ 1 → fd (client x) ≠ -1 →
       connect_soerr e ≠ 0 →
       ∃ w', connect_cb e s w = (inr tt, w')
         ∧ heap w' = delete s (heap w) ∧ sessions w' = sessions w
         ∧ open_fds w' = open_fds w ∖ {[fd (client x); fd (server x)]})
  ∧ (∀ w e s x,
       heap w !! s = Some x → connect_soerr e = 0 →
       c_add_hostkey_client e < 0 ∨ c_add_hostkey_server e < 0 →
       ∃ msg w', connect_cb e s w = (inl (ProcessFatal msg), w')).
Proof.
  split; [exact accept_cb_failure|].
  split; [exact connect_cb_failure|exact connect_cb_hostkey_fatal].
Qed.

(** C6 as stated does not hold: when the server host key does not load
    while a session is initialized, [connect_cb] ends the process. *)
Lemma hostkey_failure_ends_process :
  (connect_cb e_hostkey_fails 1 w_pending).1
  = inl (ProcessFatal "could not load server hostkey").
Proof. vm_compute. reflexivity. Qed.

Lemma setup_failure_closes_one_session_witness :
  (∃ w', accept_cb e_fcntl_fails w_connected = (inr tt, w')
     ∧ heap w' = heap w_connected ∧ sessions w' = sessions w_connected
     ∧ open_fds w' = open_fds w_connected ∧ listener w' = true)
  ∧ (∃ w', connect_cb e_refused 1 w_pending = (inr tt, w')
       ∧ heap w' = delete 1%positive (heap w_pending)
       ∧ sessions w' = sessions w_pending
       ∧ open_fds w' = open_fds w_pending
                       ∖ {[fd (client x_pending); fd (server x_pending)]})
  ∧ (∃ msg w', connect_cb e_hostkey_fails 1 w_pending
               = (inl (ProcessFatal msg), w')).
Proof.
  destruct setup_failure_closes_one_session as (Haccept & Hconnect & Hkey).
  split; [|split].
  - apply Haccept.
    + cbn. lia.
    + cbn. set_solver.
    + exact I.
    + left. cbn. lia.
  - apply (Hconnect w_pending e_refused 1%positive x_pending).
    + vm_compute. reflexivity.
    + cbn. lia.
    + cbn. lia.
    + vm_compute. discriminate.
  - apply (Hkey w_pending e_hostkey_fails 1%positive x_pending).
    + vm_compute. reflexivity.
    + vm_compute. reflexivity.
    + left. cbn. lia.
Defined.

(** C7 as stated does not hold: a read that completes two packets forwards
    the first one only; the second stays in the reader's engine when the
    callback returns. *)
Lemma readable_event_forwards_one_packet :
  inq <$> engine_of 1 Client (deliver 1 (Readable 5 two_packets) w_connected).2
  = Some [p2]
  ∧ put_log <$> engine_of 1 Server
                  (deliver 1 (Readable 5 two_packets) w_connected).2
    = Some [p1].
Proof. split; vm_compute; reflexivity. Qed.

Lemma forwarding_in_order_witness :
  let evs := [Readable 5 two_packets; Writable 6 0 wrote_six;
              Writable 6 (-1) wrote_six] in
  let w' := (event_dispatch 1 evs w_connected).2 in
  ∃ x' ec' es',
    heap w' !! 1%positive = Some x'
    ∧ ssh (client x') = Some ec' ∧ ssh (server x') = Some es'
    ∧ put_log es' = [p1; p2] ∧ inq ec' = []
    ∧ put_log ec' = [] ∧ inq es' = [].
Proof.
  intros evs w'.
  assert (heap w_connected !! 1%positive = Some x_connected) as Hx
    by (vm_compute; reflexivity).
  assert (event_dispatch 1 evs w_connected = (inr tt, w')) as Hrun
    by (vm_compute; reflexivity).
  assert (Forall event_nonzero evs) as Hev.
  { repeat constructor; discriminate. }
  destruct (heap w' !! 1%positive) as [x'|] eqn:Hx';
    [|vm_compute in Hx'; discriminate Hx'].
  destruct (forwarding_in_order w_connected 1 x_connected
              (ssh_init true) (ssh_init false) evs w' x' Hx eq_refl eq_refl
              (Forall_nil_2 _) (Forall_nil_2 _) Hev Hrun Hx')
    as (ec' & es' & H1 & H2 & H).
  exists x', ec', es'. split; [reflexivity|]. split; [exact H1|].
  split; [exact H2|]. exact H.
Defined.

(** *** Further properties of the proxy *)

Lemma same_sessions_refl w : same_sessions w w.
Proof. done. Qed.

Lemma open_close (fd_ : Z) (X : gset Z) :
  fd_ ∉ X → ({[fd_]} ∪ X) ∖ {[fd_]} = X.
Proof. set_solver. Qed.

Lemma do_connect_loop_run ais : ∀ w,
  ∃ r w', do_connect_loop ais w = (inr r, w')
    ∧ same_sessions w w'
    ∧ match List.find (λ ai, negb (ai_fails ai)) ais with
      | Some ai => r = ai_socket ai ∧ 0 ≤ r
      | None => r = -1
      end
    ∧ (Forall (λ ai, ai_socket ai ∉ open_fds w) ais →
       open_fds w' = (if decide (0 ≤ r) then {[r]} else ∅) ∪ open_fds w).
Proof.
  induction ais as [|ai ais IH]; intros w.
  { eexists _, _. split; [reflexivity|]. split; [done|]. split; [done|].
    intros _. cbn. set_solver. }
  cbn [do_connect_loop List.find]. unfold ai_fails at 1.
  destruct (ai_inet ai); cbn [negb orb andb].
  2:{ destruct (IH w) as (r & w' & Hrun & Hs & Hr & Hf). exists r, w'.
      split; [done|]. split; [done|]. split; [done|]. intros Hfr.
      apply Forall_cons in Hfr as [_ Hfr]. exact (Hf Hfr). }
  destruct (decide (ai_socket ai < 0)) as [Hsock|Hsock].
  { rewrite bool_decide_eq_true_2 by done. cbn.
    destruct (IH w) as (r & w' & Hrun & Hs & Hr & Hf). exists r, w'.
    split; [done|]. split; [done|]. split; [done|]. intros Hfr.
    apply Forall_cons in Hfr as [_ Hfr]. exact (Hf Hfr). }
  rewrite (bool_decide_eq_false_2 _ Hsock). cbn [negb orb andb].
  erewrite bind_ok by reflexivity.
  destruct (decide (ai_fcntl ai < 0)) as [Hfc|Hfc].
  { rewrite bool_decide_eq_true_2 by done. cbn [negb orb andb].
    erewrite bind_ok by reflexivity.
    match goal with
    | |- ∃ r w', do_connect_loop ais ?W = _ ∧ _ =>
        destruct (IH W) as (r & w' & Hrun & Hs & Hr & Hf)
    end.
    exists r, w'. split; [done|]. split; [done|]. split; [done|]. intros Hfr.
    apply Forall_cons in Hfr as [Hnew Hfr]. cbn in Hf.
    rewrite open_close in Hf by done. exact (Hf Hfr). }
  rewrite (bool_decide_eq_false_2 _ Hfc). cbn [negb orb andb].
  destruct (bool_decide (ai_connect ai < 0) && negb (ai_EINPROGRESS ai)) eqn:Hc;
    cbn [negb].
  { erewrite bind_ok by reflexivity.
    match goal with
    | |- ∃ r w', do_connect_loop ais ?W = _ ∧ _ =>
        destruct (IH W) as (r & w' & Hrun & Hs & Hr & Hf)
    end.
    exists r, w'. split; [done|]. split; [done|]. split; [done|]. intros Hfr.
    apply Forall_cons in Hfr as [Hnew Hfr]. cbn in Hf.
    rewrite open_close in Hf by done. exact (Hf Hfr). }
  eexists _, _. split; [reflexivity|]. split; [done|].
  split; [split; [done|lia]|]. intros _.
  cbn. rewrite decide_True by lia. done.
Qed.

Lemma do_listen_loop_run ais : ∀ sock w,
  ∃ r w', do_listen_loop ais sock w = (inr r, w')
    ∧ same_sessions w w'
    ∧ match List.find la_works ais with
      | Some ai => r = la_socket ai ∧ 0 ≤ r
      | None => sock < 0 → r < 0
      end
    ∧ (sock < 0 → Forall (λ ai, la_socket ai ∉ open_fds w) ais →
       open_fds w' = (if decide (0 ≤ r) then {[r]} else ∅) ∪ open_fds w).
Proof.
  induction ais as [|ai ais IH]; intros sock w.
  { eexists _, _. split; [reflexivity|]. split; [done|]. split; [cbn; auto|].
    intros ? _. cbn. rewrite decide_False by lia. set_solver. }
  cbn [do_listen_loop List.find]. unfold la_works at 1.
  destruct (la_inet ai); cbn [negb orb andb].
  2:{ destruct (IH sock w) as (r & w' & Hrun & Hs & Hr & Hf). exists r, w'.
      split; [done|]. split; [done|]. split; [done|]. intros ? Hfr.
      apply Forall_cons in Hfr as [_ Hfr]. by apply Hf. }
  destruct (decide (la_socket ai < 0)) as [Hsock|Hsock].
  { rewrite bool_decide_eq_false_2 by lia. cbn [andb].
    destruct (IH (la_socket ai) w) as (r & w' & Hrun & Hs & Hr & Hf).
    exists r, w'.
    split; [done|]. split; [done|]. split.
    - destruct (find la_works ais); [done|]. auto.
    - intros ? Hfr. apply Forall_cons in Hfr as [_ Hfr]. by apply Hf. }
  rewrite bool_decide_eq_true_2 by lia. cbn [andb].
  erewrite bind_ok by reflexivity.
  assert (∀ P : Prop, P →
    ∃ r w', (close (la_socket ai);; do_listen_loop ais (-1))
              (set_open_fds ({[la_socket ai]} ∪ open_fds w) w) = (inr r, w')
      ∧ same_sessions w w'
      ∧ match find la_works ais with
        | Some ai0 => r = la_socket ai0 ∧ 0 ≤ r
        | None => sock < 0 → r < 0
        end
      ∧ (sock < 0 → Forall (λ ai, la_socket ai ∉ open_fds w) (ai :: ais) →
         open_fds w' = (if decide (0 ≤ r) then {[r]} else ∅) ∪ open_fds w))
    as Hretry.
  { intros _ _. erewrite bind_ok by reflexivity.
    match goal with
    | |- ∃ r w', do_listen_loop ais _ ?W = _ ∧ _ =>
        destruct (IH (-1) W) as (r & w' & Hrun & Hs & Hr & Hf)
    end.
    exists r, w'. split; [done|]. split; [done|]. split.
    - destruct (find la_works ais); [done|]. intros _. apply Hr. lia.
    - intros ? Hfr. apply Forall_cons in Hfr as [Hnew Hfr]. cbn in Hf.
      rewrite open_close in Hf by done. apply Hf; [lia|done]. }
  destruct (decide (la_setsockopt ai = -1)) as [Ho|Ho].
  { rewrite bool_decide_eq_false_2 by (intros ?; done). cbn [andb].
    by apply (Hretry True). }
  rewrite bool_decide_eq_true_2 by done. cbn [andb].
  destruct (decide (la_bind ai < 0)) as [Hb|Hb].
  { rewrite bool_decide_eq_false_2 by lia. cbn [andb]. by apply (Hretry True). }
  rewrite bool_decide_eq_true_2 by lia. cbn [andb].
  destruct (decide (la_listen ai < 0)) as [Hl|Hl].
  { rewrite bool_decide_eq_false_2 by lia. cbn [andb]. by apply (Hretry True). }
  rewrite bool_decide_eq_true_2 by lia.
  eexists _, _. split; [reflexivity|]. split; [done|].
  split; [split; [done|lia]|]. intros _ _.
  cbn. rewrite decide_True by lia. done.
Qed.

Lemma do_connect_run gai w :
  ∃ r w', do_connect gai w = (inr r, w')
    ∧ same_sessions w w'
    ∧ match connect_choice gai with
      | Some ai => r = ai_socket ai ∧ 0 ≤ r
      | None => r = -1
      end
    ∧ (sockets_fresh gai (open_fds w) →
       open_fds w' = (if decide (0 ≤ r) then {[r]} else ∅) ∪ open_fds w).
Proof.
  destruct gai as [ais|]; cbn.
  - apply do_connect_loop_run.
  - exists (-1), w. repeat split; try done. intros _.
    rewrite decide_False by lia. set_solver.
Qed.

Lemma do_listen_run gai w :
  ∃ r w', do_listen gai w = (inr r, w')
    ∧ same_sessions w w'
    ∧ match listen_choice gai with
      | Some ai => r = la_socket ai ∧ 0 ≤ r
      | None => r < 0
      end
    ∧ (listen_fresh gai (open_fds w) →
       open_fds w' = (if decide (0 ≤ r) then {[r]} else ∅) ∪ open_fds w).
Proof.
  destruct gai as [ais|]; cbn.
  - destruct (do_listen_loop_run ais (-1) w) as (r & w' & Hrun & Hs & Hr & Hf).
    exists r, w'. split; [done|]. split; [done|]. split.
    + destruct (find la_works ais); [done|]. apply Hr. lia.
    + apply Hf. lia.
  - exists (-1), w. split; [done|]. split; [done|]. split; [lia|]. intros _.
    rewrite decide_False by lia. set_solver.
Qed.

Lemma put_same s x w w' :
  same_sessions (put s x w) w' → w' = put s x w'.
Proof.
  intros (Hh & _). symmetry. apply put_id. rewrite Hh. cbn.
  apply lookup_insert_eq.
Qed.

Lemma accept_cb_run e w :
  0 ≤ a_accept e →
  ∃ w', accept_cb e w = (inr tt, w')
    ∧ sessions w' = sessions w ∧ listener w' = true
    ∧ keybuf w' = keybuf w ∧ known_keybuf w' = known_keybuf w
    ∧ ((heap w' = heap w
        ∧ (a_fcntl e < 0 ∨ connect_choice (a_getaddrinfo e) = None)
        ∧ (accept_fresh e w → open_fds w' = open_fds w))
       ∨ (∃ ai, 0 ≤ a_fcntl e
            ∧ connect_choice (a_getaddrinfo e) = Some ai
            ∧ heap w' = <[fresh (dom (heap w)) :=
                            pending (a_accept e) (ai_socket ai)]> (heap w)
            ∧ (accept_fresh e w →
               open_fds w' = {[a_accept e; ai_socket ai]} ∪ open_fds w))).
Proof.
  intros Hacc. unfold accept_cb.
  rewrite (bind_ok _ _ _ _ _ (xcalloc_run w)).
  set (s := fresh (dom (heap w))).
  assert (heap w !! s = None) as Hs by apply fresh_unused.
  do 6 pstep. unfold SE.when. rewrite bool_decide_eq_true_2 by done.
  do 2 pstep.
  destruct (decide (a_accept e < 0)) as [?|_]; [lia|].
  assert (a_accept e ≠ -1) as Hne by lia.
  destruct (decide (a_fcntl e < 0)) as [Hf|Hf].
  { rewrite accept_fail_put by done. eexists; split; [done|]. cbn.
    repeat (split; [done|]). left. rewrite delete_id by done.
    split; [done|]. split; [by left|]. intros [Hnew _].
    by apply open_close. }
  match goal with
  | |- ∃ w', (do_connect _ ≫= _) ?W = _ ∧ _ =>
      destruct (do_connect_run (a_getaddrinfo e) W)
        as (r & w2 & Hrun & Hsame & Hr & Hfds)
  end.
  rewrite (bind_ok _ _ _ _ _ Hrun).
  pose proof (put_same _ _ _ _ Hsame) as Hw2.
  destruct Hsame as (Hh & Hss & Hl & Hk & Hkk). cbn in Hh, Hss, Hl, Hk, Hkk.
  rewrite Hw2. pstep.
  destruct (connect_choice (a_getaddrinfo e)) as [ai|] eqn:Hch.
  - destruct Hr as [-> Hpos].
    destruct (decide (ai_socket ai < 0)) as [?|_]; [lia|].
    rewrite event_add_put. eexists; split; [done|]. cbn.
    repeat (split; [done|]). right. exists ai.
    split; [lia|]. split; [done|]. split.
    + rewrite Hh. by rewrite insert_insert_eq.
    + intros [Hnew Hfr]. rewrite Hfds by done.
      rewrite decide_True by done. cbn. set_solver.
  - subst r. destruct (decide (-1 < 0)) as [_|?]; [|lia].
    rewrite accept_fail_put by done. eexists; split; [done|]. cbn.
    repeat (split; [done|]). left. rewrite Hh, delete_insert_eq.
    rewrite delete_id by done.
    split; [done|]. split; [by right|]. intros [Hnew Hfr].
    rewrite Hfds by done. rewrite decide_False by lia. cbn. set_solver.
Qed.

Lemma connect_cb_ok e s x w :
  heap w !! s = Some x → connect_soerr e = 0 →
  0 ≤ c_add_hostkey_client e → 0 ≤ c_add_hostkey_server e →
  ∃ w', connect_cb e s w = (inr tt, w')
    ∧ heap w' = <[s := established x w]> (heap w)
    ∧ sessions w' = sessions w ++ [s]
    ∧ open_fds w' = open_fds w ∧ listener w' = listener w
    ∧ keybuf w' = keybuf w ∧ known_keybuf w' = known_keybuf w.
Proof.
  intros Hx Herr Hc Hs.
  assert (connect_cb e s w = connect_cb e s (put s x w)) as ->
    by by rewrite put_id.
  unfold connect_cb. pstep. fold (connect_soerr e).
  destruct (decide (connect_soerr e ≠ 0)) as [?|_]; [done|].
  do 2 pstep. rewrite (bind_ok _ _ _ _ _ (gets_run _ _)).
  destruct (decide (c_add_hostkey_client e < 0)) as [?|_]; [lia|].
  match goal with
  | |- context [(with_engine s Client ?f ≫= _) (put s ?X ?W)] =>
      rewrite (bind_ok _ _ _ _ _
                 (with_engine_put s Client f X W (ssh_init true) eq_refl))
  end.
  rewrite (bind_ok _ _ _ _ _ (gets_run _ _)).
  destruct (decide (c_add_hostkey_server e < 0)) as [?|_]; [lia|].
  match goal with
  | |- context [(with_engine s Server ?f ≫= _) (put s ?X ?W)] =>
      rewrite (bind_ok _ _ _ _ _
                 (with_engine_put s Server f X W (ssh_init false) eq_refl))
  end.
  do 3 pstep.
  eexists; split; [reflexivity|]. cbn.
  split; [|done]. reflexivity.
Qed.

Lemma ssh_packet_fwd_armed s from to x w ef et :
  from ≠ to → eng from x = Some ef → eng to x = Some et →
  ∃ x', ssh_packet_fwd s from to (put s x w) = (inr tt, put s x' w)
    ∧ eng from x' = Some (fwd_engines ef et).1
    ∧ eng to x' = Some (fwd_engines ef et).2
    ∧ fd (client x') = fd (client x) ∧ fd (server x') = fd (server x)
    ∧ connected x' = connected x
    ∧ input (client x') = input (client x)
    ∧ input (server x') = input (server x)
    ∧ (∀ d, output (get_side d x) = true → output (get_side d x') = true)
    ∧ output_armed x'.
Proof.
  unfold eng. intros Hne Hf Ht. unfold ssh_packet_fwd. pstep.
  rewrite Hf, Ht. do 2 pstep. unfold SE.when.
  destruct from, to; try done; destruct x as [[] []]; cbn in Hf, Ht; subst.
  all: repeat case_bool_decide; repeat pstep.
  all: rewrite ?event_add_put, ?mret_run, ?ret_run.
  all: eexists; (split; [reflexivity|]); cbn.
  all: repeat (split; [done|]).
  all: split; [by intros []|].
  all: intros [] e [= <-] Holen; cbn in *; try done.
  all: by destruct (decide (olen e = 0)).
Qed.

Lemma fwd_both_armed s r x w er ew :
  eng r x = Some er → eng (other r) x = Some ew →
  ∃ x', (ssh_packet_fwd s r (other r);; ssh_packet_fwd s (other r) r) (put s x w)
        = (inr tt, put s x' w)
    ∧ eng r x' = Some (fwd_both er ew).1
    ∧ eng (other r) x' = Some (fwd_both er ew).2
    ∧ fd (client x') = fd (client x) ∧ fd (server x') = fd (server x)
    ∧ connected x' = connected x
    ∧ input (client x') = input (client x)
    ∧ input (server x') = input (server x)
    ∧ (∀ d, output (get_side d x) = true → output (get_side d x') = true)
    ∧ output_armed x'.
Proof.
  intros Hr Hw.
  assert (r ≠ other r) as Hne by by destruct r.
  destruct (ssh_packet_fwd_armed s r (other r) x w er ew Hne Hr Hw)
    as (x1 & Hrun1 & Hr1 & Hw1 & Hc1 & Hs1 & Hn1 & Hic1 & His1 & Ho1 & _).
  destruct (ssh_packet_fwd_armed s (other r) r x1 w _ _ (not_eq_sym Hne) Hw1 Hr1)
    as (x2 & Hrun2 & Hw2 & Hr2 & Hc2 & Hs2 & Hn2 & Hic2 & His2 & Ho2 & Ha2).
  exists x2. rewrite (bind_ok _ _ _ _ _ Hrun1), Hrun2.
  repeat split; try done; try congruence. auto.
Qed.

Lemma fwd_both_armed_w s wd x w er ew :
  eng (other wd) x = Some er → eng wd x = Some ew →
  ∃ x', (ssh_packet_fwd s (other wd) wd;; ssh_packet_fwd s wd (other wd)) (put s x w)
        = (inr tt, put s x' w)
    ∧ eng (other wd) x' = Some (fwd_both er ew).1
    ∧ eng wd x' = Some (fwd_both er ew).2
    ∧ fd (client x') = fd (client x) ∧ fd (server x') = fd (server x)
    ∧ connected x' = connected x
    ∧ input (client x') = input (client x)
    ∧ input (server x') = input (server x)
    ∧ (∀ d, output (get_side d x) = true → output (get_side d x') = true)
    ∧ output_armed x'.
Proof.
  intros Hr Hw. assert (other (other wd) = wd) as Hoo by by destruct wd.
  pose proof (fwd_both_armed s (other wd) x w er ew Hr) as H.
  rewrite Hoo in H. by apply H.
Qed.

Lemma flag_sfd d k v x :
  fd (server (set_side d (set_event k v (get_side d x)) x)) = fd (server x).
Proof. by destruct d, k, x as [[] []]. Qed.

Lemma flag_connected d k v x :
  connected (set_side d (set_event k v (get_side d x)) x) = connected x.
Proof. by destruct d, k, x as [[] []]. Qed.

Lemma engine_sfd d x e :
  fd (server (set_side d (set_ssh (Some e) (get_side d x)) x)) = fd (server x).
Proof. by destruct d, x as [[] []]. Qed.

Lemma engine_connected d x e :
  connected (set_side d (set_ssh (Some e) (get_side d x)) x) = connected x.
Proof. by destruct d, x as [[] []]. Qed.

Lemma flag_closed_fds d k v x :
  closed_fds (set_side d (set_event k v (get_side d x)) x) = closed_fds x.
Proof. by destruct d, k, x as [[] []]. Qed.

Lemma deliver_cases s ev x w ec es :
  eng Client x = Some ec → eng Server x = Some es →
  (io_failed x ev
   ∧ ∃ w', deliver s ev (put s x w) = (inr tt, w')
       ∧ heap w' = delete s (heap w)
       ∧ open_fds w' = open_fds w ∖ closed_fds x
       ∧ sessions w' = (if decide (connected x = 1)
                        then filter (λ t, t ≠ s) (sessions w) else sessions w)
       ∧ listener w' = listener w)
  ∨ (¬ io_failed x ev
     ∧ ∃ x', deliver s ev (put s x w) = (inr tt, put s x' w)
       ∧ fd (client x') = fd (client x) ∧ fd (server x') = fd (server x)
       ∧ connected x' = connected x
       ∧ (∃ ec' es', eng Client x' = Some ec' ∧ eng Server x' = Some es')
       ∧ (∀ d, input (get_side d x) = true → input (get_side d x') = true)
       ∧ (∀ fd_ rd, ev = Readable fd_ rd →
            input (get_side (side_of fd_ x) x') = true)
       ∧ output_armed x').
Proof.
  intros Hc Hs. unfold deliver. pstep.
  destruct ev as [fd_ rd|fd_ slot wr].
  - (* readable *)
    pstep. unfold input_cb. pstep. rewrite flag_cfd.
    fold (side_of fd_ x). set (r := side_of fd_ x).
    assert (∃ er ew, eng r x = Some er ∧ eng (other r) x = Some ew)
      as (er & ew & Hr & Hw) by (destruct r; cbn; eauto).
    destruct (bool_decide (io_len rd < 0) && io_again rd) eqn:Hagain.
    { (* EINTR or EAGAIN *)
      pstep.
      match goal with
      | |- context [(ssh_packet_fwd _ _ _ ≫= _) (put ?s ?X ?W)] =>
          destruct (fwd_both_armed s r X W er ew)
            as (x' & Hrun & Hr' & Hw' & Hc' & Hs' & Hn' & Hic' & His' & Ho' & Ha');
          [rewrite !flag_eng; exact Hr|rewrite !flag_eng; exact Hw|rewrite Hrun]
      end.
      apply andb_true_iff in Hagain as [Hl Ha]. apply bool_decide_eq_true in Hl.
      right. split; [intros [_ Hn]; by apply Hn|].
      exists x'. split; [done|].
      rewrite !flag_cfd in Hc'. rewrite !flag_sfd in Hs'.
      rewrite !flag_connected in Hn'.
      repeat (split; [done|]).
      split; [destruct r; cbn in *; eauto|].
      split; [|split; [|done]].
      + intros d Hd. destruct d, r, x as [[] []]; cbn in *; congruence.
      + intros ? ? [= <- <-]. fold r.
        destruct r, x as [[] []]; cbn in *; congruence. }
    destruct (decide (io_len rd ≤ 0)) as [Hle|Hgt].
    { left. split.
      { split; [done|]. intros [Hl Ha].
        by rewrite bool_decide_eq_true_2, Ha in Hagain. }
      match goal with
      | |- ∃ w', session_close ?s (put ?s ?X ?W) = _ ∧ _ =>
          destruct (session_close_put s X W) as (w' & Hrun & _ & Hh & Hf & Hss & Hl)
      end.
      exists w'. rewrite flag_closed_fds in Hf. rewrite flag_connected in Hss.
      done. }
    pstep.
    match goal with
    | |- context [(with_engine s r ?f ≫= _) (put s ?X ?W)] =>
        assert (eng r X = Some er) as HX by (rewrite !flag_eng; exact Hr);
        rewrite (bind_ok _ _ _ _ _ (with_engine_put s r f X W er HX))
    end.
    match goal with
    | |- context [(ssh_packet_fwd _ _ _ ≫= _) (put ?s ?X ?W)] =>
        destruct (fwd_both_armed s r X W (ssh_input_append er (io_packets rd)) ew)
          as (x' & Hrun & Hr' & Hw' & Hc' & Hs' & Hn' & Hic' & His' & Ho' & Ha');
        [apply engine_same|rewrite engine_other, !flag_eng; exact Hw
        |rewrite Hrun]
    end.
    right. split; [intros [? _]; lia|].
    exists x'. split; [done|].
    rewrite engine_cfd, !flag_cfd in Hc'. rewrite engine_sfd, !flag_sfd in Hs'.
    rewrite engine_connected, !flag_connected in Hn'.
    repeat (split; [done|]).
    split; [destruct r; cbn in *; eauto|].
    split; [|split; [|done]].
    + intros d Hd. destruct d, r, x as [[] []]; cbn in *; congruence.
    + intros ? ? [= <- <-]. fold r.
      destruct r, x as [[] []]; cbn in *; congruence.
  - (* writable *)
    pstep. unfold output_cb. pstep. rewrite flag_cfd.
    fold (side_of fd_ x). set (wd := side_of fd_ x).
    assert (∃ ew er, eng wd x = Some ew ∧ eng (other wd) x = Some er)
      as (ew & er & Hw & Hr) by (destruct wd; cbn; eauto).
    match goal with
    | |- context [ssh (get_side wd ?X)] =>
        change (ssh (get_side wd X)) with (eng wd X)
    end.
    rewrite flag_eng, Hw.
    destruct (decide (0 < olen_read slot ew)) as [Hout|Hout].
    + destruct (bool_decide (io_len wr < 0) && io_again wr) eqn:Hagain.
      { pstep.
        match goal with
        | |- context [(ssh_packet_fwd _ _ _ ≫= _) (put ?s ?X ?W)] =>
            destruct (fwd_both_armed_w s wd X W er ew)
              as (x' & Hrun & Hr' & Hw' & Hc' & Hs' & Hn' & Hic' & His' & Ho' & Ha');
            [rewrite !flag_eng; exact Hr|rewrite !flag_eng; exact Hw
            |rewrite Hrun]
        end.
        apply andb_true_iff in Hagain as [Hl Ha].
        apply bool_decide_eq_true in Hl.
        right. split; [intros (_ & _ & Hn); by apply Hn|].
        exists x'. split; [done|].
        rewrite !flag_cfd in Hc'. rewrite !flag_sfd in Hs'.
        rewrite !flag_connected in Hn'.
        repeat (split; [done|]).
        split; [destruct wd; cbn in *; eauto|].
        split; [|split; [|done]].
        + intros d Hd. destruct d, wd, x as [[] []]; cbn in *; congruence.
        + intros ? ? [=]. }
      destruct (decide (io_len wr ≤ 0)) as [Hle|Hgt].
      { left. split.
        { split; [exists ew; by fold wd|]. split; [done|]. intros [Hl Ha].
          by rewrite bool_decide_eq_true_2, Ha in Hagain. }
        match goal with
        | |- ∃ w', session_close ?s (put ?s ?X ?W) = _ ∧ _ =>
            destruct (session_close_put s X W)
              as (w' & Hrun & _ & Hh & Hf & Hss & Hl)
        end.
        exists w'. rewrite flag_closed_fds in Hf. rewrite flag_connected in Hss.
        done. }
      rewrite decide_same.
      match goal with
      | |- context [(with_engine s wd ?f ≫= _) (put s ?X ?W)] =>
          assert (eng wd X = Some ew) as HX by (rewrite !flag_eng; exact Hw);
          rewrite (bind_ok _ _ _ _ _ (with_engine_put s wd f X W ew HX))
      end.
      match goal with
      | |- context [(ssh_packet_fwd _ _ _ ≫= _) (put ?s ?X ?W)] =>
          destruct (fwd_both_armed_w s wd X W er
                      (ssh_output_consume ew (io_len wr)))
            as (x' & Hrun & Hr' & Hw' & Hc' & Hs' & Hn' & Hic' & His' & Ho' & Ha');
          [rewrite engine_other, !flag_eng; exact Hr|apply engine_same
          |rewrite Hrun]
      end.
      right. split; [intros (_ & ? & _); lia|].
      exists x'. split; [done|].
      rewrite engine_cfd, !flag_cfd in Hc'.
      rewrite engine_sfd, !flag_sfd in Hs'.
      rewrite engine_connected, !flag_connected in Hn'.
      repeat (split; [done|]).
      split; [destruct wd; cbn in *; eauto|].
      split; [|split; [|done]].
      * intros d Hd. destruct d, wd, x as [[] []]; cbn in *; congruence.
      * intros ? ? [=].
    + match goal with
      | |- context [(ssh_packet_fwd _ _ _ ≫= _) (put ?s ?X ?W)] =>
          destruct (fwd_both_armed_w s wd X W er ew)
            as (x' & Hrun & Hr' & Hw' & Hc' & Hs' & Hn' & Hic' & His' & Ho' & Ha');
          [rewrite !flag_eng; exact Hr|rewrite !flag_eng; exact Hw
          |rewrite Hrun]
      end.
      right. split.
      { intros ((e & He & Hpos) & _). fold wd in He. congruence. }
      exists x'. split; [done|].
      rewrite !flag_cfd in Hc'. rewrite !flag_sfd in Hs'.
      rewrite !flag_connected in Hn'.
      repeat (split; [done|]).
      split; [destruct wd; cbn in *; eauto|].
      split; [|split; [|done]].
      * intros d Hd. destruct d, wd, x as [[] []]; cbn in *; congruence.
      * intros ? ? [=].
Qed.

(** *** The event loop keeps the sessions consistent *)

Lemma initial_consistent B kb kkb : consistent B (initial B kb kkb).
Proof.
  unfold consistent, initial; cbn.
  split; [apply NoDup_nil_2|]. split.
  { intros s. split; [intros H; by apply elem_of_nil in H|].
    intros (x & Hx & _). by rewrite lookup_empty in Hx. }
  split; [intros s x Hx; by rewrite lookup_empty in Hx|].
  split; [intros s1 s2 x1 x2 _ Hx; by rewrite lookup_empty in Hx|].
  split; [done|]. intros fd_ Hfd. by left.
Qed.

Lemma accept_cb_negative e w :
  a_accept e < 0 → ∃ w', accept_cb e w = (inl (ProcessFatal "accept"), w').
Proof.
  intros Hacc. unfold accept_cb.
  rewrite (bind_ok _ _ _ _ _ (xcalloc_run w)).
  do 6 pstep. unfold SE.when. rewrite bool_decide_eq_false_2 by lia.
  do 2 pstep.
  destruct (decide (a_accept e < 0)) as [_|?]; [|lia].
  by eexists.
Qed.

Lemma consistent_same B w w' :
  heap w' = heap w → sessions w' = sessions w → open_fds w' = open_fds w →
  consistent B w → consistent B w'.
Proof. unfold consistent. by intros -> -> ->. Qed.

Lemma consistent_insert_new B w w' s x :
  heap w !! s = None → heap w' = <[s := x]> (heap w) →
  sessions w' = sessions w →
  open_fds w' = session_fds x ∪ open_fds w →
  session_ok x → connected x = 0 →
  0 ≤ fd (client x) → 0 ≤ fd (server x) → fd (client x) ≠ fd (server x) →
  session_fds x ## open_fds w →
  consistent B w → consistent B w'.
Proof.
  intros Hs Hh Hss Hfds Hok Hconn Hc0 Hs0 Hne Hnew
    (Hnd & Hlist & Hrec & Hdisj & HB & Hcov).
  unfold consistent. rewrite Hh, Hss, Hfds.
  split; [done|]. split.
  { intros t. rewrite Hlist. split.
    - intros (y & Hy & Hcy). exists y. split; [|done].
      rewrite lookup_insert_ne; [done|]. intros ->. congruence.
    - intros (y & Hy & Hcy). apply lookup_insert_Some in Hy as [[<- <-]|[? Hy]].
      + lia.
      + by exists y. }
  split.
  { intros t y Hy. apply lookup_insert_Some in Hy as [[<- <-]|[? Hy]].
    - repeat (split; [done|]). split; [set_solver|]. set_solver.
    - destruct (Hrec t y Hy) as (? & ? & ? & ? & ? & ?).
      repeat (split; [done|]). split; [set_solver|done]. }
  split.
  { intros s1 s2 x1 x2 Hne12 H1 H2.
    apply lookup_insert_Some in H1 as [[<- <-]|[? H1]];
      apply lookup_insert_Some in H2 as [[<- <-]|[? H2]]; try done.
    - destruct (Hrec s2 x2 H2) as (_ & _ & _ & _ & Hsub & _). set_solver.
    - destruct (Hrec s1 x1 H1) as (_ & _ & _ & _ & Hsub & _). set_solver.
    - by eapply (Hdisj s1 s2). }
  split; [set_solver|].
  intros fd_ Hfd. apply elem_of_union in Hfd as [Hfd|Hfd].
  - right. exists s, x. split; [apply lookup_insert_eq|done].
  - destruct (Hcov fd_ Hfd) as [?|(t & y & Hy & ?)]; [by left|right].
    exists t, y. split; [|done]. rewrite lookup_insert_ne; [done|].
    intros ->. congruence.
Qed.

Lemma consistent_update B w w' s x x' :
  heap w !! s = Some x → heap w' = <[s := x']> (heap w) →
  open_fds w' = open_fds w →
  fd (client x') = fd (client x) → fd (server x') = fd (server x) →
  session_ok x' →
  (connected x' = connected x ∧ sessions w' = sessions w)
  ∨ (connected x = 0 ∧ connected x' = 1 ∧ sessions w' = sessions w ++ [s]) →
  consistent B w → consistent B w'.
Proof.
  intros Hx Hh Hfds Hc Hs Hok Hlist' (Hnd & Hlist & Hrec & Hdisj & HB & Hcov).
  assert (session_fds x' = session_fds x) as Hsf
    by (unfold session_fds; by rewrite Hc, Hs).
  unfold consistent. rewrite Hh, Hfds.
  split.
  { destruct Hlist' as [[_ ->]|(Hc0 & _ & ->)]; [done|].
    apply NoDup_app. split; [done|]. split; [|apply NoDup_singleton].
    intros t Ht Hin. apply list_elem_of_singleton in Hin as ->.
    apply Hlist in Ht as (y & Hy & Hcy). rewrite Hx in Hy.
    injection Hy as <-. lia. }
  split.
  { intros t. destruct Hlist' as [[Hcc ->]|(Hc0 & Hc1 & ->)].
    - rewrite Hlist. split.
      + intros (y & Hy & Hcy). destruct (decide (t = s)) as [->|Hts].
        * exists x'. rewrite lookup_insert_eq. split; [done|].
          rewrite Hx in Hy. injection Hy as <-. congruence.
        * exists y. by rewrite lookup_insert_ne.
      + intros (y & Hy & Hcy).
        apply lookup_insert_Some in Hy as [[<- <-]|[? Hy]].
        * exists x. split; [done|congruence].
        * by exists y.
    - rewrite elem_of_app, list_elem_of_singleton, Hlist. split.
      + intros [(y & Hy & Hcy)| ->].
        * exists y. split; [|done]. rewrite lookup_insert_ne; [done|].
          intros ->. rewrite Hx in Hy. injection Hy as <-. lia.
        * exists x'. by rewrite lookup_insert_eq.
      + intros (y & Hy & Hcy).
        apply lookup_insert_Some in Hy as [[<- <-]|[? Hy]]; [by right|].
        left. by exists y. }
  split.
  { intros t y Hy. apply lookup_insert_Some in Hy as [[<- <-]|[? Hy]].
    - destruct (Hrec _ _ Hx) as (_ & ? & ? & ? & ? & ?).
      rewrite Hsf, Hc, Hs. done.
    - by apply (Hrec t y). }
  split.
  { intros s1 s2 x1 x2 Hne12 H1 H2.
    apply lookup_insert_Some in H1 as [[<- <-]|[? H1]];
      apply lookup_insert_Some in H2 as [[<- <-]|[? H2]]; try done.
    - rewrite Hsf. by eapply (Hdisj s s2).
    - rewrite Hsf. by eapply (Hdisj s1 s).
    - by eapply (Hdisj s1 s2). }
  split; [done|].
  intros fd_ Hfd. destruct (Hcov fd_ Hfd) as [?|(t & y & Hy & ?)]; [by left|].
  right. destruct (decide (t = s)) as [->|Hts].
  - exists s, x'. rewrite lookup_insert_eq. split; [done|].
    rewrite Hx in Hy. injection Hy as <-. by rewrite Hsf.
  - exists t, y. by rewrite lookup_insert_ne.
Qed.

Lemma consistent_delete B w w' s x :
  heap w !! s = Some x → heap w' = delete s (heap w) →
  open_fds w' = open_fds w ∖ session_fds x →
  sessions w' = (if decide (connected x = 1)
                 then filter (λ t, t ≠ s) (sessions w) else sessions w) →
  consistent B w → consistent B w'.
Proof.
  intros Hx Hh Hfds Hss (Hnd & Hlist & Hrec & Hdisj & HB & Hcov).
  destruct (Hrec _ _ Hx) as (_ & _ & _ & _ & Hxsub & HxB).
  unfold consistent. rewrite Hh, Hfds, Hss.
  split; [case_decide; [by apply NoDup_filter|done]|].
  split.
  { intros t. rewrite lookup_delete.
    case_decide as Hcx.
    - rewrite list_elem_of_filter, Hlist. split.
      + intros (Hts & y & Hy & Hcy). exists y.
        by rewrite decide_False by done.
      + intros (y & Hy & Hcy). case_decide; [done|]. split; [done|by exists y].
    - rewrite Hlist. split.
      + intros (y & Hy & Hcy). exists y. split; [|done].
        case_decide as Hst; [|done]. subst t. rewrite Hx in Hy.
        injection Hy as <-. done.
      + intros (y & Hy & Hcy). case_decide; [done|]. by exists y. }
  split.
  { intros t y Hy. apply lookup_delete_Some in Hy as [Hst Hy].
    destruct (Hrec t y Hy) as (? & ? & ? & ? & ? & ?).
    repeat (split; [done|]). split; [|done].
    pose proof (Hdisj s t x y Hst Hx Hy). set_solver. }
  split.
  { intros s1 s2 x1 x2 Hne12 H1 H2.
    apply lookup_delete_Some in H1 as [_ H1].
    apply lookup_delete_Some in H2 as [_ H2]. by eapply (Hdisj s1 s2). }
  split; [set_solver|].
  intros fd_ Hfd. apply elem_of_difference in Hfd as [Hfd Hnx].
  destruct (Hcov fd_ Hfd) as [?|(t & y & Hy & Hin)]; [by left|right].
  exists t, y. split; [|done]. apply lookup_delete_Some. split; [|done].
  intros <-. rewrite Hx in Hy. injection Hy as <-. done.
Qed.

Lemma connect_choice_Some gai ai :
  connect_choice gai = Some ai →
  0 ≤ ai_socket ai ∧ ∀ fds, sockets_fresh gai fds → ai_socket ai ∉ fds.
Proof.
  destruct gai as [ais|]; [|done]. cbn. intros Hf.
  apply find_some in Hf as [Hin Hw]. split.
  - unfold ai_fails in Hw. apply negb_true_iff in Hw.
    repeat (apply orb_false_iff in Hw as [Hw ?]).
    match goal with
    | H : bool_decide (ai_socket ai < 0) = false |- _ =>
        apply bool_decide_eq_false in H
    end. lia.
  - intros fds Hfr. rewrite Forall_forall in Hfr. apply Hfr.
    by apply list_elem_of_In.
Qed.

Lemma closed_fds_eq x :
  0 ≤ fd (client x) → 0 ≤ fd (server x) → closed_fds x = session_fds x.
Proof.
  intros Hc Hs. unfold closed_fds, session_fds.
  rewrite !decide_True by lia. set_solver.
Qed.

Lemma step_consistent B w w' :
  proxy_step w w' → consistent B w → consistent B w'.
Proof.
  intros Hstep Hinv. destruct Hstep as
    [e w w' Hl Hfresh Hrun|e s x w w' Hx Hconn Hout Hrun|s x ev w w' Hx Hconn Hev Hrun].
  - (* accept_cb *)
    destruct (decide (a_accept e < 0)) as [Hneg|Hpos].
    { destruct (accept_cb_negative e w Hneg) as [? Hf]. congruence. }
    destruct (accept_cb_run e w) as (w2 & Hrun2 & Hss & _ & _ & _ & Hcase);
      [lia|].
    rewrite Hrun in Hrun2. injection Hrun2 as <-.
    destruct Hcase as [(Hh & _ & Hfds)|(ai & Hfc & Hch & Hh & Hfds)].
    + apply (consistent_same B w); auto.
    + destruct (connect_choice_Some _ _ Hch) as [Hsock Hnew].
      destruct Hfresh as [Hacc Hfr]. specialize (Hnew _ Hfr).
      eapply (consistent_insert_new B w w' _ (pending (a_accept e) (ai_socket ai)));
        try done.
      * apply fresh_unused.
      * rewrite Hfds by done. unfold session_fds. cbn. set_solver.
      * left. done.
      * cbn. lia.
      * cbn. set_solver.
      * unfold session_fds. cbn. set_solver.
  - (* connect_cb *)
    destruct Hinv as (Hnd & Hlist & Hrec & Hrest).
    destruct (Hrec _ _ Hx) as (Hok & Hc0 & Hs0 & Hne & Hsub & HB).
    pose proof (conj Hnd (conj Hlist (conj Hrec Hrest))) as Hinv.
    destruct (decide (connect_soerr e = 0)) as [Herr|Herr].
    + destruct (decide (c_add_hostkey_client e < 0)) as [Hkc|Hkc].
      { destruct (connect_cb_hostkey_fatal w e s x Hx Herr (or_introl Hkc))
          as (? & ? & Hf). congruence. }
      destruct (decide (c_add_hostkey_server e < 0)) as [Hks|Hks].
      { destruct (connect_cb_hostkey_fatal w e s x Hx Herr (or_intror Hks))
          as (? & ? & Hf). congruence. }
      destruct (connect_cb_ok e s x w Hx Herr) as (w2 & Hrun2 & Hh & Hss & Hfds & _);
        [lia|lia|].
      rewrite Hrun in Hrun2. injection Hrun2 as <-.
      eapply (consistent_update B w w' s x (established x w)); try done.
      * right. cbn. eauto 10.
      * right. done.
    + destruct (connect_cb_failure w e s x Hx) as (w2 & Hrun2 & Hh & Hss & Hfds);
        [lia|lia|done|].
      rewrite Hrun in Hrun2. injection Hrun2 as <-.
      eapply (consistent_delete B w w' s x); try done.
      by rewrite decide_False by lia.
  - (* input_cb, output_cb *)
    destruct Hinv as (Hnd & Hlist & Hrec & Hrest).
    destruct (Hrec _ _ Hx) as (Hok & Hc0 & Hs0 & Hne & Hsub & HB).
    pose proof (conj Hnd (conj Hlist (conj Hrec Hrest))) as Hinv.
    destruct Hok as [(? & _)|(_ & (ec & es & Hec & Hes) & Hic & His)]; [lia|].
    rewrite <- (put_id w s x Hx) in Hrun.
    destruct (deliver_cases s ev x w ec es Hec Hes)
      as [(_ & w2 & Hrun2 & Hh & Hfds & Hss & _)
         |(_ & x' & Hrun2 & Hc' & Hs' & Hn' & Heng & Hin & _)].
    + rewrite Hrun in Hrun2. injection Hrun2 as <-.
      eapply (consistent_delete B w w' s x); try done.
      by rewrite Hfds, closed_fds_eq.
    + rewrite Hrun in Hrun2. injection Hrun2 as ->.
      eapply (consistent_update B w _ s x x'); try done.
      * right. split; [lia|]. split; [done|].
        split; [apply (Hin Client Hic)|apply (Hin Server His)].
      * left. done.
Qed.

(** The invariant holds along every run of the event loop. *)
Lemma rtc_consistent B w w' :
  consistent B w → rtc proxy_step w w' → consistent B w'.
Proof.
  intros Hinv Hsteps. induction Hsteps as [|w w1 w2 Hstep _ IH]; [done|].
  apply IH. by eapply step_consistent.
Qed.

(** X13: [do_connect] tries the addresses in order and returns the socket
    of the first one that is AF_INET or AF_INET6 and on which socket, fcntl
    and connect succeed (a connect in progress counts), or -1 when there is
    none or getaddrinfo failed.  Every socket it opened for an address that
    did not work is closed again: afterwards exactly the returned socket is
    open in addition, and nothing else of the proxy has changed. *)
Theorem do_connect_result gai w :
  sockets_fresh gai (open_fds w) →
  ∃ r w', do_connect gai w = (inr r, w')
    ∧ same_sessions w w'
    ∧ match connect_choice gai with
      | Some ai => r = ai_socket ai ∧ 0 ≤ r
                   ∧ open_fds w' = {[r]} ∪ open_fds w
      | None => r = -1 ∧ open_fds w' = open_fds w
      end.
Proof.
  intros Hfresh.
  destruct (do_connect_run gai w) as (r & w' & Hrun & Hs & Hr & Hf).
  exists r, w'. split; [done|]. split; [done|]. specialize (Hf Hfresh).
  destruct (connect_choice gai) as [ai|].
  - destruct Hr as [-> Hpos]. rewrite decide_True in Hf by done. done.
  - subst r. rewrite decide_False in Hf by lia. split; [done|]. set_solver.
Qed.

Lemma do_connect_result_witness :
  ∃ r w', do_connect (Some two_addresses) w_start = (inr r, w')
    ∧ same_sessions w_start w'
    ∧ r = 9 ∧ 0 ≤ r ∧ open_fds w' = {[r]} ∪ open_fds w_start.
Proof.
  apply (do_connect_result (Some two_addresses) w_start).
  cbn. repeat constructor; cbn; set_solver.
Defined.

(** X14: [do_listen] returns the socket of the first address that is
    AF_INET or AF_INET6 and on which socket, setsockopt, bind and listen
    succeed, and a negative value when there is none or getaddrinfo failed.
    Every socket opened for an address that did not work is closed again:
    afterwards exactly the returned socket is open in addition. *)
Theorem do_listen_result gai w :
  listen_fresh gai (open_fds w) →
  ∃ r w', do_listen gai w = (inr r, w')
    ∧ same_sessions w w'
    ∧ match listen_choice gai with
      | Some ai => r = la_socket ai ∧ 0 ≤ r
                   ∧ open_fds w' = {[r]} ∪ open_fds w
      | None => r < 0 ∧ open_fds w' = open_fds w
      end.
Proof.
  intros Hfresh.
  destruct (do_listen_run gai w) as (r & w' & Hrun & Hs & Hr & Hf).
  exists r, w'. split; [done|]. split; [done|]. specialize (Hf Hfresh).
  destruct (listen_choice gai) as [ai|].
  - destruct Hr as [-> Hpos]. rewrite decide_True in Hf by done. done.
  - rewrite decide_False in Hf by lia. split; [done|]. set_solver.
Qed.

Lemma do_listen_result_witness :
  ∃ r w', do_listen (Some two_listen_addresses) w_start = (inr r, w')
    ∧ same_sessions w_start w'
    ∧ r = 4 ∧ 0 ≤ r ∧ open_fds w' = {[r]} ∪ open_fds w_start.
Proof.
  apply (do_listen_result (Some two_listen_addresses) w_start).
  cbn. repeat constructor; cbn; set_solver.
Defined.

(** X15: when accept, fcntl and [do_connect] succeed, [accept_cb] arms the
    listener again and leaves one new session record: not connected, the
    accepted socket on the client side, the connecting socket on the server
    side, no engine, and only the write event of the server's socket
    pending.  The record is not in the session list yet, the two sockets
    are the only descriptors opened, and no other record is touched. *)
Theorem accept_cb_opens_session e w ai :
  0 ≤ a_accept e → 0 ≤ a_fcntl e →
  connect_choice (a_getaddrinfo e) = Some ai → accept_fresh e w →
  ∃ w', accept_cb e w = (inr tt, w')
    ∧ heap w' = <[fresh (dom (heap w)) :=
                    pending (a_accept e) (ai_socket ai)]> (heap w)
    ∧ sessions w' = sessions w
    ∧ open_fds w' = {[a_accept e; ai_socket ai]} ∪ open_fds w
    ∧ listener w' = true.
Proof.
  intros Hacc Hfc Hch Hfresh.
  destruct (accept_cb_run e w Hacc) as (w' & Hrun & Hss & Hl & _ & _ & Hcase).
  exists w'. split; [done|].
  destruct Hcase as [(_ & [?|Hnone] & _)|(ai' & _ & Hch' & Hh & Hfds)].
  - lia.
  - congruence.
  - rewrite Hch in Hch'. injection Hch' as <-. auto.
Qed.

Lemma accept_cb_opens_session_witness :
  ∃ w', accept_cb e_accepts w_start = (inr tt, w')
    ∧ heap w' = <[fresh (dom (heap w_start)) := pending 7 9]> (heap w_start)
    ∧ sessions w' = sessions w_start
    ∧ open_fds w' = {[7; 9]} ∪ open_fds w_start
    ∧ listener w' = true.
Proof.
  apply (accept_cb_opens_session e_accepts w_start
           {| ai_inet := true; ai_socket := 9; ai_fcntl := 0;
              ai_connect := -1; ai_EINPROGRESS := true |}).
  - cbn. lia.
  - cbn. lia.
  - reflexivity.
  - split; cbn; [set_solver|]. repeat constructor; cbn; set_solver.
Defined.

(** X16: when the connect has succeeded and both host keys load,
    [connect_cb] turns the session into a connected one: it creates the two
    engines, a server-side engine with [keybuf] facing the client and a
    client-side engine with [known_keybuf] facing the server, makes both
    read events pending, and appends the session to the session list.  No
    descriptor is opened or closed and no other record is touched. *)
Theorem connect_cb_establishes e s x w :
  heap w !! s = Some x → connect_soerr e = 0 →
  0 ≤ c_add_hostkey_client e → 0 ≤ c_add_hostkey_server e →
  ∃ w', connect_cb e s w = (inr tt, w')
    ∧ heap w' = <[s := established x w]> (heap w)
    ∧ sessions w' = sessions w ++ [s]
    ∧ open_fds w' = open_fds w ∧ listener w' = listener w
    ∧ keybuf w' = keybuf w ∧ known_keybuf w' = known_keybuf w.
Proof. apply connect_cb_ok. Qed.

Lemma connect_cb_establishes_witness :
  ∃ w', connect_cb e_connects 1 w_pending = (inr tt, w')
    ∧ heap w' = <[1%positive := established x_pending w_pending]>
                  (heap w_pending)
    ∧ sessions w' = sessions w_pending ++ [1%positive]
    ∧ open_fds w' = open_fds w_pending ∧ listener w' = listener w_pending
    ∧ keybuf w' = keybuf w_pending ∧ known_keybuf w' = known_keybuf w_pending.
Proof.
  apply (connect_cb_establishes e_connects 1%positive x_pending w_pending).
  - vm_compute. reflexivity.
  - reflexivity.
  - cbn. lia.
  - cbn. lia.
Defined.

(** X17: when a read returns 0 or fails, or a write that was attempted
    returns 0 or fails, and errno is neither EINTR nor EAGAIN, the callback
    closes the session: the record is freed, its sockets are closed, a
    connected session leaves the session list, and no other record and no
    other descriptor is touched.  [output_cb] attempts the write when
    [olen] as it reads it is positive: the low 32 bits are the length of
    the engine's output, the high 32 bits are what the stack slot held, so
    that a session with nothing to send is closed, too, when the slot makes
    [olen] positive and the write returns 0. *)
Theorem io_failure_closes_session s ev x w ec es :
  heap w !! s = Some x →
  eng Client x = Some ec → eng Server x = Some es →
  io_failed x ev →
  ∃ w', deliver s ev w = (inr tt, w')
    ∧ heap w' = delete s (heap w)
    ∧ open_fds w' = open_fds w ∖ closed_fds x
    ∧ sessions w' = (if decide (connected x = 1)
                     then filter (λ t, t ≠ s) (sessions w) else sessions w)
    ∧ listener w' = listener w.
Proof.
  intros Hx Hc Hs Hfail.
  assert (deliver s ev w = deliver s ev (put s x w)) as ->
    by by rewrite put_id.
  destruct (deliver_cases s ev x w ec es Hc Hs) as [[_ H]|[Hno _]]; done.
Qed.

Lemma io_failure_closes_session_witness :
  (∃ w', deliver 1 (Readable 5 eof) w_connected = (inr tt, w')
     ∧ heap w' = delete 1%positive (heap w_connected)
     ∧ open_fds w' = open_fds w_connected ∖ closed_fds x_connected
     ∧ sessions w' = filter (λ t, t ≠ 1%positive) (sessions w_connected)
     ∧ listener w' = listener w_connected)
  ∧ (∃ w', deliver 1 (Writable 6 (2 ^ 32) eof) w_connected = (inr tt, w')
       ∧ heap w' = delete 1%positive (heap w_connected)
       ∧ open_fds w' = open_fds w_connected ∖ closed_fds x_connected
       ∧ sessions w' = filter (λ t, t ≠ 1%positive) (sessions w_connected)
       ∧ listener w' = listener w_connected).
Proof.
  split.
  - apply (io_failure_closes_session 1%positive (Readable 5 eof) x_connected
             w_connected (ssh_init true) (ssh_init false)); try reflexivity.
    split; cbn; [lia|]. intros [? _]. lia.
  - apply (io_failure_closes_session 1%positive (Writable 6 (2 ^ 32) eof)
             x_connected w_connected (ssh_init true) (ssh_init false));
      try reflexivity.
    split; [exists (ssh_init false); split; [reflexivity|vm_compute; reflexivity]|].
    split; cbn; [lia|]. intros [? _]. lia.
Defined.

(** X18: when an I/O callback on a session with both engines does not
    close the session, nothing changes but the record of that session; its
    descriptors, its state and its engines' existence are kept; the read
    event that fired is pending again and no read event that was pending is
    lost; and each side whose engine has output has its write event
    pending.  This covers the [output_cb] that does not attempt the write
    because [olen] as it reads it is not positive, whatever the engine has
    to send. *)
Theorem io_keeps_events_armed s ev x w ec es :
  heap w !! s = Some x →
  eng Client x = Some ec → eng Server x = Some es →
  ¬ io_failed x ev →
  ∃ x', deliver s ev w = (inr tt, put s x' w)
    ∧ fd (client x') = fd (client x) ∧ fd (server x') = fd (server x)
    ∧ connected x' = connected x
    ∧ (∃ ec' es', eng Client x' = Some ec' ∧ eng Server x' = Some es')
    ∧ (∀ d, input (get_side d x) = true → input (get_side d x') = true)
    ∧ (∀ fd_ rd, ev = Readable fd_ rd →
         input (get_side (side_of fd_ x) x') = true)
    ∧ output_armed x'.
Proof.
  intros Hx Hc Hs Hok.
  assert (deliver s ev w = deliver s ev (put s x w)) as ->
    by by rewrite put_id.
  destruct (deliver_cases s ev x w ec es Hc Hs) as [[Hno _]|[_ H]]; done.
Qed.

Lemma io_keeps_events_armed_witness :
  (∃ x', deliver 1 (Readable 5 two_packets) w_connected
         = (inr tt, put 1 x' w_connected)
     ∧ fd (client x') = fd (client x_connected)
     ∧ fd (server x') = fd (server x_connected)
     ∧ connected x' = connected x_connected
     ∧ (∃ ec' es', eng Client x' = Some ec' ∧ eng Server x' = Some es')
     ∧ (∀ d, input (get_side d x_connected) = true →
             input (get_side d x') = true)
     ∧ (∀ fd_ rd, Readable 5 two_packets = Readable fd_ rd →
          input (get_side (side_of fd_ x_connected) x') = true)
     ∧ output_armed x')
  ∧ (∃ x', deliver 1 (Writable 6 (-1) eof) w_connected
           = (inr tt, put 1 x' w_connected)
       ∧ fd (client x') = fd (client x_connected)
       ∧ fd (server x') = fd (server x_connected)
       ∧ connected x' = connected x_connected
       ∧ (∃ ec' es', eng Client x' = Some ec' ∧ eng Server x' = Some es')
       ∧ (∀ d, input (get_side d x_connected) = true →
               input (get_side d x') = true)
       ∧ (∀ fd_ rd, Writable 6 (-1) eof = Readable fd_ rd →
            input (get_side (side_of fd_ x_connected) x') = true)
       ∧ output_armed x').
Proof.
  split.
  - apply (io_keeps_events_armed 1%positive (Readable 5 two_packets)
             x_connected w_connected (ssh_init true) (ssh_init false));
      try reflexivity.
    intros [? _]. cbn in *. lia.
  - apply (io_keeps_events_armed 1%positive (Writable 6 (-1) eof)
             x_connected w_connected (ssh_init true) (ssh_init false));
      try reflexivity.
    intros [(e & He & Hpos) _]. injection He as <-.
    vm_compute in Hpos. discriminate Hpos.
Defined.

(** X19: along every run of the event loop, whatever the kernel answers
    and whatever the stack slot of [olen] holds when [output_cb] is
    entered, the sessions stay consistent:
    the session list holds exactly the connected records, each once, and no
    freed one; a record that is being set up has no engine, a connected one
    has both engines and both read events pending; every record has two
    open descriptors that no other record has and that were not open when
    the loop started (the set [B], which holds the listener); and every open
    descriptor was open at the start or belongs to a record, so that none
    leaks. *)
Theorem event_loop_invariant B w w' :
  consistent B w → rtc proxy_step w w' → consistent B w'.
Proof. apply rtc_consistent. Qed.

Lemma event_loop_invariant_witness : consistent {[3]} w_run.
Proof.
  apply (event_loop_invariant {[3]} w_start).
  - apply initial_consistent.
  - eapply rtc_l; [|eapply rtc_l; [|eapply rtc_l; [|eapply rtc_once]]].
    + apply (step_accept e_accepts w_start (accept_cb e_accepts w_start).2).
      * reflexivity.
      * split; cbn; [set_solver|]. repeat constructor; cbn; set_solver.
      * vm_compute. reflexivity.
    + apply (step_connect e_connects 1%positive (pending 7 9)).
      * vm_compute. reflexivity.
      * reflexivity.
      * reflexivity.
      * vm_compute. reflexivity.
    + eapply (step_io 1%positive _ (Readable 7 two_packets)).
      * vm_compute. reflexivity.
      * reflexivity.
      * split; [cbn; set_solver|reflexivity].
      * vm_compute. reflexivity.
    + eapply (step_io 1%positive _ (Writable 9 (-1) wrote_six)).
      * vm_compute. reflexivity.
      * reflexivity.
      * split; [cbn; set_solver|reflexivity].
      * vm_compute. reflexivity.
Defined.

(** What the callbacks do in a consistent world. *)
Lemma consistent_callbacks B w :
  consistent B w →
  (∀ e, ended_well (accept_cb e w).1)
  ∧ (∀ e s x, heap w !! s = Some x → connected x = 0 →
       ended_well (connect_cb e s w).1)
  ∧ (∀ s x ev, heap w !! s = Some x → connected x = 1 →
       ∃ w', deliver s ev w = (inr tt, w')).
Proof.
  intros (Hnd & Hlist & Hrec & Hrest). split; [|split].
  - intros e. destruct (decide (a_accept e < 0)) as [Hneg|Hpos].
    + destruct (accept_cb_negative e w Hneg) as [? ->]. done.
    + destruct (accept_cb_run e w) as (w2 & -> & _); [lia|done].
  - intros e s x Hx Hconn.
    destruct (Hrec _ _ Hx) as (_ & Hc0 & _).
    destruct (decide (connect_soerr e = 0)) as [Herr|Herr].
    + destruct (decide (c_add_hostkey_client e < 0)) as [Hkc|Hkc].
      { destruct (connect_cb_hostkey_fatal w e s x Hx Herr (or_introl Hkc))
          as (? & ? & ->). done. }
      destruct (decide (c_add_hostkey_server e < 0)) as [Hks|Hks].
      { destruct (connect_cb_hostkey_fatal w e s x Hx Herr (or_intror Hks))
          as (? & ? & ->). done. }
      destruct (connect_cb_ok e s x w Hx Herr) as (w2 & -> & _); [lia|lia|done].
    + destruct (connect_cb_failure w e s x Hx) as (w2 & -> & _);
        [lia|lia|done|done].
  - intros s x ev Hx Hconn.
    destruct (Hrec _ _ Hx) as (Hok & _).
    destruct Hok as [(? & _)|(_ & (ec & es & Hec & Hes) & _)]; [lia|].
    assert (deliver s ev w = deliver s ev (put s x w)) as ->
      by by rewrite put_id.
    destruct (deliver_cases s ev x w ec es Hec Hes)
      as [(_ & w2 & -> & _)|(_ & x' & -> & _)]; by eexists.
Qed.

(** X20: in every state that the event loop reaches, each callback that
    the event base can run ends the way the code provides for: [accept_cb]
    and [connect_cb] return or call [fatal], the I/O callbacks return,
    whatever the reads and writes return and whatever the stack slot of
    [olen] holds; none reads a freed session record or calls through a NULL
    engine. *)
Theorem event_loop_callbacks_return B w0 w :
  consistent B w0 → rtc proxy_step w0 w →
  (∀ e, ended_well (accept_cb e w).1)
  ∧ (∀ e s x, heap w !! s = Some x → connected x = 0 →
       ended_well (connect_cb e s w).1)
  ∧ (∀ s x ev, heap w !! s = Some x → connected x = 1 →
       ∃ w', deliver s ev w = (inr tt, w')).
Proof.
  intros Hinv Hrun. eapply consistent_callbacks.
  by eapply rtc_consistent.
Qed.

Lemma event_loop_callbacks_return_witness :
  let w := (connect_cb e_connects 1 (accept_cb e_accepts w_start).2).2 in
  (∀ e, ended_well (accept_cb e w).1)
  ∧ (∀ e s x, heap w !! s = Some x → connected x = 0 →
       ended_well (connect_cb e s w).1)
  ∧ (∀ s x ev, heap w !! s = Some x → connected x = 1 →
       ∃ w', deliver s ev w = (inr tt, w')).
Proof.
  apply (event_loop_callbacks_return {[3]} w_start).
  - apply initial_consistent.
  - eapply rtc_l; [|eapply rtc_once].
    + apply (step_accept e_accepts w_start (accept_cb e_accepts w_start).2).
      * reflexivity.
      * split; cbn; [set_solver|]. repeat constructor; cbn; set_solver.
      * vm_compute. reflexivity.
    + apply (step_connect e_connects 1%positive (pending 7 9)).
      * vm_compute. reflexivity.
      * reflexivity.
      * reflexivity.
      * vm_compute. reflexivity.
Defined.

(** *** The length that [output_cb] tests *)

Lemma testbit_63_negative slot e :
  Z.testbit slot 63 = true → olen_read slot e < 0.
Proof.
  intros Hbit. unfold olen_read, to_ssize.
  set (v := Z.lor _ _).
  assert (Z.testbit (Z.land v (Z.ones 64)) 63 = true) as Hv.
  { rewrite Z.land_spec. unfold v. rewrite Z.lor_spec, Z.land_spec, Hbit.
    reflexivity. }
  clearbody v. rewrite Z.land_ones in * by done.
  assert (0 < 2 ^ 64) as H64 by reflexivity.
  pose proof (Z.mod_pos_bound v (2 ^ 64) H64) as Hb.
  apply Z.testbit_true in Hv; [|done].
  cbn zeta. case_decide as Hlt; [|clear Hv; lia].
  rewrite Z.div_small in Hv by (clear Hv; lia). discriminate Hv.
Qed.

Lemma fwd_both_olen er ew : olen ew ≤ olen (fwd_both er ew).2.
Proof.
  unfold fwd_both, fwd_engines, ssh_packet_get, ssh_packet_put. cbn.
  destruct (inq er) as [|p rest]; cbn.
  - rewrite decide_False by (intros ?; done). cbn.
    destruct (inq ew); cbn; lia.
  - case_decide; cbn; destruct (inq ew); cbn; lia.
Qed.

(** An [output_cb] that finds [olen] not positive goes straight to the two
    calls of [ssh_packet_fwd]. *)
Lemma deliver_skip s fd_ slot wr x w ew :
  eng (side_of fd_ x) x = Some ew → ¬ 0 < olen_read slot ew →
  deliver s (Writable fd_ slot wr) (put s x w)
  = (ssh_packet_fwd s (other (side_of fd_ x)) (side_of fd_ x);;
     ssh_packet_fwd s (side_of fd_ x) (other (side_of fd_ x)))
      (put s (set_side (side_of fd_ x)
                (set_event Output false (get_side (side_of fd_ x) x)) x) w).
Proof.
  intros Hw Hskip. unfold deliver. pstep. pstep.
  unfold output_cb. pstep. rewrite flag_cfd. fold (side_of fd_ x).
  match goal with
  | |- context [ssh (get_side (side_of fd_ x) ?X)] =>
      change (ssh (get_side (side_of fd_ x) X)) with (eng (side_of fd_ x) X)
  end.
  rewrite flag_eng, Hw. by rewrite decide_False by done.
Qed.

(** X23: [output_cb] tests an [olen] of which ssh_output_ptr has set the
    low 32 bits only.  When the top bit of what the stack slot held is set,
    [olen] is negative whatever the engine has to send: write is not
    called, so that the callback does the same whatever write would have
    returned; the session stays, the output of that side is not consumed,
    and its write event is pending again as long as there is output. *)
Theorem negative_olen_skips_write s fd_ slot wr x w ec es :
  heap w !! s = Some x →
  eng Client x = Some ec → eng Server x = Some es →
  Z.testbit slot 63 = true →
  (∀ wr', deliver s (Writable fd_ slot wr') w
          = deliver s (Writable fd_ slot wr) w)
  ∧ ∃ x' e e', deliver s (Writable fd_ slot wr) w = (inr tt, put s x' w)
      ∧ eng (side_of fd_ x) x = Some e
      ∧ eng (side_of fd_ x) x' = Some e'
      ∧ olen e ≤ olen e'
      ∧ output_armed x'.
Proof.
  intros Hx Hc Hs Hbit. set (wd := side_of fd_ x).
  assert (∃ ew er, eng wd x = Some ew ∧ eng (other wd) x = Some er)
    as (ew & er & Hw & Hr) by (destruct wd; cbn; eauto).
  pose proof (testbit_63_negative slot ew Hbit) as Hneg.
  assert (¬ 0 < olen_read slot ew) as Hskip by lia.
  assert (∀ wr0, deliver s (Writable fd_ slot wr0) w
                 = deliver s (Writable fd_ slot wr0) (put s x w)) as Hput
    by (intros; by rewrite put_id).
  split.
  { intros wr'. rewrite !Hput.
    by rewrite !(deliver_skip s fd_ slot _ x w ew Hw Hskip). }
  rewrite Hput, (deliver_skip s fd_ slot wr x w ew Hw Hskip). fold wd.
  match goal with
  | |- context [(ssh_packet_fwd _ _ _ ≫= _) (put ?s ?X ?W)] =>
      destruct (fwd_both_armed_w s wd X W er ew)
        as (x' & Hrun & Hr' & Hw' & _ & _ & _ & _ & _ & _ & Ha');
      [rewrite !flag_eng; exact Hr|rewrite !flag_eng; exact Hw|rewrite Hrun]
  end.
  exists x', ew, (fwd_both er ew).2.
  split; [done|]. split; [done|]. split; [done|].
  split; [apply fwd_both_olen|done].
Qed.

Lemma negative_olen_skips_write_witness :
  (∀ wr', deliver 1 (Writable 9 (-1) wr') (deliver 1 (Readable 7 two_packets)
            (connect_cb e_connects 1 (accept_cb e_accepts w_start).2).2).2
          = deliver 1 (Writable 9 (-1) wrote_six)
              (deliver 1 (Readable 7 two_packets)
                 (connect_cb e_connects 1 (accept_cb e_accepts w_start).2).2).2)
  ∧ ∃ e', engine_of 1 Server w_run = Some e' ∧ 6 ≤ olen e'.
Proof.
  set (w := (deliver 1 (Readable 7 two_packets)
               (connect_cb e_connects 1 (accept_cb e_accepts w_start).2).2).2).
  destruct (heap w !! 1%positive) as [x|] eqn:Hx;
    [|vm_compute in Hx; discriminate Hx].
  assert (∃ ec, eng Client x = Some ec) as [ec Hc].
  { vm_compute in Hx. injection Hx as <-. by eexists. }
  assert (∃ es, eng Server x = Some es ∧ olen es = 6) as (es & Hs & Hlen).
  { vm_compute in Hx. injection Hx as <-. by eexists. }
  assert (side_of 9 x = Server) as Hside.
  { vm_compute in Hx. injection Hx as <-. reflexivity. }
  destruct (negative_olen_skips_write 1%positive 9 (-1) wrote_six x w ec es
              Hx Hc Hs eq_refl)
    as (Hsame & x' & e & e' & Hrun & He & He' & Hle & _).
  split; [exact Hsame|].
  rewrite Hside in He, He'. rewrite Hs in He. injection He as <-.
  exists e'. split; [|lia].
  unfold w_run. fold w. rewrite Hrun. unfold engine_of, put. cbn.
  rewrite lookup_insert_eq. exact He'.
Defined.

(** *** Starting the proxy *)

#[local] Arguments BUFSZ : simpl never.

Lemma lift_run {A} (m : P A) p a w' :
  m (p_world p) = (inr a, w') → lift m p = (inr a, set_world w' p).
Proof. intros H. unfold lift. by rewrite H. Qed.

(** The array after the read and the store of the NUL. *)
Lemma array_after (bytes : list byte) (n : nat) :
  <[length (take n bytes) := x00]>
    (take n bytes ++ drop (length (take n bytes)) (replicate n x00))
  = take n bytes ++ replicate (n - length bytes) x00.
Proof.
  rewrite drop_replicate, length_take.
  destruct (decide (length bytes < n)%nat) as [Hlt|Hge].
  - rewrite Nat.min_r by lia. rewrite take_ge by lia.
    rewrite insert_app_r_alt by lia. rewrite Nat.sub_diag.
    f_equal. destruct (n - length bytes)%nat eqn:Hn; [lia|]. done.
  - rewrite Nat.min_l by lia. rewrite Nat.sub_diag.
    replace (n - length bytes)%nat with 0%nat by lia. cbn.
    rewrite app_nil_r. apply list_insert_ge. rewrite length_take. lia.
Qed.

Lemma read_keyfile_run e path m1 m2 name n p r p' :
  read_keyfile e path m1 m2 name (replicate n x00) p = (inr r, p') →
  ∃ bytes, m_read e path = Some bytes
    ∧ p_beyond p' = p_beyond p ++ overrun e (Some path) name (Z.of_nat n)
    ∧ r = take n bytes ++ replicate (n - length bytes) x00
    ∧ same_sessions (p_world p) (p_world p').
Proof.
  unfold read_keyfile, overrun. rewrite length_replicate.
  destruct (decide (m_open e path < 0)); [done|].
  erewrite bind_ok by (apply lift_run; reflexivity).
  destruct (m_read e path) as [bytes|] eqn:Hread; [|done].
  rewrite array_after.
  rewrite length_app, length_drop, length_take, length_replicate.
  intros Hrun. exists bytes. split; [done|].
  revert Hrun. case_decide as Hin; intros Hrun.
  - rewrite decide_False by lia.
    erewrite bind_ok in Hrun by reflexivity.
    erewrite bind_ok in Hrun by (apply lift_run; reflexivity).
    injection Hrun as <- <-. cbn. rewrite app_nil_r. done.
  - rewrite decide_True by lia.
    erewrite bind_ok in Hrun by reflexivity.
    erewrite bind_ok in Hrun by (apply lift_run; reflexivity).
    injection Hrun as <- <-. cbn. rewrite Nat.min_l by lia. done.
Qed.

(** Whatever becomes of the read, the stores made before are still on
    record. *)
Lemma read_keyfile_any e path m1 m2 name buf p :
  ∃ r p' l, read_keyfile e path m1 m2 name buf p = (r, p')
    ∧ p_beyond p' = p_beyond p ++ l.
Proof.
  unfold read_keyfile.
  destruct (decide (m_open e path < 0)).
  { exists (inl (MainFatal m1)), p, []. by rewrite app_nil_r. }
  erewrite bind_ok by (apply lift_run; reflexivity).
  destruct (m_read e path) as [bytes|].
  2:{ eexists _, _, []. split; [reflexivity|]. cbn. by rewrite app_nil_r. }
  case_decide.
  - erewrite bind_ok by reflexivity.
    erewrite bind_ok by (apply lift_run; reflexivity).
    eexists _, _, []. split; [reflexivity|]. cbn. by rewrite app_nil_r.
  - erewrite bind_ok by reflexivity.
    erewrite bind_ok by (apply lift_run; reflexivity).
    eexists _, _, _. split; [reflexivity|]. cbn. reflexivity.
Qed.

Lemma empty_consistent w :
  heap w = ∅ → sessions w = [] → consistent (open_fds w) w.
Proof.
  intros Hh Hs. unfold consistent. rewrite Hh, Hs.
  split; [apply NoDup_nil_2|]. split.
  { intros s. split; [intros H; by apply elem_of_nil in H|].
    intros (x & Hx & _). by rewrite lookup_empty in Hx. }
  split; [intros s x Hx; by rewrite lookup_empty in Hx|].
  split; [intros s1 s2 x1 x2 _ Hx; by rewrite lookup_empty in Hx|].
  split; [done|]. intros fd_ Hfd. by left.
Qed.

(** The part of [main] that reads one key file, if there is one, into the
    array [get]; [other] is the other array. *)
Lemma keyfile_step e (path : option string) m1 m2 name
    (get other : world → list byte) (set : list byte → world → world)
    n p r p' :
  get (p_world p) = replicate n x00 →
  (∀ b u, get (set b u) = b ∧ other (set b u) = other u
          ∧ heap (set b u) = heap u ∧ sessions (set b u) = sessions u
          ∧ listener (set b u) = listener u) →
  (∀ u u', keybuf u' = keybuf u → known_keybuf u' = known_keybuf u →
           other u' = other u) →
  keyfile_block e path m1 m2 name get set p = (inr r, p') →
  p_beyond p' = p_beyond p ++ overrun e path name (Z.of_nat n)
  ∧ (overrun e path name (Z.of_nat n) = [] →
     holds_file e path n (get (p_world p')))
  ∧ other (p_world p') = other (p_world p)
  ∧ heap (p_world p') = heap (p_world p)
  ∧ sessions (p_world p') = sessions (p_world p)
  ∧ listener (p_world p') = listener (p_world p).
Proof.
  intros Hzero Hframe Hother. unfold keyfile_block.
  destruct path as [f|]; cbn [holds_file].
  2:{ intros [= <- <-]. cbn. by rewrite app_nil_r. }
  erewrite bind_ok by (apply lift_run; reflexivity).
  unfold mbind at 1. unfold SE_bind, SE.bind.
  replace (set_world (p_world p) p) with p by by destruct p.
  rewrite Hzero.
  destruct (read_keyfile e f m1 m2 name (replicate n x00) p)
    as [[x|buf] p1] eqn:Hrk; [done|].
  intros [= <- <-]. cbn.
  destruct (read_keyfile_run _ _ _ _ _ _ _ _ _ Hrk)
    as (bytes & Hread & Hb & -> & Hh & Hs & Hl & Hk & Hkk).
  destruct (Hframe (take n bytes ++ replicate (n - length bytes) x00)
              (p_world p1)) as (-> & -> & -> & -> & ->).
  rewrite (Hother (p_world p) (p_world p1)) by done.
  split; [done|]. split; [|done].
  unfold overrun. rewrite Hread. case_decide as Hlen; [done|]. intros _.
  exists bytes. split; [done|]. split; [lia|].
  by rewrite take_ge by lia.
Qed.

Lemma keyfile_any e path m1 m2 name get set p :
  ∃ r p' l, keyfile_block e path m1 m2 name get set p = (r, p')
    ∧ p_beyond p' = p_beyond p ++ l.
Proof.
  unfold keyfile_block. destruct path as [f|].
  2:{ eexists _, _, []. split; [reflexivity|]. by rewrite app_nil_r. }
  erewrite bind_ok by (apply lift_run; reflexivity).
  unfold mbind at 1. unfold SE_bind, SE.bind.
  replace (set_world (p_world p) p) with p by by destruct p.
  destruct (read_keyfile_any e f m1 m2 name (get (p_world p)) p)
    as (r & p1 & l & -> & Hb).
  destruct r as [x|buf]; [by eexists _, _, _|].
  eexists _, _, l. split; [reflexivity|]. done.
Qed.

Lemma main_unfold e opts :
  main e opts
  = (lift (SE.modify (set_sessions []));;
     match getopt_loop e opts start_vars with
     | inl x => SE.exit x
     | inr v =>
         keyfile_block e (hostkey_file v) "open" "read" "keybuf" keybuf
           set_keybuf;;
         keyfile_block e (known_hostkey_file v) "open" "kh: read"
           "known_keybuf" known_keybuf set_known_keybuf;;
         fd ← lift (do_listen (m_getaddrinfo e (listen_host (fwd v))
                                 (listen_port (fwd v))));
         (if decide (fd < 0) then SE.exit (MainFatal " do_listen failed")
          else mret tt);;
         lift (SE.modify (set_listener true));;
         mret v
     end).
Proof. reflexivity. Qed.

Lemma BUFSZ_nat : Z.of_nat (Z.to_nat BUFSZ) = BUFSZ.
Proof. apply Z2Nat.id. unfold BUFSZ. lia. Qed.

Lemma main_run e opts F v p :
  main e opts (process_start F) = (inr v, p) →
  getopt_loop e opts start_vars = inr v
  ∧ p_beyond p = overruns e v
  ∧ heap (p_world p) = ∅ ∧ sessions (p_world p) = []
  ∧ listener (p_world p) = true
  ∧ (overrun e (hostkey_file v) "keybuf" BUFSZ = [] →
     holds_file e (hostkey_file v) (Z.to_nat BUFSZ) (keybuf (p_world p)))
  ∧ (overrun e (known_hostkey_file v) "known_keybuf" BUFSZ = [] →
     holds_file e (known_hostkey_file v) (Z.to_nat BUFSZ)
       (known_keybuf (p_world p)))
  ∧ (∃ ai, listen_choice (m_getaddrinfo e (listen_host (fwd v))
                            (listen_port (fwd v))) = Some ai
           ∧ 0 ≤ la_socket ai)
  ∧ consistent (open_fds (p_world p)) (p_world p).
Proof.
  rewrite main_unfold. erewrite bind_ok by (apply lift_run; reflexivity).
  destruct (getopt_loop e opts start_vars) as [x|v0]; [done|].
  set (p0 := set_world _ (process_start F)).
  unfold mbind at 1. unfold SE_bind, SE.bind.
  destruct (keyfile_block e (hostkey_file v0) "open" "read" "keybuf" keybuf
              set_keybuf p0) as [[x|[]] p1] eqn:H1; [done|].
  apply (keyfile_step e (hostkey_file v0) _ _ _ keybuf known_keybuf set_keybuf
           (Z.to_nat BUFSZ))
    in H1 as (Hb1 & Hf1 & Ho1 & Hh1 & Hs1 & Hl1); [|done..].
  unfold mbind at 1. unfold SE_bind, SE.bind.
  destruct (keyfile_block e (known_hostkey_file v0) "open" "kh: read"
              "known_keybuf" known_keybuf set_known_keybuf p1)
    as [[x|[]] p2] eqn:H2; [done|].
  apply (keyfile_step e (known_hostkey_file v0) _ _ _ known_keybuf keybuf
           set_known_keybuf (Z.to_nat BUFSZ))
    in H2 as (Hb2 & Hf2 & Ho2 & Hh2 & Hs2 & Hl2); [|by rewrite Ho1|done..].
  rewrite BUFSZ_nat in *.
  unfold mbind at 1. unfold SE_bind, SE.bind. unfold lift at 1.
  match goal with
  | |- context [do_listen ?g (p_world p2)] =>
      destruct (do_listen_run g (p_world p2))
        as (r & w3 & Hrun & Hsame & Hr & _);
      rewrite Hrun
  end.
  destruct (decide (r < 0)) as [Hneg|Hpos]; [done|].
  intros [= <- <-]. cbn.
  destruct Hsame as (Hh3 & Hs3 & Hl3 & Hk3 & Hkk3).
  split; [done|].
  split; [by rewrite Hb2, Hb1|].
  assert (heap w3 = ∅) as Hheap by (rewrite Hh3, Hh2, Hh1; done).
  assert (sessions w3 = []) as Hsess by (rewrite Hs3, Hs2, Hs1; done).
  split; [done|]. split; [done|]. split; [done|].
  split; [intros Hn; rewrite Hk3, Ho2; auto|].
  split; [intros Hn; rewrite Hkk3; auto|].
  split.
  - destruct (listen_choice _) as [ai|]; [|lia]. exists ai. split; [done|].
    destruct Hr as [-> ?]. done.
  - by apply (empty_consistent (set_listener true w3)).
Qed.

Lemma app_nil_both {A} (l1 l2 : list A) : l1 ++ l2 = [] → l1 = [] ∧ l2 = [].
Proof. by destruct l1, l2. Qed.


(** A pair whose first component is known. *)
Lemma pair_eq {A B} (p : A * B) (a : A) : p.1 = a → p = (a, p.2).
Proof. destruct p. cbn. by intros ->. Qed.




End ProxyFacts.

(** ** The signing helper *)

Section KeysignFacts.
Import Wire Keysign Examples.

Lemma nat_of_ascii_inj c1 c2 : nat_of_ascii c1 = nat_of_ascii c2 → c1 = c2.
Proof.
  intros H. rewrite <- (ascii_nat_embedding c1), <- (ascii_nat_embedding c2).
  by rewrite H.
Qed.

Lemma casecmp_prefix host : ∀ p c,
  String.length p = S (String.length host) →
  String.get (String.length host) p = Some c →
  strncasecmp host p (String.length host) = 0 →
  ∃ h, p = (h ++ String c "")%string ∧ lowercase h = lowercase host.
Proof.
  induction host as [|a host IH]; intros [|b p] c Hlen Hget Hcmp; try done.
  - cbn in *. destruct p; [|done]. injection Hget as <-. by exists ""%string.
  - cbn in Hlen, Hget, Hcmp. case_decide as Hab.
    + destruct (IH p c) as (h & -> & Hl); [lia|done|done|].
      exists (String b h). cbn. by rewrite Hab, Hl.
    + exfalso. apply Hab, nat_of_ascii_inj. lia.
Qed.

Lemma casecmp_suffix h : ∀ host c,
  lowercase h = lowercase host →
  String.length h = String.length host
  ∧ String.get (String.length host) (h ++ String c "")%string = Some c
  ∧ strncasecmp host (h ++ String c "")%string (String.length host) = 0.
Proof.
  induction h as [|b h IH]; intros [|a host] c Hl; try done.
  cbn in Hl. injection Hl as Hba Hl.
  destruct (IH host c Hl) as (Hlen & Hget & Hcmp).
  change (String b h +:+ String c "") with (String b (h +:+ String c "")).
  cbn [String.length String.get strncasecmp].
  rewrite decide_True by done. auto.
Qed.

Lemma append_length (a b : string) :
  String.length (a ++ b)%string = (String.length a + String.length b)%nat.
Proof.
  induction a as [|c a IH]; [done|].
  change (S (String.length (a ++ b)%string)
          = S (String.length a + String.length b)).
  by rewrite IH.
Qed.

Lemma hostname_check host p len :
  len = Z.of_nat (String.length p) → len < 2 ^ 32 →
  (strlen host = size_sub len 1
   ∧ String.get (Z.to_nat (size_sub len 1)) p = Some "."%char
   ∧ strncasecmp host p (Z.to_nat (size_sub len 1)) = 0)
  ↔ ∃ h, p = (h ++ ".")%string ∧ lowercase h = lowercase host.
Proof.
  intros -> Hlen. unfold strlen, size_sub. split.
  - intros (Hs & Hg & Hc).
    destruct p as [|c p].
    { cbn in Hg. done. }
    cbn [String.length] in *.
    rewrite Z.mod_small in * by lia.
    assert (String.length p = String.length host) as Hn by lia.
    replace (Z.to_nat (Z.of_nat (S (String.length p)) - 1))
      with (String.length host) in * by lia.
    apply casecmp_prefix; [cbn; lia|done|done].
  - intros (h & -> & Hl).
    destruct (casecmp_suffix h host "."%char Hl) as (Hn & Hg & Hc).
    rewrite append_length in *. cbn [String.length] in *.
    rewrite Z.mod_small by lia.
    replace (Z.to_nat (Z.of_nat (String.length h + 1) - 1))
      with (String.length host) by lia.
    repeat split; [lia|done|done].
Qed.

Lemma get_ok {A} (reader : list byte → option (A * list byte)) s a rest :
  reader (b s) = Some (a, rest) → get reader s = (inr a, set_b rest s).
Proof. intros H. unfold get. by rewrite H. Qed.

Lemma get_fail {A} (reader : list byte → option (A * list byte)) s :
  reader (b s) = None → get reader s = (inl "valid_request: buffer error", s).
Proof. intros H. unfold get. by rewrite H. Qed.

Lemma when_incr c s : SE.when c fail_incr s = (inr tt, add_fail (Z.b2z c) s).
Proof.
  destruct c; cbn; [done|]. unfold add_fail. rewrite Z.add_0_r. by destruct s.
Qed.

Ltac vget H :=
  match goal with
  | |- context [(get ?r ≫= _) ?s] =>
      rewrite (bind_ok _ _ _ _ _ (get_ok r s _ _ H))
  end.
Ltac vfail H :=
  match goal with
  | |- context [(get ?r ≫= _) ?s] =>
      eexists; apply bind_abort; apply (get_fail r s); exact H
  end.
Ltac vwhen := rewrite (bind_ok _ _ _ _ _ (when_incr _ _)).

Lemma skip_string_get bs :
  ((λ rest, (tt, rest)) <$> skip_string bs)
  = (λ p : list byte * list byte, (tt, p.2)) <$> get_string bs.
Proof. unfold skip_string. by destruct (get_string bs) as [[]|]. Qed.

Lemma pubkey_step lib pkalg pkblob s :
  key s = None →
  (if decide (sshkey_type_from_name lib pkalg = KEY_UNSPEC) then fail_incr
   else match sshkey_from_blob lib pkblob with
        | None => fail_incr
        | Some k =>
            SE.modify (set_key (Some k));;
            SE.when (bool_decide (type k ≠ sshkey_type_from_name lib pkalg))
              fail_incr
        end) s
  = (inr tt, {| b := b s; fail := fail s + pubkey_fail lib pkalg pkblob;
                key := pubkey_key lib pkalg pkblob |}).
Proof.
  intros Hk. unfold pubkey_fail, pubkey_key. destruct s as [bs fs ks].
  cbn in Hk. subst ks.
  case_decide; [done|].
  destruct (sshkey_from_blob lib pkblob) as [k|]; [|done].
  unfold mbind, SE_bind, SE.bind, SE.modify. by rewrite when_incr.
Qed.

Lemma chost_step host p len s :
  (if decide (strlen host ≠ size_sub len 1) then fail_incr
   else if decide (String.get (Z.to_nat (size_sub len 1)) p ≠ Some "."%char)
   then fail_incr
   else if decide (strncasecmp host p (Z.to_nat (size_sub len 1)) ≠ 0)
   then fail_incr
   else mret tt) s
  = (inr tt, add_fail (chost_fail host p len) s).
Proof.
  unfold chost_fail, add_fail. repeat case_decide; try done.
  cbn. rewrite Z.add_0_r. by destruct s.
Qed.

Lemma body_decode lib pw host data :
  match decode_signed_data lib data with
  | Some (sd, rest) =>
      valid_request_body lib pw host {| b := data; fail := 0; key := None |}
      = (inr tt, {| b := rest; fail := total_fail lib pw host sd rest;
                    key := pubkey_key lib (sd_pkalg sd) (sd_pkblob sd) |})
  | None =>
      ∃ s, valid_request_body lib pw host {| b := data; fail := 0; key := None |}
           = (inl "valid_request: buffer error", s)
  end.
Proof.
  unfold decode_signed_data, valid_request_body.
  destruct (get_string data) as [[sid b1]|] eqn:H1; cbn [mbind option_bind];
    [|vfail H1].
  vget H1. vwhen.
  destruct (get_u8 b1) as [[ty b2]|] eqn:H2; cbn [mbind option_bind];
    [|vfail H2].
  vget H2. vwhen.
  destruct (get_string b2) as [[user b3]|] eqn:H3; cbn [mbind option_bind].
  2:{ eexists. apply bind_abort. apply get_fail. cbn. by rewrite skip_string_get, H3. }
  match goal with
  | |- context [(get ?r ≫= _) ?s] =>
      rewrite (bind_ok _ _ _ tt (set_b b3 s))
        by (apply get_ok; cbn; by rewrite skip_string_get, H3)
  end.
  destruct (get_cstring (valid_utf8 lib) b3) as [[[service l4] b4]|] eqn:H4;
    cbn [mbind option_bind]; [|vfail H4].
  vget H4. vwhen.
  destruct (get_cstring (valid_utf8 lib) b4) as [[[method l5] b5]|] eqn:H5;
    cbn [mbind option_bind]; [|vfail H5].
  vget H5. vwhen.
  destruct (get_cstring (valid_utf8 lib) b5) as [[[pkalg l6] b6]|] eqn:H6;
    cbn [mbind option_bind]; [|vfail H6].
  vget H6.
  destruct (get_string b6) as [[pkblob b7]|] eqn:H7; cbn [mbind option_bind];
    [|vfail H7].
  vget H7.
  match goal with
  | |- context [(_ ≫= _) ?s] =>
      rewrite (bind_ok _ _ _ _ _ (pubkey_step lib (pkalg, l6).1 pkblob s eq_refl))
  end.
  destruct (get_cstring (valid_utf8 lib) b7) as [[[chost l8] b8]|] eqn:H8;
    cbn [mbind option_bind]; [|vfail H8].
  vget H8. rewrite (bind_ok _ _ _ _ _ (chost_step _ _ _ _)).
  destruct (get_cstring (valid_utf8 lib) b8) as [[[luser l9] b9]|] eqn:H9;
    cbn [mbind option_bind]; [|vfail H9].
  vget H9. vwhen.
  apply get_cstring_length in H8 as [-> _].
  unfold SE.gets. erewrite bind_ok by reflexivity.
  rewrite when_incr. reflexivity.
Qed.

Lemma b2z_range c : 0 ≤ Z.b2z c ≤ 1.
Proof. destruct c; cbn; lia. Qed.

Lemma pubkey_fail_range lib pkalg pkblob : 0 ≤ pubkey_fail lib pkalg pkblob.
Proof.
  unfold pubkey_fail. case_decide; [lia|].
  destruct (sshkey_from_blob lib pkblob); [apply b2z_range|lia].
Qed.

Lemma pubkey_fail_zero lib pkalg pkblob :
  pubkey_fail lib pkalg pkblob = 0
  ↔ ∃ k, pubkey_key lib pkalg pkblob = Some k
         ∧ sshkey_type_from_name lib pkalg ≠ KEY_UNSPEC
         ∧ sshkey_from_blob lib pkblob = Some k
         ∧ type k = sshkey_type_from_name lib pkalg.
Proof.
  unfold pubkey_fail, pubkey_key. case_decide as Hu.
  { split; [done|]. by intros (k & ? & ? & _). }
  destruct (sshkey_from_blob lib pkblob) as [k|].
  - case_bool_decide as Ht; cbn.
    + split; [done|]. intros (k' & [= <-] & _ & _ & ?). done.
    + split; [|done]. intros _. exists k. repeat split; try done.
      all: by destruct (decide (type k = sshkey_type_from_name lib pkalg)).
  - split; [done|]. by intros (k & ? & _).
Qed.

Lemma chost_fail_range host p len : 0 ≤ chost_fail host p len.
Proof. unfold chost_fail. repeat case_decide; lia. Qed.

Lemma chost_fail_zero host p :
  Z.of_nat (String.length p) < 2 ^ 32 →
  chost_fail host p (Z.of_nat (String.length p)) = 0
  ↔ ∃ h, p = (h ++ ".")%string ∧ lowercase h = lowercase host.
Proof.
  intros Hlen. rewrite <- (hostname_check host p _ eq_refl Hlen).
  unfold chost_fail. repeat case_decide; split; try done; tauto.
Qed.

Lemma total_fail_range lib pw host sd rest : 0 ≤ total_fail lib pw host sd rest.
Proof.
  unfold total_fail.
  pose proof (pubkey_fail_range lib (sd_pkalg sd) (sd_pkblob sd)).
  pose proof (chost_fail_range host (sd_chost sd)
                (Z.of_nat (String.length (sd_chost sd)))).
  repeat match goal with
         | |- context [Z.b2z ?c] =>
             pose proof (b2z_range c); generalize dependent (Z.b2z c); intros
         end.
  lia.
Qed.

Lemma total_fail_zero lib pw host sd rest :
  Z.of_nat (String.length (sd_chost sd)) < 2 ^ 32 →
  total_fail lib pw host sd rest = 0
  ↔ rest = []
    ∧ ∃ k, pubkey_key lib (sd_pkalg sd) (sd_pkblob sd) = Some k
           ∧ acceptable lib pw host sd k.
Proof.
  intros Hlen. unfold total_fail, acceptable.
  pose proof (pubkey_fail_range lib (sd_pkalg sd) (sd_pkblob sd)) as Hp.
  pose proof (chost_fail_range host (sd_chost sd)
                (Z.of_nat (String.length (sd_chost sd)))) as Hc.
  pose proof (pubkey_fail_zero lib (sd_pkalg sd) (sd_pkblob sd)) as Hpz.
  pose proof (chost_fail_zero host (sd_chost sd) Hlen) as Hcz.
  unfold strcmp_ne.
  assert (bool_decide (Z.of_nat (length (sd_session_id sd)) ≠ 20)
          && bool_decide (Z.of_nat (length (sd_session_id sd)) ≠ 32) = false
          ↔ (length (sd_session_id sd) = 20%nat
             ∨ length (sd_session_id sd) = 32%nat)) as H1.
  { rewrite andb_false_iff, !bool_decide_eq_false. split.
    - intros [?|?]; [left|right]; lia.
    - intros [?|?]; [left|right]; lia. }
  remember (bool_decide (Z.of_nat (length (sd_session_id sd)) ≠ 20)
            && bool_decide (Z.of_nat (length (sd_session_id sd)) ≠ 32))
    as c1 eqn:Hc1. clear Hc1.
  split.
  - intros Hsum.
    repeat match type of Hsum with
           | context [Z.b2z ?c] => destruct c eqn:?; cbn [Z.b2z] in Hsum
           end; try lia.
    apply proj1 in Hpz. destruct Hpz as (k & Hk & Hu & Hb & Ht); [lia|].
    apply proj1 in Hcz. specialize (Hcz ltac:(lia)).
    repeat match goal with
           | H : bool_decide _ = false |- _ => apply bool_decide_eq_false in H
           end.
    split.
    + destruct rest; [done|]. exfalso. eauto.
    + exists k. split; [done|]. repeat split; try done.
      * by apply H1.
      * match goal with |- ?a = ?b => by destruct (decide (a = b)) end.
      * match goal with
        | H : ¬ "ssh-connection"%string ≠ _ |- _ =>
            by destruct (decide ("ssh-connection"%string = sd_service sd))
        end.
      * match goal with
        | H : ¬ "hostbased"%string ≠ _ |- _ =>
            by destruct (decide ("hostbased"%string = sd_method sd))
        end.
      * match goal with
        | H : ¬ pw_name pw ≠ _ |- _ =>
            by destruct (decide (pw_name pw = sd_luser sd))
        end.
  - intros (-> & k & Hk & Hsid & Hty & Hsv & Hm & Hu & Hb & Ht & Hh & Hl).
    apply proj2 in Hpz. rewrite Hpz by eauto.
    apply proj2 in Hcz. rewrite Hcz by done.
    apply H1 in Hsid. rewrite Hsid.
    rewrite !bool_decide_eq_false_2; [done|cbn; lia|..].
    + intros ?; congruence.
    + intros ?; congruence.
    + intros ?; congruence.
    + intros ?; congruence.
Qed.

Lemma decode_chost_length lib data sd rest :
  decode_signed_data lib data = Some (sd, rest) →
  Z.of_nat (String.length (sd_chost sd)) < 2 ^ 32.
Proof.
  unfold decode_signed_data. intros H.
  repeat match type of H with
         | (?m ≫= _) = Some _ =>
             let E := fresh "E" in
             destruct m as [[[] ?]|] eqn:E; cbn [mbind option_bind] in H;
             [|discriminate H]
         | (?m ≫= _) = Some _ =>
             let E := fresh "E" in
             destruct m as [[]|] eqn:E; cbn [mbind option_bind] in H;
             [|discriminate H]
         end.
  injection H as <- <-. cbn.
  match goal with
  | E : get_cstring _ _ = Some (?p, ?l, _) |- context [String.length ?p] =>
      apply get_cstring_length in E as [-> ?]; done
  end.
Qed.

(** C8: [valid_request] returns 0 and hands out the key of the embedded blob
    exactly when the signed data decodes into its nine fields with no byte
    left over and every check holds: the session id is 20 or 32 bytes long,
    the type byte is SSH2_MSG_USERAUTH_REQUEST, the service is
    "ssh-connection", the method is "hostbased", the algorithm name has a
    known key type which is the type of the key in the blob, the client host
    is the local host name up to case followed by a dot, and the local user
    is [pw_name].  When the fields decode and some check fails, or bytes
    remain, the checks are counted together and the one answer is -1; a
    field that does not decode ends the run in [fatal]. *)
Theorem valid_request_accepts lib pw host ret0 data :
  (∀ k, valid_request lib pw host ret0 data = VReturn 0 (Some k)
        ↔ ∃ sd, decode_signed_data lib data = Some (sd, [])
                ∧ acceptable lib pw host sd k)
  ∧ (∀ sd rest, decode_signed_data lib data = Some (sd, rest) →
       (rest ≠ [] ∨ ¬ ∃ k, acceptable lib pw host sd k) →
       ∃ ret, valid_request lib pw host ret0 data = VReturn (-1) ret)
  ∧ (decode_signed_data lib data = None →
       ∃ msg, valid_request lib pw host ret0 data = VFatal msg).
Proof.
  pose proof (body_decode lib pw host data) as Hbody.
  unfold valid_request.
  destruct (decode_signed_data lib data) as [[sd rest]|] eqn:Hdec.
  - rewrite Hbody. cbn [fail key].
    pose proof (total_fail_zero lib pw host sd rest
                  (decode_chost_length _ _ _ _ Hdec)) as Hz.
    split; [|split; [|done]].
    + intros k. split.
      * intros Hret.
        destruct (decide (total_fail lib pw host sd rest = 0)) as [H0|Hf].
        2:{ destruct (decide (total_fail lib pw host sd rest ≠ 0));
              [discriminate Hret|done]. }
        destruct (decide (total_fail lib pw host sd rest ≠ 0)); [done|].
        apply Hz in H0 as (-> & k' & Hk & Hacc).
        rewrite bool_decide_eq_false_2 in Hret by done. cbn in Hret.
        exists sd. split; [done|]. congruence.
      * intros (sd' & [= <- ->] & Hacc).
        assert (pubkey_key lib (sd_pkalg sd) (sd_pkblob sd) = Some k) as Hk.
        { destruct Hacc as (_ & _ & _ & _ & Hu & Hb & _).
          unfold pubkey_key. by rewrite decide_False. }
        assert (total_fail lib pw host sd [] = 0) as H0.
        { apply Hz. split; [done|]. by exists k. }
        rewrite H0, Hk. done.
    + intros sd' rest' [= <- <-] Hbad.
      assert (total_fail lib pw host sd rest ≠ 0) as Hne.
      { intros H0. apply Hz in H0 as (-> & k & _ & Hacc).
        destruct Hbad as [?|Hno]; [done|]. apply Hno. by exists k. }
      destruct (decide (total_fail lib pw host sd rest ≠ 0)); [|done].
      by eexists.
  - destruct Hbody as [s ->]. split; [|split; [done|by eexists]].
    intros k. split; [done|]. by intros (sd & ? & _).
Qed.

(** The request of [Examples.request], sent from "Host.Example." for the
    local host "host.example", is accepted with its RSA key. *)
Lemma valid_request_accepts_witness :
  valid_request lib0 alice "host.example" None request
  = VReturn 0 (Some rsa_key).
Proof.
  apply (valid_request_accepts lib0 alice "host.example" None request).
  exists request_fields. split; [vm_compute; reflexivity|].
  unfold acceptable. repeat split; try (vm_compute; reflexivity).
  - left. reflexivity.
  - discriminate.
  - exists "Host.Example"%string. split; reflexivity.
Defined.

(** The same request with one byte after the last field is rejected, and so
    is a request whose client host lacks the trailing dot. *)
Example valid_request_trailing_byte :
  valid_request lib0 alice "host.example" None (request ++ [x00])
  = VReturn (-1) None.
Proof. vm_compute. reflexivity. Qed.

Example valid_request_truncated :
  valid_request lib0 alice "host.example" None (take 30 request)
  = VFatal "valid_request: buffer error".
Proof. vm_compute. reflexivity. Qed.

Lemma mget_ok {A} (reader : list byte → option (A * list byte)) s a rest :
  reader (buf s) = Some (a, rest) → mget reader s = (inr a, set_buf rest s).
Proof. intros H. unfold mget. by rewrite H. Qed.

Lemma startup_state e s r s' : startup e s = (r, s') → s' = s.
Proof.
  unfold startup, mbind, SE_bind, SE.bind, SE.exit, fatal, mret, SE_ret, SE.ret.
  cbn. repeat step. all: by intros [= _ <-].
Qed.

(** C10: when the descriptor index of a request, read as a signed 32-bit
    integer, is negative, 0 (stdin) or 1 (stdout), [main] ends in
    [fatal "bad fd"]: the buffer still holds everything after the index, so
    the signed data was not read, and neither a signature nor a reply was
    produced. *)
Theorem bad_fd_is_fatal e st pw keys body rver m v rest :
  startup e start = (inr (pw, keys), st) →
  e_ssh_msg_recv e = Some body →
  get_u8 body = Some (rver, m) → byte_to_Z rver = version →
  get_u32 m = Some (v, rest) →
  to_int v < 0 ∨ to_int v = STDIN_FILENO ∨ to_int v = STDOUT_FILENO →
  ∃ st', main e start = (inl (Fatal "bad fd"), st')
         ∧ buf st' = rest ∧ signatures st' = [] ∧ stdout st' = [].
Proof.
  intros Hstart Hrecv Hver Hv2 Hfd Hbad.
  assert (st = start) as -> by by eapply startup_state.
  unfold main. rewrite (bind_ok _ _ _ _ _ Hstart). unfold serve. rewrite Hrecv.
  erewrite bind_ok by reflexivity.
  match goal with
  | |- context [(mget get_u8 ≫= _) ?s] =>
      rewrite (bind_ok _ _ _ _ _ (mget_ok get_u8 s _ _ Hver))
  end.
  destruct (decide (byte_to_Z rver ≠ version)) as [?|_]; [done|].
  erewrite bind_ok by reflexivity.
  match goal with
  | |- context [(mget get_u32 ≫= _) ?s] =>
      rewrite (bind_ok _ _ _ _ _ (mget_ok get_u32 s _ _ Hfd))
  end.
  assert (bool_decide (to_int v < 0) || bool_decide (to_int v = STDIN_FILENO)
          || bool_decide (to_int v = STDOUT_FILENO) = true) as ->.
  { rewrite !orb_true_iff, !bool_decide_eq_true. tauto. }
  eexists. split; [by apply bind_abort|]. done.
Qed.

Lemma bad_fd_is_fatal_witness :
  ∃ st', main (keysign_env 1) start = (inl (Fatal "bad fd"), st')
         ∧ buf st' = put_string request
         ∧ signatures st' = [] ∧ stdout st' = [].
Proof.
  apply (bad_fd_is_fatal (keysign_env 1) start alice
           [None; None; Some rsa_key]
           (x02 :: put_u32 1 ++ put_string request) x02
           (put_u32 1 ++ put_string request) 1 (put_string request));
    try (vm_compute; reflexivity).
  right; right. reflexivity.
Defined.

(** An index of 0xffffffff is -1 as an [int]; an index of 5 passes the test
    and the request is signed. *)
Example bad_fd_minus_one :
  (main (keysign_env 4294967295) start).1 = inl (Fatal "bad fd").
Proof. vm_compute. reflexivity. Qed.

Example good_fd_signs :
  (main (keysign_env 5) start).1 = inr 0
  ∧ length (signatures (main (keysign_env 5) start).2) = 1%nat.
Proof. vm_compute. split; reflexivity. Qed.

(** *** Further properties of the helper *)

#[local] Arguments valid_request : simpl never.
#[local] Arguments get_u8 : simpl never.
#[local] Arguments get_u32 : simpl never.
#[local] Arguments get_string : simpl never.
#[local] Arguments put_string : simpl never.
#[local] Arguments Z_to_byte : simpl never.

Ltac mread H :=
  match goal with
  | |- context [(mget ?r ≫= _) ?s] =>
      rewrite (bind_ok _ _ _ _ _ (mget_ok r s _ _ H))
  end.

(** What [valid_request] can return. *)
Lemma valid_request_result lib pw host ret0 data r ret :
  valid_request lib pw host ret0 data = VReturn r ret →
  (r = 0 ∧ ∃ k, ret = Some k) ∨ (r = -1 ∧ (ret = ret0 ∨ ret = None)).
Proof.
  pose proof (body_decode lib pw host data) as Hbody.
  unfold valid_request.
  destruct (decode_signed_data lib data) as [[sd rest]|] eqn:Hdec.
  - rewrite Hbody. cbn [fail key].
    pose proof (total_fail_zero lib pw host sd rest
                  (decode_chost_length _ _ _ _ Hdec)) as Hz.
    destruct (decide (total_fail lib pw host sd rest ≠ 0)) as [Hf|Hf].
    + rewrite bool_decide_eq_true_2 by done. cbn [andb].
      intros [= <- <-]. right. split; [done|].
      case_bool_decide as Hk; [by left|right].
      by destruct (pubkey_key lib (sd_pkalg sd) (sd_pkblob sd)).
    + rewrite bool_decide_eq_false_2 by done. cbn [andb].
      intros [= <- <-]. left. split; [done|].
      destruct (decide (total_fail lib pw host sd rest = 0)) as [H0|?];
        [|done].
      apply Hz in H0 as (_ & k & -> & _). by exists k.
  - destruct Hbody as [s ->]. done.
Qed.

Lemma startup_ok e s pw keys s' :
  startup e s = (inr (pw, keys), s') →
  s' = s ∧ 2 ≤ e_open_devnull e ∧ e_getpwuid e = Some pw
  ∧ e_enable_ssh_keysign e = 1 ∧ keys = loaded_keys e.
Proof.
  unfold startup, loaded_keys, mbind, SE_bind, SE.bind, SE.exit, fatal, mret,
    SE_ret, SE.ret.
  cbn. repeat step. all: intros [= <- <- <-]; repeat split; try done; try lia.
  all: by destruct (decide (e_enable_ssh_keysign e = 1)).
Qed.

(** Every path through [main] after the keys are loaded: what a signature
    or a reply presupposes. *)
Lemma serve_paths e pw keys r st :
  serve e pw keys start = (r, st) →
  (signatures st = [] ∧ stdout st = []) ∨ signed_for e pw keys st.
Proof.
  unfold signed_for, serve, mget, fatal, mbind, SE_bind, SE.bind, SE.exit,
    SE.modify, mret, SE_ret, SE.ret.
  cbn. repeat step.
  all: intros [= <- <-]; cbn; try (by left).
  all: right.
  all: match goal with
       | Hv : valid_request _ _ _ _ _ = VReturn ?r _ |- _ =>
           destruct (valid_request_result _ _ _ _ _ _ _ Hv)
             as [[-> _]|[-> _]]; [|lia]
       end.
  all: match goal with
       | Hf : find _ _ = Some _ |- _ => apply find_some in Hf as [Hin Heq]
       end.
  all: try discriminate Heq.
  all: match goal with
       | Hb : _ || _ || _ = false |- _ =>
           apply orb_false_iff in Hb as [Hb ?];
           apply orb_false_iff in Hb as [? ?]
       end.
  all: repeat match goal with
         | H : bool_decide _ = false |- _ => apply bool_decide_eq_false in H
         end.
  all: eexists _, _, _, _, _, _, _, _, _, _, _.
  all: split; [reflexivity|].
  all: split; [eassumption|].
  all: split; [match goal with
               | H : ¬ byte_to_Z ?b ≠ version |- _ =>
                   by destruct (decide (byte_to_Z b = version))
               end|].
  all: split; [eassumption|].
  all: split; [unfold STDIN_FILENO, STDOUT_FILENO in *; lia|].
  all: do 6 (split; [eassumption|]).
  all: split; [reflexivity|]; auto.
Qed.

Lemma main_paths e r st :
  main e start = (r, st) →
  (signatures st = [] ∧ stdout st = [])
  ∨ ∃ pw, e_getpwuid e = Some pw ∧ e_enable_ssh_keysign e = 1
          ∧ signed_for e pw (loaded_keys e) st.
Proof.
  unfold main. unfold mbind at 1. unfold SE_bind, SE.bind.
  destruct (startup e start) as [[x|[pw keys]] s] eqn:Hst.
  - intros [= <- <-]. left.
    assert (s = start) as -> by by eapply startup_state. done.
  - apply startup_ok in Hst as (-> & _ & Hpw & Hen & ->).
    intros Hserve. apply serve_paths in Hserve as [?|?]; [by left|right].
    by exists pw.
Qed.

(** X8: whatever the helper receives, if it made a signature or wrote
    anything to stdout, then EnableSSHKeysign is 1, the request named a
    descriptor other than stdin and stdout, the signed data passed
    [valid_request] for the invoking user and the local name of that
    descriptor, and the one signature made is over exactly that data, by a
    loaded host key whose public part equals the key in the request; the
    only thing written is the reply that carries this signature. *)
Theorem signs_only_accepted_requests e r st :
  main e start = (r, st) →
  signatures st ≠ [] ∨ stdout st ≠ [] →
  ∃ pw, e_getpwuid e = Some pw ∧ e_enable_ssh_keysign e = 1
        ∧ signed_for e pw (loaded_keys e) st.
Proof.
  intros Hrun Hout. destruct (main_paths e r st Hrun) as [[H1 H2]|H]; [|done].
  by destruct Hout.
Qed.

Lemma signs_only_accepted_requests_witness :
  ∃ pw, e_getpwuid (keysign_env 5) = Some pw
        ∧ e_enable_ssh_keysign (keysign_env 5) = 1
        ∧ signed_for (keysign_env 5) pw (loaded_keys (keysign_env 5))
            (main (keysign_env 5) start).2.
Proof.
  apply (signs_only_accepted_requests (keysign_env 5)
           (main (keysign_env 5) start).1).
  - by destruct (main (keysign_env 5) start).
  - left. vm_compute. discriminate.
Defined.

(** X9: when the keys are loaded, the message has version 2 and names a
    descriptor above stdout with a local name, the signed data passes
    [valid_request], and a loaded host key equals the key of the request,
    [main] returns 0: it signs the signed data once, with the first such
    host key in the order DSA, ECDSA, RSA, and writes one reply, the version
    octet followed by the signature as a string. *)
Theorem main_signs_accepted_request
    e pw keys body rver m v rest host data rest' key hk sig :
  startup e start = (inr (pw, keys), start) →
  e_ssh_msg_recv e = Some body →
  get_u8 body = Some (rver, m) → byte_to_Z rver = version →
  get_u32 m = Some (v, rest) → 1 < to_int v →
  e_get_local_name e (to_int v) = Some host →
  get_string rest = Some (data, rest') →
  valid_request (e_lib e) pw host None data = VReturn 0 (Some key) →
  List.find (λ k, match k with
                  | Some hk => sshkey_equal_public (e_lib e) key hk
                  | None => false
                  end) keys = Some (Some hk) →
  e_sshkey_sign e hk data = Some sig →
  e_ssh_msg_send e ≠ -1 →
  main e start
  = (inr 0, {| buf := put_string sig; signatures := [sig];
               stdout := [Z_to_byte version :: put_string sig] |}).
Proof.
  intros Hstart Hrecv Hver Hv2 Hfd Hpos Hname Hdata Hvalid Hfind Hsign Hsend.
  unfold main. rewrite (bind_ok _ _ _ _ _ Hstart). unfold serve. rewrite Hrecv.
  erewrite bind_ok by reflexivity.
  mread Hver.
  destruct (decide (byte_to_Z rver ≠ version)) as [?|_]; [done|].
  erewrite bind_ok by reflexivity.
  mread Hfd.
  assert (bool_decide (to_int v < 0) || bool_decide (to_int v = STDIN_FILENO)
          || bool_decide (to_int v = STDOUT_FILENO) = false) as ->.
  { unfold STDIN_FILENO, STDOUT_FILENO.
    rewrite !bool_decide_eq_false_2 by lia. done. }
  erewrite bind_ok by reflexivity.
  rewrite Hname. mread Hdata. rewrite Hvalid.
  destruct (decide (0 < 0)) as [?|_]; [lia|].
  erewrite bind_ok by reflexivity.
  rewrite Hfind, Hsign.
  destruct (decide (e_ssh_msg_send e = -1)) as [?|_]; [done|].
  reflexivity.
Qed.

Lemma main_signs_accepted_request_witness :
  main (keysign_env 5) start
  = (inr 0, {| buf := put_string (take 2 request);
               signatures := [take 2 request];
               stdout := [Z_to_byte version :: put_string (take 2 request)] |}).
Proof.
  apply (main_signs_accepted_request (keysign_env 5) alice
           [None; None; Some rsa_key]
           (x02 :: put_u32 5 ++ put_string request) x02
           (put_u32 5 ++ put_string request) 5 (put_string request)
           "host.example" request [] rsa_key rsa_key (take 2 request));
    try (vm_compute; reflexivity).
  vm_compute. discriminate.
Defined.

Lemma no_key_loaded (keys : list (option sshkey)) :
  Forall (λ k, k = None) keys →
  existsb (λ k, bool_decide (k ≠ None)) keys = false.
Proof.
  induction 1 as [|k keys -> _ IH]; [done|]. exact IH.
Qed.

Lemma some_file_opens (a b c : Z) :
  existsb (λ f, bool_decide (f ≠ -1)) [a; b; c]
  = negb (bool_decide (a = -1 ∧ b = -1 ∧ c = -1)).
Proof.
  cbn. repeat case_bool_decide; cbn; try done; exfalso; tauto.
Qed.

(** X10: with stdin and stdout connected, a password entry and
    EnableSSHKeysign set, a helper that ends up without any host key is
    fatal before it reads the request: "could not open any host key" when
    none of the three key files opens, "no hostkey found" when a file opens
    but none yields a key. *)
Theorem no_host_key_is_fatal e pw :
  2 ≤ e_open_devnull e → e_getpwuid e = Some pw →
  e_enable_ssh_keysign e = 1 →
  Forall (λ k, k = None) (loaded_keys e) →
  ∃ msg, main e start = (inl (Fatal msg), start)
    ∧ (msg = if decide (e_open_dsa e = -1 ∧ e_open_ecdsa e = -1
                        ∧ e_open_rsa e = -1)
             then "could not open any host key"%string
             else "no hostkey found"%string).
Proof.
  intros Hnull Hpw Hen Hkeys. apply no_key_loaded in Hkeys.
  unfold main, startup. rewrite !bind_assoc.
  destruct (decide (e_open_devnull e < 2)) as [?|_]; [lia|].
  erewrite bind_ok by reflexivity. cbv zeta.
  rewrite Hpw. rewrite !bind_assoc. erewrite bind_ok by reflexivity.
  destruct (decide (e_enable_ssh_keysign e ≠ 1)) as [?|_]; [done|].
  rewrite !bind_assoc. erewrite bind_ok by reflexivity.
  rewrite some_file_opens.
  fold (loaded_keys e). rewrite Hkeys.
  destruct (decide (e_open_dsa e = -1 ∧ e_open_ecdsa e = -1
                    ∧ e_open_rsa e = -1)) as [Hall|Hsome].
  - rewrite bool_decide_eq_true_2 by done. cbn [negb].
    eexists. split; [|reflexivity]. reflexivity.
  - rewrite bool_decide_eq_false_2 by done. cbn [negb].
    rewrite !bind_assoc. erewrite bind_ok by reflexivity.
    eexists. split; [|reflexivity]. reflexivity.
Qed.

Lemma no_host_key_is_fatal_witness :
  main (keysign_no_keys (-1)) start
  = (inl (Fatal "could not open any host key"), start)
  ∧ main (keysign_no_keys 4) start = (inl (Fatal "no hostkey found"), start).
Proof.
  split.
  - destruct (no_host_key_is_fatal (keysign_no_keys (-1)) alice)
      as (msg & -> & ->); try reflexivity.
    + vm_compute. discriminate.
    + repeat constructor.
  - destruct (no_host_key_is_fatal (keysign_no_keys 4) alice)
      as (msg & -> & ->); try reflexivity.
    + vm_compute. discriminate.
    + repeat constructor.
Defined.

(** X11: [valid_request] returns 0 or -1 and nothing else; with 0 the
    caller's variable holds a key; with -1 it holds what it held before
    (the parsed key was freed) or NULL (no key was parsed), never the key
    of the rejected request. *)
Theorem valid_request_returns lib pw host ret0 data r ret :
  valid_request lib pw host ret0 data = VReturn r ret →
  (r = 0 ∧ ∃ k, ret = Some k) ∨ (r = -1 ∧ (ret = ret0 ∨ ret = None)).
Proof. apply valid_request_result. Qed.

Lemma valid_request_returns_witness :
  valid_request lib0 alice "host.example" None (request ++ [x00])
  = VReturn (-1) None
  ∧ ((-1 = 0 ∧ ∃ k, (None : option sshkey) = Some k)
     ∨ (-1 = -1 ∧ ((None : option sshkey) = None
                   ∨ (None : option sshkey) = None))).
Proof.
  assert (valid_request lib0 alice "host.example" None (request ++ [x00])
          = VReturn (-1) None) as H by (vm_compute; reflexivity).
  exact (conj H (valid_request_returns lib0 alice "host.example" None
                   (request ++ [x00]) (-1) None H)).
Defined.

(** X12: a message whose version octet is not 2 is fatal with "bad
    version": the descriptor index and the signed data are not read, nothing
    is signed and nothing is written. *)
Theorem bad_version_is_fatal e st pw keys body rver m :
  startup e start = (inr (pw, keys), st) →
  e_ssh_msg_recv e = Some body →
  get_u8 body = Some (rver, m) → byte_to_Z rver ≠ version →
  main e start = (inl (Fatal "bad version"), set_buf m start).
Proof.
  intros Hstart Hrecv Hver Hv2.
  assert (st = start) as -> by by eapply startup_state.
  unfold main. rewrite (bind_ok _ _ _ _ _ Hstart). unfold serve. rewrite Hrecv.
  erewrite bind_ok by reflexivity.
  mread Hver.
  destruct (decide (byte_to_Z rver ≠ version)) as [_|?]; [|done].
  reflexivity.
Qed.

Lemma bad_version_is_fatal_witness :
  main (keysign_receiving (x01 :: put_u32 5 ++ put_string request)) start
  = (inl (Fatal "bad version"),
     set_buf (put_u32 5 ++ put_string request) start).
Proof.
  apply (bad_version_is_fatal
           (keysign_receiving (x01 :: put_u32 5 ++ put_string request)) start
           alice [None; None; Some rsa_key]
           (x01 :: put_u32 5 ++ put_string request) x01);
    try (vm_compute; reflexivity).
  vm_compute. discriminate.
Defined.

End KeysignFacts.
